(** * This Might Hurt Tarot scraper: a shallow embedding of
      [tmh_tarot_scraper.py] and the proofs of its specification.

    Conventions of the embedding.
    - A Python [str] is a list of characters ([list ascii]).  Character
      classes and case mappings are those Python applies to the ASCII
      range: a character above 127 has no case, is no white space and
      is no word character.
    - Regular expressions are values of a small abstract syntax that
      covers what the patterns of the program use; they are run by a
      backtracking matcher with Python's priorities (leftmost
      alternative first, greedy repetition).
    - A parsed page is a tree of tags and text strings; comments and other
      special strings are not part of the model.  An element of the page is
      a pair of its path from the root and its subtree.
    - The HTTP fetch, [urljoin] and the re-parse of [<noscript>] content
      belong to libraries; they are variables of the sections that use
      them. *)

From Stdlib Require Import String Ascii List Bool Arith Lia ZArith.
From Stdlib Require Import Sorted Permutation.
Import ListNotations.

Set Warnings "-register-all".
Set Implicit Arguments.

(* ================================================================== *)
(** ** Python strings *)

Module Py.

Definition str := list ascii.

(** A string literal of the source. *)
Definition L (s : string) : str := list_ascii_of_string s.

Definition nl : ascii := "010"%char.
Definition tab : ascii := "009"%char.

Definition code (c : ascii) : nat := nat_of_ascii c.
Definition in_range (lo hi : nat) (c : ascii) : bool :=
  (lo <=? code c) && (code c <=? hi).

(** [str.isspace] / the class [\s]: TAB..CR, FS..US and the space. *)
Definition isspace (c : ascii) : bool := in_range 9 13 c || in_range 28 32 c.
Definition isupper (c : ascii) : bool := in_range 65 90 c.
Definition islower (c : ascii) : bool := in_range 97 122 c.
Definition isdigit (c : ascii) : bool := in_range 48 57 c.
(** The class [\w]. *)
Definition isword (c : ascii) : bool :=
  isupper c || islower c || isdigit c || (c =? "_")%char.

Definition lower_char (c : ascii) : ascii :=
  if isupper c then ascii_of_nat (code c + 32) else c.
Definition upper_char (c : ascii) : ascii :=
  if islower c then ascii_of_nat (code c - 32) else c.

Definition str_eqb (a b : str) : bool :=
  if list_eq_dec ascii_dec a b then true else false.

(** [s.lower()] *)
Definition lower (s : str) : str := map lower_char s.

(** [s.title()]: a cased character is upper-cased when the character before
    it is not cased and lower-cased otherwise. *)
Fixpoint title_from (prev_cased : bool) (s : str) : str :=
  match s with
  | [] => []
  | c :: t =>
      (if prev_cased then lower_char c else upper_char c)
        :: title_from (isupper c || islower c) t
  end.
Definition title (s : str) : str := title_from false s.

Fixpoint lstrip (s : str) : str :=
  match s with
  | c :: t => if isspace c then lstrip t else s
  | [] => []
  end.
Definition rstrip (s : str) : str := rev (lstrip (rev s)).
(** [s.strip()] *)
Definition strip (s : str) : str := rstrip (lstrip s).

(** [s.startswith(p)] *)
Fixpoint startswith (p s : str) : bool :=
  match p, s with
  | [], _ => true
  | a :: p', b :: s' => (a =? b)%char && startswith p' s'
  | _ :: _, [] => false
  end.

(** [sub in s] *)
Fixpoint contains (sub s : str) : bool :=
  startswith sub s
  || match s with
     | [] => false
     | _ :: t => contains sub t
     end.

(** [s.endswith(suf)] *)
Definition endswith (suf s : str) : bool := startswith (rev suf) (rev s).

(** [s.split(sep)] for a separator of one character. *)
Fixpoint split (sep : ascii) (s : str) : list str :=
  match s with
  | [] => [[]]
  | c :: t =>
      if (c =? sep)%char then [] :: split sep t
      else match split sep t with
           | h :: r => (c :: h) :: r
           | [] => [[c]]
           end
  end.

(** [s.replace(c, "")] for a one-character [c]. *)
Definition remove_char (c : ascii) (s : str) : str :=
  filter (fun x => negb (x =? c)%char) s.

(** [sep.join(l)] *)
Fixpoint join (sep : str) (l : list str) : str :=
  match l with
  | [] => []
  | [x] => x
  | x :: l' => x ++ sep ++ join sep l'
  end.

(** Truth value of a string: the empty string is false. *)
Definition nonempty (s : str) : bool :=
  match s with [] => false | _ => true end.

End Py.
Import Py.

(* ================================================================== *)
(** ** Regular expressions *)

Module Re.

(** The constructs that occur in the patterns of the program.  Repetition
    is only ever applied to a character class there, so [Star] takes a
    class. *)
Inductive regex : Type :=
| Eps                             (* the empty pattern *)
| Bos                             (* ^ without MULTILINE *)
| Eos                             (* $ without MULTILINE *)
| Cls (p : ascii -> bool)         (* one character of a class *)
| Seq (a b : regex)
| Alt (a b : regex)               (* a|b, [a] is tried first *)
| Star (p : ascii -> bool)        (* greedy repetition of a class *)
| Group (i : nat) (a : regex).    (* capturing group number [i] *)

Definition plus (p : ascii -> bool) : regex := Seq (Cls p) (Star p).
(** [p?], greedy. *)
Definition opt (p : ascii -> bool) : regex := Alt (Cls p) Eps.

(** One literal character; under [re.I] both cases match.  The characters
    are the 256 of the type [ascii]: the letters beyond them that [re.I]
    also takes for s, i and k are outside of the strings modelled here. *)
Definition chr (ci : bool) (a : ascii) : ascii -> bool :=
  fun c => if ci then (lower_char c =? lower_char a)%char else (c =? a)%char.

(** A literal string. *)
Fixpoint lit (ci : bool) (w : str) : regex :=
  match w with
  | [] => Eps
  | a :: w' => Seq (Cls (chr ci a)) (lit ci w')
  end.

(** [(w1|w2|...)] without the parentheses. *)
Fixpoint alts (l : list regex) : regex :=
  match l with
  | [] => Cls (fun _ => false)
  | [r] => r
  | r :: l' => Alt r (alts l')
  end.

(** Captured groups, the latest binding first. *)
Definition caps := list (nat * str).

Fixpoint group (i : nat) (g : caps) : option str :=
  match g with
  | [] => None
  | (j, s) :: g' => if i =? j then Some s else group i g'
  end.

Section Matcher.
Variable A : Type.

(** Greedy repetition: take one more character when possible, and come
    back to the shorter repetition when the rest of the pattern fails. *)
Fixpoint star_bt (p : ascii -> bool) (k : nat -> str -> option A)
    (pos : nat) (s : str) : option A :=
  match s with
  | c :: t =>
      if p c then
        match star_bt p k (S pos) t with
        | Some x => Some x
        | None => k pos s
        end
      else k pos s
  | [] => k pos s
  end.

(** [bt r pos s g k]: match [r] at offset [pos], where [s] is the rest of
    the subject, then go on with [k]. *)
Fixpoint bt (r : regex) (pos : nat) (s : str) (g : caps)
    (k : nat -> str -> caps -> option A) : option A :=
  match r with
  | Eps => k pos s g
  | Bos => if pos =? 0 then k pos s g else None
  | Eos =>
      match s with
      | [] => k pos s g
      | [c] => if (c =? nl)%char then k pos s g else None
      | _ => None
      end
  | Cls p =>
      match s with
      | c :: t => if p c then k (S pos) t g else None
      | [] => None
      end
  | Seq a b => bt a pos s g (fun pos' s' g' => bt b pos' s' g' k)
  | Alt a b =>
      match bt a pos s g k with
      | Some x => Some x
      | None => bt b pos s g k
      end
  | Star p => star_bt p (fun pos' s' => k pos' s' g) pos s
  | Group i a =>
      bt a pos s g (fun pos' s' g' => k pos' s' ((i, firstn (pos' - pos) s) :: g'))
  end.

End Matcher.

(** A match: the offset of its end and its groups. *)
Definition mtch := (nat * caps)%type.

Definition match_at (r : regex) (pos : nat) (s : str) : option mtch :=
  bt r pos s [] (fun e _ g => Some (e, g)).

(** [re.match(r, s)] *)
Definition re_match (r : regex) (s : str) : option mtch := match_at r 0 s.

(** [r.fullmatch(s)] *)
Definition re_fullmatch (r : regex) (s : str) : option mtch :=
  bt r 0 s []
    (fun e s' g => match s' with [] => Some (e, g) | _ => None end).

(** [r.search(s)]: the first offset at which the pattern matches. *)
Fixpoint search_from (r : regex) (pos : nat) (s : str) : option mtch :=
  match match_at r pos s with
  | Some m => Some m
  | None =>
      match s with
      | [] => None
      | _ :: t => search_from r (S pos) t
      end
  end.
Definition re_search (r : regex) (s : str) : option mtch := search_from r 0 s.

(** [re.sub(r, repl, s)] for a pattern that matches no empty string (as all
    the patterns the program substitutes) and a replacement without group
    references.  [skip] counts the characters of the current match that are
    still to be dropped. *)
Fixpoint sub_from (r : regex) (repl : str) (skip pos : nat) (s : str) : str :=
  match s with
  | [] => []
  | c :: t =>
      match skip with
      | S j => sub_from r repl j (S pos) t
      | 0 =>
          match match_at r pos s with
          | Some (e, _) =>
              if pos <? e then repl ++ sub_from r repl (e - pos - 1) (S pos) t
              else c :: sub_from r repl 0 (S pos) t
          | None => c :: sub_from r repl 0 (S pos) t
          end
      end
  end.
Definition re_sub (r : regex) (repl : str) (s : str) : str :=
  sub_from r repl 0 0 s.

End Re.
Import Re.

(* ================================================================== *)
(** ** The parsed page (what the program uses of BeautifulSoup) *)

Module Bs4.

Inductive node : Type :=
| Text (s : str)                                        (* NavigableString *)
| Tag (name : str) (attrs : list (str * str)) (contents : list node).

(** The position of a node: the child indices from the root down to it. *)
Definition path := list nat.
(** An element of a page: where it is and what it is. *)
Definition elt := (path * node)%type.

Definition is_tag (n : node) : bool :=
  match n with Tag _ _ _ => true | Text _ => false end.

Definition name_in (names : list str) (n : node) : bool :=
  match n with
  | Tag nm _ _ => existsb (str_eqb nm) names
  | Text _ => false
  end.

(** [tag.get(k)]; the keys of an attribute list are distinct. *)
Fixpoint lookup_attr (k : str) (a : list (str * str)) : option str :=
  match a with
  | [] => None
  | (k', v) :: a' => if str_eqb k k' then Some v else lookup_attr k a'
  end.

Definition attr (k : str) (n : node) : option str :=
  match n with
  | Tag _ a _ => lookup_attr k a
  | Text _ => None
  end.

(** Equality of two attribute dictionaries. *)
Definition attrs_eqb (a b : list (str * str)) : bool :=
  let sub x y :=
    forallb (fun kv => match lookup_attr (fst kv) y with
                       | Some v => str_eqb v (snd kv)
                       | None => false
                       end) x in
  sub a b && sub b a.

(** [==] on page elements: same name, same attributes and the same contents,
    recursively ([Tag.__eq__]); strings compare by value. *)
Fixpoint node_eqb (a b : node) : bool :=
  match a, b with
  | Text s, Text t => str_eqb s t
  | Tag n1 a1 c1, Tag n2 a2 c2 =>
      str_eqb n1 n2 && attrs_eqb a1 a2
      && (fix all2 (l1 l2 : list node) : bool :=
            match l1, l2 with
            | [], [] => true
            | x :: l1', y :: l2' => node_eqb x y && all2 l1' l2'
            | _, _ => false
            end) c1 c2
  | _, _ => false
  end.

(** [n.descendants]: every node below [n], in document order. *)
Fixpoint descendants_at (p : path) (n : node) : list elt :=
  match n with
  | Text _ => []
  | Tag _ _ cs =>
      (fix kids (i : nat) (l : list node) : list elt :=
         match l with
         | [] => []
         | c :: l' =>
             (p ++ [i], c) :: descendants_at (p ++ [i]) c ++ kids (S i) l'
         end) 0 cs
  end.
Definition descendants (e : elt) : list elt := descendants_at (fst e) (snd e).

(** [e.find_all(...)]: the tags below [e] that satisfy [f]. *)
Definition find_all (f : node -> bool) (e : elt) : list elt :=
  filter (fun d => is_tag (snd d) && f (snd d)) (descendants e).

(** The strings below a node, in document order. *)
Definition all_strings (n : node) : list str :=
  flat_map (fun d => match snd d with Text s => [s] | Tag _ _ _ => [] end)
           (descendants_at [] n).

(** [n.get_text(separator, strip=True)]: every string is stripped, the
    empty ones are dropped, the rest is joined. *)
Definition get_text (separator : str) (n : node) : str :=
  join separator (filter nonempty (map strip (all_strings n))).

Definition path_eqb (p q : path) : bool :=
  if list_eq_dec Nat.eq_dec p q then true else false.

Fixpoint lookup (root : node) (p : path) : option node :=
  match p with
  | [] => Some root
  | i :: p' =>
      match root with
      | Tag _ _ cs =>
          match nth_error cs i with
          | Some c => lookup c p'
          | None => None
          end
      | Text _ => None
      end
  end.

(** The ancestors of the node at [p], the parent first. *)
Definition ancestors (root : node) (p : path) : list elt :=
  flat_map (fun k => match lookup root (firstn k p) with
                     | Some n => [(firstn k p, n)]
                     | None => []
                     end)
           (rev (seq 0 (length p))).

(** [e.parent] *)
Definition parent (root : node) (e : elt) : option elt :=
  hd_error (ancestors root (fst e)).

(** [e.find_parent(names)] *)
Definition find_parent (names : list str) (root : node) (e : elt) : option elt :=
  find (fun a => name_in names (snd a)) (ancestors root (fst e)).

Fixpoint after (p : path) (l : list elt) : list elt :=
  match l with
  | [] => []
  | d :: l' => if path_eqb (fst d) p then l' else after p l'
  end.

(** [e.next_elements]: everything that comes after the start of [e] in
    document order, the contents of [e] first. *)
Definition next_elements (root : node) (e : elt) : list elt :=
  match fst e with
  | [] => descendants_at [] root
  | _ => after (fst e) (descendants_at [] root)
  end.

(** [s.split()]: the words of a string. *)
Fixpoint words_from (cur : str) (s : str) : list str :=
  match s with
  | [] => match cur with [] => [] | _ => [rev cur] end
  | c :: t =>
      if isspace c
      then match cur with [] => words_from [] t | _ => rev cur :: words_from [] t end
      else words_from (c :: cur) t
  end.
Definition words (s : str) : list str := words_from [] s.

(** The simple selectors of a CSS selector list. *)
Inductive selector : Type :=
| SelType (name : str)      (* main *)
| SelClass (c : str)        (* .sqs-layout *)
| SelId (i : str).          (* #content *)

Definition sel_matches (n : node) (s : selector) : bool :=
  match s with
  | SelType nm => name_in [nm] n
  | SelClass c =>
      match attr (L "class") n with
      | Some v => existsb (str_eqb c) (words v)
      | None => false
      end
  | SelId i =>
      match attr (L "id") n with
      | Some v => str_eqb v i
      | None => false
      end
  end.

(** [e.select_one("s1, s2, ...")]: the first tag below [e], in document
    order, that one of the selectors matches. *)
Definition select_one (sels : list selector) (e : elt) : option elt :=
  hd_error (find_all (fun n => existsb (sel_matches n) sels) e).

End Bs4.
Import Bs4.

(* ================================================================== *)
(** ** The scraper *)

Definition NUMERIC_RANK : list (str * str) :=
  [ (L "Two", L "2"); (L "Three", L "3"); (L "Four", L "4");
    (L "Five", L "5"); (L "Six", L "6"); (L "Seven", L "7");
    (L "Eight", L "8"); (L "Nine", L "9"); (L "Ten", L "10") ].

Definition BASE : str := L "https://www.thismighthurttarot.com".

Definition PAGES : list (str * str) :=
  [ (L "Major Arcana", L "/majorarcana"); (L "Wands", L "/wands");
    (L "Cups", L "/cups"); (L "Swords", L "/swords");
    (L "Pentacles", L "/pentacles") ].

(** [d.get(k)] on a dictionary with string keys; [None] is the missing key. *)
Fixpoint dict_get (B : Type) (k : str) (d : list (str * B)) : option B :=
  match d with
  | [] => None
  | (k', v) :: d' => if str_eqb k k' then Some v else dict_get k d'
  end.

Definition is_some (B : Type) (o : option B) : bool :=
  match o with Some _ => true | None => false end.

Definition IMAGE_EXTS : list str :=
  [L ".jpg"; L ".jpeg"; L ".png"; L ".webp"; L ".gif"].

(** [s.endswith((".jpg", ".jpeg", ".png", ".webp", ".gif"))] *)
Definition endswith_any (sufs : list str) (s : str) : bool :=
  existsb (fun suf => endswith suf s) sufs.

(** A single or a double quote. *)
Definition quote_chr (c : ascii) : bool :=
  (c =? "039")%char || (c =? "034")%char.

(** The pattern of an inline background image, with [re.I]:
    [background-image], [\s*], a colon, [\s*], [url(], an optional quote,
    group 1 = one or more characters that are neither a closing
    parenthesis nor a quote, an optional quote, a closing parenthesis. *)
Definition CSS_BACKGROUND : regex :=
  Seq (lit true (L "background-image"))
 (Seq (Star isspace)
 (Seq (lit true (L ":"))
 (Seq (Star isspace)
 (Seq (lit true (L "url("))
 (Seq (opt quote_chr)
 (Seq (Group 1 (plus (fun c => negb ((c =? ")")%char || quote_chr c))))
 (Seq (opt quote_chr)
      (lit true (L ")"))))))))).

(** The values of the listed attributes of a tag that are present and not
    empty, in the order of the list. *)
Definition attr_values (names : list str) (n : node) : list str :=
  flat_map (fun a => match attr a n with
                     | Some v => if nonempty v then [v] else []
                     | None => []
                     end) names.

(** The first URL of every entry of a [srcset] attribute. *)
Definition srcset_urls (n : node) : list str :=
  match attr (L "srcset") n with
  | Some v =>
      flat_map (fun p => if nonempty (strip p)
                         then [hd [] (split " " (strip p))] else [])
               (split "," v)
  | None => []
  end.

Definition style_url (n : node) : list str :=
  let style := match attr (L "style") n with Some v => v | None => [] end in
  match re_search CSS_BACKGROUND style with
  | Some (_, g) => match group 1 g with Some u => [u] | None => [] end
  | None => []
  end.

Definition BAD_WORDS : list str :=
  [L "logo"; L "header"; L "favicon"; L "sprite"].

Definition RANK_WORDS : list str :=
  [ L "Ace"; L "Two"; L "Three"; L "Four"; L "Five"; L "Six"; L "Seven";
    L "Eight"; L "Nine"; L "Ten"; L "Page"; L "Knight"; L "Queen"; L "King" ].

Definition MAJOR_NAMES : list str :=
  [ L "The Fool"; L "The Magician"; L "The High Priestess"; L "The Empress";
    L "The Emperor"; L "The Hierophant"; L "The Lovers"; L "The Chariot";
    L "Strength"; L "The Hermit"; L "The Wheel of Fortune"; L "Justice";
    L "The Hanged Man"; L "Death"; L "Temperance"; L "The Devil";
    L "The Tower"; L "The Star"; L "The Moon"; L "The Sun"; L "Judgement";
    L "The World" ].

(** [(The Fool|The Magician|...|The World)] *)
Definition MAJORS (ci : bool) : regex := Group 1 (alts (map (lit ci) MAJOR_NAMES)).
(** [(Ace|Two|...|King)] *)
Definition RANKS (ci : bool) : regex := Group 1 (alts (map (lit ci) RANK_WORDS)).

(** [^(Ace|...|King)\s+of\s+(\w+)] with [re.I] *)
Definition RANK_OF_SUIT : regex :=
  Seq Bos
 (Seq (RANKS true)
 (Seq (plus isspace)
 (Seq (lit true (L "of"))
 (Seq (plus isspace)
      (Group 2 (plus isword)))))).

(** [^The\s+] with [re.I] *)
Definition LEADING_THE : regex := Seq Bos (Seq (lit true (L "The")) (plus isspace)).

Definition card_filename_tokens (title_text suit_arcana : str) : list str :=
  let title_ := strip title_text in
  let toks :=
    if str_eqb suit_arcana (L "Major Arcana") then
      let base := re_sub LEADING_THE [] title_ in
      [remove_char " " base; remove_char " " title_]
    else
      match re_match RANK_OF_SUIT title_ with
      | Some (_, g) =>
          match group 1 g, group 2 g with
          | Some g1, Some g2 =>
              let rank := title g1 in
              let suit := title g2 in
              (rank ++ L "Of" ++ suit)
                :: match dict_get rank NUMERIC_RANK with
                   | Some d => [d ++ L "of" ++ suit]
                   | None => []
                   end
          | _, _ => []
          end
      | None => []
      end in
  map lower toks.

(** [[ \t]+] *)
Definition hspace (c : ascii) : bool := (c =? " ")%char || (c =? tab)%char.
Definition is_nl (c : ascii) : bool := (c =? nl)%char.

Definition text_clean (s : str) : str :=
  strip (re_sub (Seq (plus isspace) (Cls is_nl)) [nl]
                (re_sub (plus hspace) (L " ") s)).

(** Python compares tuples lexicographically. *)
Definition triple_ltb (a b : Z * Z * Z) : bool :=
  let '(a1, a2, a3) := a in
  let '(b1, b2, b3) := b in
  ((a1 <? b1) || ((a1 =? b1) && ((a2 <? b2) || ((a2 =? b2) && (a3 <? b3)))))%Z.

Definition pair_ltb (a b : nat * nat) : bool :=
  (fst a <? fst b) || ((fst a =? fst b) && (snd a <? snd b)).

Section Sorting.
Variables (B K : Type) (ltb : K -> K -> bool) (key : B -> K).

(** Put [x], which stood before every element of [l], into the sorted [l]:
    behind the elements that must come first, before its equals. *)
Fixpoint insert_stable (reverse : bool) (x : B) (l : list B) : list B :=
  match l with
  | [] => [x]
  | y :: l' =>
      if (if reverse then ltb (key x) (key y) else ltb (key y) (key x))
      then y :: insert_stable reverse x l'
      else x :: l
  end.

(** [sorted(l, key=key, reverse=reverse)]: a stable sort. *)
Definition py_sorted (reverse : bool) (l : list B) : list B :=
  fold_right (insert_stable reverse) [] l.

End Sorting.

(** [l.index(x)] with the equality test [eqb x]. *)
Fixpoint index_of (B : Type) (f : B -> bool) (l : list B) : option nat :=
  match l with
  | [] => None
  | y :: l' => if f y then Some 0 else option_map S (index_of f l')
  end.

Definition SCORE_MARKERS : list str := [L "_forweb"; L "forweb"; L "/images/"].

(** The nested function [score] of [nearest_card_image_url]. *)
Definition score (tokens : list str) (title_idx : nat) (idx_url : nat * str)
  : Z * Z * Z :=
  let (idx, u) := idx_url in
  let ul := lower u in
  let sc := fold_left (fun sc t => if contains t ul then sc + 20 else sc)%Z tokens 0%Z in
  let sc := (if existsb (fun s => contains s ul) SCORE_MARKERS then sc + 2 else sc)%Z in
  let sc := (if endswith_any IMAGE_EXTS ul then sc + 1 else sc)%Z in
  let distance := Z.abs (Z.of_nat idx - Z.of_nat title_idx) in
  let before_bonus := if idx <? title_idx then 10%Z else 0%Z in
  (before_bonus, (- distance)%Z, sc).

(** The first occurrence of a URL keeps its index; later ones are dropped. *)
Definition add_candidate (idx : nat) (st : list str * list (nat * str)) (url : str)
  : list str * list (nat * str) :=
  let (seen, candidates) := st in
  if existsb (str_eqb url) seen then st
  else (url :: seen, candidates ++ [(idx, url)]).

(** [^RANKS\s+of\s+suit$] or [^MAJORS$], with [re.I] *)
Definition title_regex_for (suit_arcana : str) : regex :=
  if str_eqb suit_arcana (L "Major Arcana") then
    Seq Bos (Seq (MAJORS true) Eos)
  else
    Seq Bos
   (Seq (RANKS true)
   (Seq (plus isspace)
   (Seq (lit true (L "of"))
   (Seq (plus isspace)
   (Seq (lit true suit_arcana)
        Eos))))).

Definition looks_like_subtitle (txt : str) (title_pat : regex) : bool :=
  if negb (nonempty txt) then false
  else if is_some (re_search title_pat txt) then false
  else (3 <=? length txt) && (length txt <=? 60)
       && match txt with c :: _ => isupper c | [] => false end.

(** The loop of [collect_paragraphs] over the elements after its start. *)
Fixpoint collect_from (stop_pat : regex) (l : list elt) : list str :=
  match l with
  | [] => []
  | cur :: l' =>
      if is_tag (snd cur) then
        let txt := get_text (L " ") (snd cur) in
        if nonempty txt && is_some (re_search stop_pat txt) then []
        else if name_in [L "p"] (snd cur) then
          let t := get_text (L " ") (snd cur) in
          if nonempty t then t :: collect_from stop_pat l'
          else collect_from stop_pat l'
        else collect_from stop_pat l'
      else collect_from stop_pat l'
  end.

Definition collect_paragraphs (soup : node) (start_node : elt) (stop_pat : regex)
  : list str :=
  collect_from stop_pat (next_elements soup start_node).

Record CardRecord : Type := mkCard {
  suit_arcana : str;
  card : str;
  subtitle : str;
  description : str;
  image_url : str;
  page_url : str
}.

(** What the program does besides computing: lines printed and the pause. *)
Inductive event : Type :=
| EPrint (line : str)
| ESleep.

(** An exception, by its message. *)
Definition exn := str.

Definition TITLE_TAGS : list str :=
  [L "a"; L "h1"; L "h2"; L "h3"; L "h4"; L "strong"; L "div"].

(** ["main, article, .sqs-layout, #content, #page, body"] *)
Definition CONTENT_SELECTOR : list selector :=
  [ SelType (L "main"); SelType (L "article"); SelClass (L "sqs-layout");
    SelId (L "content"); SelId (L "page"); SelType (L "body") ].

(** The element the scan of a page starts from. *)
Definition content_of (soup : node) : elt :=
  match select_one CONTENT_SELECTOR ([], soup) with
  | Some c => c
  | None => ([], soup)
  end.

Definition is_title (title_pat : regex) (n : node) : bool :=
  let txt := get_text (L " ") n in
  nonempty txt && is_some (re_fullmatch title_pat txt).

(** The first loop of [parse_card_page]: the deepest elements whose text is
    a title. *)
Definition title_nodes (title_pat : regex) (soup : node) : list elt :=
  filter (fun el =>
            is_title title_pat (snd el)
            && negb (existsb (fun child => is_title title_pat (snd child))
                             (find_all (fun _ => true) el)))
         (find_all (name_in TITLE_TAGS) (content_of soup)).

(** [title_el.find_next(string=lambda s: ... and s.strip())] *)
Definition next_text (soup : node) (title_el : elt) : option str :=
  match find (fun d => match snd d with
                       | Text s => nonempty (strip s)
                       | Tag _ _ _ => false
                       end) (next_elements soup title_el) with
  | Some (_, Text s) => Some s
  | _ => None
  end.

Definition subtitle_of (soup : node) (title_el : elt) (title_pat : regex) : str :=
  match next_text soup title_el with
  | Some s =>
      let cand := strip s in
      if looks_like_subtitle cand title_pat then cand else []
  | None => []
  end.

Definition order_key : list (str * nat) :=
  [ (L "Major Arcana", 0); (L "Wands", 1); (L "Cups", 2); (L "Swords", 3);
    (L "Pentacles", 4) ].

Definition num_map : list (str * nat) :=
  [ (L "Ace", 1); (L "Two", 2); (L "Three", 3); (L "Four", 4); (L "Five", 5);
    (L "Six", 6); (L "Seven", 7); (L "Eight", 8); (L "Nine", 9); (L "Ten", 10);
    (L "Page", 11); (L "Knight", 12); (L "Queen", 13); (L "King", 14) ].

(** The nested function [sort_key] of [main]; [None] is the [KeyError] of
    [order_key[s]]. *)
Definition sort_key (r : CardRecord) : option (nat * nat) :=
  let s := suit_arcana r in
  let n := card r in
  match dict_get s order_key with
  | None => None
  | Some o =>
      if str_eqb s (L "Major Arcana") then Some (o, 0)
      else
        Some (o,
              match re_match (Seq Bos (RANKS false)) n with
              | Some (_, g) =>
                  match group 1 g with
                  | Some w => match dict_get w num_map with
                              | Some v => v
                              | None => 99
                              end
                  | None => 99
                  end
              | None => 99
              end)
  end.

(** All the keys, or [None] when one of them raises. *)
Fixpoint all_keys (rows : list CardRecord) : option (list (nat * nat)) :=
  match rows with
  | [] => Some []
  | r :: rows' =>
      match sort_key r, all_keys rows' with
      | Some k, Some ks => Some (k :: ks)
      | _, _ => None
      end
  end.

(** [rows.sort(key=sort_key)]: the keys are computed first, then the rows
    are sorted on them, stably. *)
Definition sort_rows (rows : list CardRecord) : option (list CardRecord) :=
  match all_keys rows with
  | Some ks =>
      Some (map snd (py_sorted pair_ltb fst false (combine ks rows)))
  | None => None
  end.

Section Scraper.

(** [urllib.parse.urljoin], here for the URLs on which it returns; the
    module [Raising] below has the functions of this section for a
    [urljoin] that raises. *)
Variable urljoin : str -> str -> str.
(** [get_soup]: the parsed page, or the exception of the fetch. *)
Variable get_soup : str -> exn + node.
(** [BeautifulSoup(ns.decode_contents(), "lxml")] for the contents of a
    [<noscript>]; [None] when it raises. *)
Variable noscript_soup : list node -> option node.

(** The first half of [_extract_img_url_from]: the list [urls]. *)
Definition harvest_urls (el : elt) : list str :=
  flat_map (fun a => match attr (L "href") (snd a) with
                     | Some v => [v]
                     | None => []
                     end)
           (find_all (fun n => name_in [L "a"] n && is_some (attr (L "href") n)) el)
  ++ flat_map (fun img =>
                 attr_values [L "data-src"; L "data-image"; L "src"] (snd img)
                 ++ srcset_urls (snd img))
              (find_all (name_in [L "img"]) el)
  ++ flat_map (fun n => style_url (snd n)) (find_all (fun _ => true) el)
  ++ flat_map (fun ns =>
                 match snd ns with
                 | Tag _ _ cs =>
                     match noscript_soup cs with
                     | Some ns_soup =>
                         flat_map (fun img =>
                                     attr_values [L "src"; L "data-src"; L "data-image"]
                                                 (snd img))
                                  (find_all (name_in [L "img"]) ([], ns_soup))
                     | None => []
                     end
                 | Text _ => []
                 end)
              (find_all (name_in [L "noscript"]) el).

(** The second half: one raw URL gives at most one cleaned URL. *)
Definition clean_url (u : str) : list str :=
  if negb (nonempty u) then []
  else
    let base_u := hd [] (split "?" u) in
    let low := lower base_u in
    if existsb (fun bad => contains bad low) BAD_WORDS then []
    else if endswith_any IMAGE_EXTS low || contains (L "/images/") low
         then [urljoin BASE base_u]
         else [].

Definition _extract_img_url_from (el : elt) : list str :=
  flat_map clean_url (harvest_urls el).

(** The container the search for an image is bounded by. *)
Definition boundary_of (soup : node) (title_el : elt) : elt :=
  match find_parent [L "section"; L "article"; L "main"] soup title_el with
  | Some b => b
  | None => match parent soup title_el with
            | Some b => b
            | None => ([], soup)
            end
  end.

(** [nodes]: the tags of the container in document order. *)
Definition region_nodes (soup : node) (title_el : elt) : list elt :=
  filter (fun n => is_tag (snd n)) (descendants (boundary_of soup title_el)).

(** [title_idx] *)
Definition title_index (soup : node) (title_el : elt) : nat :=
  let nodes := region_nodes soup title_el in
  match index_of (fun n => node_eqb (snd n) (snd title_el)) nodes with
  | Some i => i
  | None => length nodes / 2
  end.

(** [candidates] *)
Definition candidates_of (soup : node) (title_el : elt) : list (nat * str) :=
  let nodes := region_nodes soup title_el in
  snd (fold_left
         (fun st idx_n =>
            fold_left (add_candidate (fst idx_n))
                      (_extract_img_url_from (snd idx_n)) st)
         (combine (seq 0 (length nodes)) nodes)
         ([], [])).

Definition nearest_card_image_url (soup : node) (title_el : elt)
    (title_text suit_arcana : str) : option str :=
  let title_idx := title_index soup title_el in
  let candidates := candidates_of soup title_el in
  match candidates with
  | [] => None
  | _ =>
      let tokens := card_filename_tokens title_text suit_arcana in
      match py_sorted triple_ltb (score tokens title_idx) true candidates with
      | best :: _ => Some (snd best)
      | [] => None
      end
  end.

(** The body of the second loop of [parse_card_page]. *)
Definition card_of (suit_arcana url : str) (soup : node) (title_pat : regex)
    (title_el : elt) : CardRecord :=
  let title_text := re_sub (plus isspace) (L " ") (get_text (L " ") (snd title_el)) in
  let subtitle := subtitle_of soup title_el title_pat in
  let desc_parts := collect_paragraphs soup title_el title_pat in
  let description := text_clean (join [nl; nl] desc_parts) in
  let img_url := match nearest_card_image_url soup title_el title_text suit_arcana with
                 | Some u => if nonempty u then u else []
                 | None => []
                 end in
  mkCard suit_arcana title_text subtitle description img_url url.

Definition no_cards_warning (url : str) : str :=
  L "[warn] No cards parsed on " ++ url
    ++ L " – site structure may have changed.".

Definition parse_card_page (suit_arcana url_path : str)
  : list event * (exn + list CardRecord) :=
  let url := urljoin BASE url_path in
  match get_soup url with
  | inl e => ([], inl e)
  | inr soup =>
      let title_pat := title_regex_for suit_arcana in
      let results :=
        map (card_of suit_arcana url soup title_pat) (title_nodes title_pat soup) in
      ((match results with
        | [] => [EPrint (no_cards_warning url)]
        | _ => []
        end) ++ [ESleep],
       inr results)
  end.

(** The first loop of [main]: a section that fails is reported and skipped. *)
Definition scrape_section (acc : list event * list CardRecord) (page : str * str)
  : list event * list CardRecord :=
  let (suit, path_) := page in
  let (ev, rows) := acc in
  let ev := ev ++ [EPrint (L "Scraping " ++ suit ++ L " … " ++ path_)] in
  match parse_card_page suit path_ with
  | (ev', inr rs) => (ev ++ ev', rows ++ rs)
  | (ev', inl e) => (ev ++ ev' ++ [EPrint (L "[error] " ++ suit ++ L ": " ++ e)], rows)
  end.

Definition scrape_all : list event * list CardRecord :=
  fold_left scrape_section PAGES ([], []).

(** The rows of [main] after [rows.sort(key=sort_key)]. *)
Definition main_rows : option (list CardRecord) := sort_rows (snd scrape_all).

End Scraper.

Unset Implicit Arguments.

(* ================================================================== *)
(** ** The helper [is_image_href] and the file of a download *)

(** [is_image_href]; [None] is the missing [href]. *)
Definition is_image_href (href : option str) : bool :=
  match href with
  | None => false
  | Some h =>
      if negb (nonempty h) then false
      else
        let h := hd [] (split "?" h) in
        endswith_any IMAGE_EXTS (lower h) || contains (L "/images/") h
  end.

(** The class [[a-zA-Z0-9_-]]. *)
Definition name_char (c : ascii) : bool :=
  islower c || isupper c || isdigit c || (c =? "_")%char || (c =? "-")%char.

(** [s.lstrip(a)] and [s.strip(a)] for one character [a]. *)
Fixpoint lstrip_chr (a : ascii) (s : str) : str :=
  match s with
  | c :: t => if (c =? a)%char then lstrip_chr a t else s
  | [] => []
  end.
Definition strip_chr (a : ascii) (s : str) : str :=
  rev (lstrip_chr a (rev (lstrip_chr a s))).

(** [s.rfind(c)]: the last index of [c] in [s], [-1] when there is none. *)
Fixpoint rfind (c : ascii) (s : str) : Z :=
  match s with
  | [] => (-1)%Z
  | x :: t =>
      let r := rfind c t in
      if (0 <=? r)%Z then (r + 1)%Z
      else if (x =? c)%char then 0%Z else (-1)%Z
  end.

(** [os.path.splitext(p)[1]] of [posixpath]: the extension starts at the
    last dot, when that dot comes after the last slash and after a
    character of the file name that is no dot. *)
Definition splitext_ext (p : str) : str :=
  let sepIndex := rfind "/" p in
  let dotIndex := rfind "." p in
  if (sepIndex <? dotIndex)%Z then
    let filename :=
      firstn (Z.to_nat (dotIndex - (sepIndex + 1))) (skipn (Z.to_nat (sepIndex + 1)) p) in
    if existsb (fun c => negb (c =? ".")%char) filename
    then skipn (Z.to_nat dotIndex) p
    else []
  else [].

(** [os.path.join(a, b)] of [posixpath]. *)
Definition path_join (a b : str) : str :=
  if startswith (L "/") b then b
  else if negb (nonempty a) || endswith (L "/") a then a ++ b
  else a ++ L "/" ++ b.

Definition IMG_DIR : str := L "images".

(** The [base], the [ext] and the [path] of [download_image]. *)
Definition download_base (filename_hint : str) : str :=
  strip_chr "_" (re_sub (plus (fun c => negb (name_char c))) (L "_") filename_hint).

Definition download_ext (url : str) : str :=
  let ext := splitext_ext (hd [] (split "?" url)) in
  if (6 <? length ext) || negb (nonempty ext) then L ".jpg" else ext.

Definition download_path (url out_dir filename_hint : str) : str :=
  path_join out_dir (download_base filename_hint ++ download_ext url).

(** The last loop of [main]: the URL and the file of every download. *)
Definition downloads (rows : list CardRecord) : list (str * str) :=
  flat_map (fun r =>
              if nonempty (image_url r)
              then [(image_url r,
                     download_path (image_url r) IMG_DIR
                                   (suit_arcana r ++ L "_" ++ card r))]
              else [])
           rows.

(* ================================================================== *)
(** ** The scraper when [urljoin] raises *)

(** [urllib.parse.urljoin] raises [ValueError] on some URLs, and nothing
    between the call in [_extract_img_url_from] and [main] catches it.  The
    functions of this module are those of the scraper above with a
    [urljoin] that returns its result or the exception; an exception ends
    the loops it is raised in and is passed on, as [bind] does. *)
Module Raising.

Definition bind {A B : Type} (m : exn + A) (f : A -> exn + B) : exn + B :=
  match m with
  | inl e => inl e
  | inr a => f a
  end.

(** A loop that builds a list, left at the first exception. *)
Fixpoint mapM {A B : Type} (f : A -> exn + B) (l : list A) : exn + list B :=
  match l with
  | [] => inr []
  | x :: l' => bind (f x) (fun y => bind (mapM f l') (fun ys => inr (y :: ys)))
  end.

Section Scraper.

Variable urljoin : str -> str -> exn + str.
Variable get_soup : str -> exn + node.
Variable noscript_soup : list node -> option node.

(** The second half of [_extract_img_url_from], for one raw URL. *)
Definition clean_url (u : str) : exn + list str :=
  if negb (nonempty u) then inr []
  else
    let base_u := hd [] (split "?" u) in
    let low := lower base_u in
    if existsb (fun bad => contains bad low) BAD_WORDS then inr []
    else if endswith_any IMAGE_EXTS low || contains (L "/images/") low
         then bind (urljoin BASE base_u) (fun v => inr [v])
         else inr [].

Definition _extract_img_url_from (el : elt) : exn + list str :=
  bind (mapM clean_url (harvest_urls noscript_soup el)) (fun ls => inr (concat ls)).

(** [candidates] *)
Definition candidates_of (soup : node) (title_el : elt) : exn + list (nat * str) :=
  let nodes := region_nodes soup title_el in
  bind (fold_left
          (fun st idx_n =>
             bind st (fun st' =>
             bind (_extract_img_url_from (snd idx_n)) (fun urls =>
             inr (fold_left (add_candidate (fst idx_n)) urls st'))))
          (combine (seq 0 (length nodes)) nodes)
          (inr ([], [])))
       (fun st => inr (snd st)).

Definition nearest_card_image_url (soup : node) (title_el : elt)
    (title_text suit_arcana : str) : exn + option str :=
  let title_idx := title_index soup title_el in
  bind (candidates_of soup title_el) (fun candidates =>
  inr (match candidates with
       | [] => None
       | _ =>
           let tokens := card_filename_tokens title_text suit_arcana in
           match py_sorted triple_ltb (score tokens title_idx) true candidates with
           | best :: _ => Some (snd best)
           | [] => None
           end
       end)).

(** The body of the second loop of [parse_card_page]. *)
Definition card_of (suit_arcana url : str) (soup : node) (title_pat : regex)
    (title_el : elt) : exn + CardRecord :=
  let title_text := re_sub (plus isspace) (L " ") (get_text (L " ") (snd title_el)) in
  let subtitle := subtitle_of soup title_el title_pat in
  let desc_parts := collect_paragraphs soup title_el title_pat in
  let description := text_clean (join [nl; nl] desc_parts) in
  bind (nearest_card_image_url soup title_el title_text suit_arcana) (fun found =>
  let img_url := match found with
                 | Some u => if nonempty u then u else []
                 | None => []
                 end in
  inr (mkCard suit_arcana title_text subtitle description img_url url)).

(** An exception leaves the function before the warning and the pause. *)
Definition parse_card_page (suit_arcana url_path : str)
  : list event * (exn + list CardRecord) :=
  match urljoin BASE url_path with
  | inl e => ([], inl e)
  | inr url =>
      match get_soup url with
      | inl e => ([], inl e)
      | inr soup =>
          let title_pat := title_regex_for suit_arcana in
          match mapM (card_of suit_arcana url soup title_pat)
                     (title_nodes title_pat soup) with
          | inl e => ([], inl e)
          | inr results =>
              ((match results with
                | [] => [EPrint (no_cards_warning url)]
                | _ => []
                end) ++ [ESleep],
               inr results)
          end
      end
  end.

(** The first loop of [main]: a section that fails is reported and skipped. *)
Definition scrape_section (acc : list event * list CardRecord) (page : str * str)
  : list event * list CardRecord :=
  let (suit, path_) := page in
  let (ev, rows) := acc in
  let ev := ev ++ [EPrint (L "Scraping " ++ suit ++ L " … " ++ path_)] in
  match parse_card_page suit path_ with
  | (ev', inr rs) => (ev ++ ev', rows ++ rs)
  | (ev', inl e) => (ev ++ ev' ++ [EPrint (L "[error] " ++ suit ++ L ": " ++ e)], rows)
  end.

Definition scrape_all : list event * list CardRecord :=
  fold_left scrape_section PAGES ([], []).

End Scraper.

End Raising.

(* ================================================================== *)
(** ** Notions used to state and prove the properties *)

(** *** Runs of characters and the two substitutions of [text_clean] *)

(** The length of the longest prefix of [s] made of characters of [p]. *)
Fixpoint run (p : ascii -> bool) (s : str) : nat :=
  match s with
  | c :: t => if p c then S (run p t) else 0
  | [] => 0
  end.

(** Where the greedy [\s*] before a newline stops: the number of characters
    up to and including the last newline of the white space [s] begins with,
    if there is one. *)
Fixpoint last_nl (s : str) : option nat :=
  match s with
  | c :: t =>
      if isspace c then
        match last_nl t with
        | Some j => Some (S j)
        | None => if is_nl c then Some 1 else None
        end
      else None
  | [] => None
  end.

(** [\s+\n] *)
Definition WS_NL : regex := Seq (plus isspace) (Cls is_nl).

(** The inner and the outer substitution of [text_clean]. *)
Definition sub_hspace (s : str) : str := re_sub (plus hspace) (L " ") s.
Definition sub_ws_nl (s : str) : str := re_sub WS_NL [nl] s.

(** [text_clean] without its final [strip]. *)
Definition clean_core (s : str) : str := sub_ws_nl (sub_hspace s).

(** The title text of a record: [re.sub(r"\s+", " ", .)]. *)
Definition collapse (s : str) : str := re_sub (plus isspace) (L " ") s.

(** The first character of [s] is in [p]. *)
Definition hd_is (p : ascii -> bool) (s : str) : bool :=
  match s with c :: _ => p c | [] => false end.

(** No tab, and no space next to a space: what [[ \t]+ -> " "] produces and
    leaves alone. *)
Fixpoint hs_norm (s : str) : bool :=
  match s with
  | [] => true
  | c :: t =>
      (if hspace c then (c =? " ")%char && negb (hd_is hspace t) else true)
      && hs_norm t
  end.

(** No white space right before a newline: what [\s+\n -> \n] produces and
    leaves alone. *)
Fixpoint nl_norm (s : str) : bool :=
  match s with
  | [] => true
  | c :: t => negb (isspace c && hd_is is_nl t) && nl_norm t
  end.

(** Only single spaces as white space: what [\s+ -> " "] leaves alone. *)
Fixpoint ws_norm (s : str) : bool :=
  match s with
  | [] => true
  | c :: t =>
      (if isspace c then (c =? " ")%char && negb (hd_is isspace t) else true)
      && ws_norm t
  end.

(** A string that is not empty and neither begins nor ends with white
    space, as the text of a paragraph is. *)
Definition edge_ok (s : str) : bool :=
  nonempty s && negb (hd_is isspace s) && negb (hd_is isspace (rev s)).

(** A string without white space. *)
Definition visible (s : str) : bool := forallb (fun c => negb (isspace c)) s.

(** A non-empty string of white space. *)
Definition blank (w : str) : Prop := w <> [] /\ forallb isspace w = true.

(** *** What a pattern matches *)

(** [den r pos s pos' s'] holds when [r] can consume the characters between
    [s] and its suffix [s'], from offset [pos] to offset [pos']. *)
Fixpoint den (r : regex) (pos : nat) (s : str) (pos' : nat) (s' : str) : Prop :=
  match r with
  | Eps => pos' = pos /\ s' = s
  | Bos => pos = 0 /\ pos' = pos /\ s' = s
  | Eos => (s = [] \/ s = [nl]) /\ pos' = pos /\ s' = s
  | Cls p => exists c, s = c :: s' /\ p c = true /\ pos' = S pos
  | Seq a b => exists pos1 s1, den a pos s pos1 s1 /\ den b pos1 s1 pos' s'
  | Alt a b => den a pos s pos' s' \/ den b pos s pos' s'
  | Star p => exists u, s = u ++ s' /\ forallb p u = true /\ pos' = pos + length u
  | Group _ a => den a pos s pos' s'
  end.

(** [u] is the literal [w], up to case when [ci] is set. *)
Definition ci_match (ci : bool) (u w : str) : Prop :=
  Forall2 (fun c a => chr ci a c = true) u w.

(** The strings [^RANKS\s+of\s+suit$] matches in full. *)
Definition suit_title_shape (suit txt : str) : Prop :=
  exists r w1 o w2 su rank,
    txt = r ++ w1 ++ o ++ w2 ++ su
    /\ In rank RANK_WORDS /\ ci_match true r rank
    /\ blank w1 /\ ci_match true o (L "of")
    /\ blank w2 /\ ci_match true su suit.

(** *** The resolver and the sort *)

(** The invariant of the harvest: [seen] holds the URLs of the candidates,
    and no URL occurs twice among them. *)
Definition cand_inv (st : list str * list (nat * str)) : Prop :=
  (forall u, In u (fst st) <-> In u (map snd (snd st))) /\ NoDup (map snd (snd st)).

(** The URL contains one of the filename tokens ([t in ul] for some [t]). *)
Definition has_token (tokens : list str) (u : str) : bool :=
  existsb (fun t => contains t (lower u)) tokens.

Definition is_major (r : CardRecord) : bool := str_eqb (suit_arcana r) (L "Major Arcana").

(** The key of [a] is not greater than the key of [b]. *)
Definition key_le (a b : CardRecord) : Prop :=
  exists ka kb, sort_key a = Some ka /\ sort_key b = Some kb /\ pair_ltb kb ka = false.

(** *** The subtitle *)

(** The strings that come after the start of an element in document order;
    the strings of the element itself are the first of them. *)
Definition following_texts (soup : node) (e : elt) : list str :=
  flat_map (fun d => match snd d with Text s => [s] | Tag _ _ _ => [] end)
           (next_elements soup e).

(** A string of white space only, which the search for the next string
    skips. *)
Definition is_blank (s : str) : Prop := strip s = [].

(** The subtitle heuristic, as a proposition. *)
Definition passes_subtitle_heuristic (txt : str) (title_pat : regex) : Prop :=
  txt <> []
  /\ re_search title_pat txt = None
  /\ 3 <= length txt <= 60
  /\ exists c t, txt = c :: t /\ isupper c = true.

(** The subtitle [sub] is decided by the first string after the title that is
    not blank: it is that string, stripped, exactly when the heuristic
    accepts it, and it is empty otherwise and when no such string exists. *)
Definition subtitle_rule (soup : node) (title_pat : regex) (title_el : elt) (sub : str)
  : Prop :=
  let texts := following_texts soup title_el in
  (forall blanks s rest,
      texts = blanks ++ s :: rest -> Forall is_blank blanks -> strip s <> [] ->
      (sub = strip s <-> passes_subtitle_heuristic (strip s) title_pat)
      /\ (~ passes_subtitle_heuristic (strip s) title_pat -> sub = []))
  /\ (Forall is_blank texts -> sub = []).

(** *** The order of the page *)

(** The descendants contributed by the children [l] of the node at [p], the
    first of which has index [i]. *)
Fixpoint kids_at (p : path) (i : nat) (l : list node) : list elt :=
  match l with
  | [] => []
  | c :: l' => (p ++ [i], c) :: descendants_at (p ++ [i]) c ++ kids_at p (S i) l'
  end.

(** The strings among some elements. *)
Definition texts_of (l : list elt) : list str :=
  flat_map (fun d => match snd d with Text s => [s] | Tag _ _ _ => [] end) l.

(** Bring a concatenation to its right-nested form. *)
Ltac norm_app := repeat (rewrite <- app_assoc || rewrite <- app_comm_cons).

(* ================================================================== *)
(** ** Sample pages *)

(** A stand-in for [urljoin] that is right on the references the sample pages
    use: root-relative ones and absolute ones. *)
Definition sample_urljoin (base u : str) : str :=
  if startswith (L "/") u then base ++ u else u.

(** No [<noscript>] content is re-parsed on the sample pages. *)
Definition sample_noscript (cs : list node) : option node := None.

Definition tag (name : string) (cs : list node) : node := Tag (L name) [] cs.
Definition img (src : string) : node := Tag (L "img") [(L "src", L src)] [].
Definition page (cs : list node) : node :=
  tag "[document]" [tag "html" [tag "body" [tag "main" cs]]].

(** Two cards, each with its picture in a block before the title. *)
Definition wands_page : node :=
  page [ tag "div" [img "/images/AceOfWands_forWeb.jpg"];
         tag "h2" [Text (L "Ace of Wands")];
         tag "p" [Text (L "Creation")];
         tag "p" [Text (L "First  para.")];
         Text (L "  ");
         tag "p" [Text (L "Second para.")];
         tag "div" [img "/images/2ofWands.jpg?x=1"];
         tag "h2" [Text (L "Two of Wands")];
         tag "p" [Text (L "Planning.")] ].

Definition ace_title : elt := ([0; 0; 0; 1], tag "h2" [Text (L "Ace of Wands")]).
Definition two_title : elt := ([0; 0; 0; 7], tag "h2" [Text (L "Two of Wands")]).

Definition sample_get_soup (url : str) : exn + node := inr wands_page.

(** A page without any card title. *)
Definition empty_page : node := page [tag "p" [Text (L "Coming soon")]].
Definition empty_get_soup (url : str) : exn + node := inr empty_page.

(** One picture two tags before the title and one two tags after it; only
    the one after the title is named after the card. *)
Definition equidistant_page : node :=
  page [ tag "div" [img "/images/card_front.jpg"];
         tag "h2" [Text (L "Ace of Wands")];
         tag "p" [Text (L "Creation")];
         tag "div" [img "/images/AceOfWands.jpg"] ].

(** Two pictures in one block before the title. *)
Definition paired_page : node :=
  page [ tag "div" [img "/images/card_front.jpg"; img "/images/AceOfWands.jpg"];
         tag "h2" [Text (L "Ace of Wands")] ].

(** A block with a piece of site chrome and a card picture. *)
Definition chrome_block : elt :=
  ([], tag "div" [img "https://cdn.site/logo_small.png";
                  img "https://cdn.site/images/AceOfWands_forWeb.jpg"]).

Definition king_of_wands : CardRecord := mkCard (L "Wands") (L "King of Wands") [] [] [] [].
Definition ace_of_wands : CardRecord := mkCard (L "Wands") (L "Ace of Wands") [] [] [] [].
Definition the_fool : CardRecord := mkCard (L "Major Arcana") (L "The Fool") [] [] [] [].

(** C6 as it is stated: of two candidates at the same distance from the
    title, the one whose URL contains a token is returned. *)
Definition equidistant_token_rule (urljoin : str -> str -> str)
    (noscript_soup : list node -> option node)
    (soup : node) (title_el : elt) (title_text suit : str) : Prop :=
  let candidates := candidates_of urljoin noscript_soup soup title_el in
  let T := title_index soup title_el in
  let tokens := card_filename_tokens title_text suit in
  forall c1 c2,
    (candidates = [c1; c2] \/ candidates = [c2; c1]) ->
    Z.abs (Z.of_nat (fst c1) - Z.of_nat T) = Z.abs (Z.of_nat (fst c2) - Z.of_nat T) ->
    has_token tokens (snd c1) = true ->
    has_token tokens (snd c2) = false ->
    nearest_card_image_url urljoin noscript_soup soup title_el title_text suit
    = Some (snd c1).

Definition named_candidate : nat * str :=
  (4, L "https://www.thismighthurttarot.com/images/AceOfWands.jpg").
Definition unnamed_candidate : nat * str :=
  (0, L "https://www.thismighthurttarot.com/images/card_front.jpg").
Definition paired_named : nat * str :=
  (0, L "https://www.thismighthurttarot.com/images/AceOfWands.jpg").

(* ================================================================== *)
(** ** Notions for the further properties *)

(** A character that is no white space. *)
Definition is_visible (c : ascii) : bool := negb (isspace c).

(** Two strings that differ in letter case at most. *)
Definition ci_equiv (u w : str) : Prop := lower u = lower w.

(** A pattern whose character classes do not look at the letter case, as
    every pattern compiled with [re.I] here. *)
Fixpoint case_blind (r : regex) : Prop :=
  match r with
  | Eps | Bos | Eos => True
  | Cls p | Star p => forall c, p (lower_char c) = p c
  | Seq a b | Alt a b => case_blind a /\ case_blind b
  | Group _ a => case_blind a
  end.

(** The same groups, captured from strings that differ in case at most. *)
Definition caps_equiv (g1 g2 : caps) : Prop :=
  Forall2 (fun a b => fst a = fst b /\ ci_equiv (snd a) (snd b)) g1 g2.

(** Two outcomes that fail together or succeed with related results. *)
Definition opt_rel (A B : Type) (R : A -> B -> Prop) (o1 : option A) (o2 : option B)
  : Prop :=
  match o1, o2 with
  | None, None => True
  | Some x, Some y => R x y
  | _, _ => False
  end.

(** The titles of a section as the site spells them. *)
Definition canonical_titles (suit : str) : list str :=
  if str_eqb suit (L "Major Arcana") then MAJOR_NAMES
  else map (fun rank => rank ++ L " of " ++ suit) RANK_WORDS.

(** The tokens the source builds for a rank and a suit: [{rank}Of{suit}]
    and, for a rank of [NUMERIC_RANK], [{digit}of{suit}], in lower case. *)
Definition suit_tokens (rank suit : str) : list str :=
  lower (rank ++ L "Of" ++ suit)
    :: match dict_get rank NUMERIC_RANK with
       | Some d => [lower (d ++ L "of" ++ suit)]
       | None => []
       end.

Definition strs_eqb (a b : list str) : bool :=
  if list_eq_dec (list_eq_dec ascii_dec) a b then true else false.

(** What the harvest loop of [nearest_card_image_url] has established once
    the tags [done] are processed: the bookkeeping of [seen] is right, every
    candidate carries the index of the first tag that yields its URL, every
    URL the tags yield is a candidate, and the indices do not decrease. *)
Definition harvest_inv (extract : elt -> list str) (done : list elt)
    (st : list str * list (nat * str)) : Prop :=
  cand_inv st
  /\ (forall i u, In (i, u) (snd st) ->
        exists n, nth_error done i = Some n /\ In u (extract n)
                  /\ forall j n', j < i -> nth_error done j = Some n' -> ~ In u (extract n'))
  /\ (forall n u, In n done -> In u (extract n) -> In u (map snd (snd st)))
  /\ StronglySorted (fun a b => fst a <= fst b) (snd st)
  /\ (forall c, In c (snd st) -> fst c < length done).

(** A picture right beside the title, not wrapped in any element. *)
Definition flat_page : node :=
  page [ img "/images/AceOfWands.jpg"; tag "h2" [Text (L "Ace of Wands")] ].
Definition flat_title : elt := ([0; 0; 0; 1], tag "h2" [Text (L "Ace of Wands")]).

(** The attribute names of every tag of the tree are distinct, as the keys
    of the dictionary [tag.attrs] are. *)
Fixpoint distinct_keys (n : node) : Prop :=
  match n with
  | Text _ => True
  | Tag _ a cs =>
      NoDup (map fst a)
      /\ (fix all (l : list node) : Prop :=
            match l with
            | [] => True
            | c :: l' => distinct_keys c /\ all l'
            end) cs
  end.

(** A pattern that ends in [$]. *)
Fixpoint ends_eos (r : regex) : Prop :=
  match r with
  | Eos => True
  | Seq _ b => ends_eos b
  | _ => False
  end.

(** The test that ends the loop of [collect_paragraphs] at a tag. *)
Definition stops (stop_pat : regex) (n : node) : bool :=
  let txt := get_text (L " ") n in
  nonempty txt && is_some (re_search stop_pat txt).

(** What one section adds to the rows of [main], and to what it prints and
    waits for. *)
Definition section_rows (urljoin : str -> str -> str) (get_soup : str -> exn + node)
    (noscript_soup : list node -> option node) (page : str * str) : list CardRecord :=
  match snd (parse_card_page urljoin get_soup noscript_soup (fst page) (snd page)) with
  | inr rs => rs
  | inl _ => []
  end.

Definition section_events (urljoin : str -> str -> str) (get_soup : str -> exn + node)
    (noscript_soup : list node -> option node) (page : str * str) : list event :=
  EPrint (L "Scraping " ++ fst page ++ L " … " ++ snd page)
  :: fst (parse_card_page urljoin get_soup noscript_soup (fst page) (snd page))
  ++ match snd (parse_card_page urljoin get_soup noscript_soup (fst page) (snd page)) with
     | inl e => [EPrint (L "[error] " ++ fst page ++ L ": " ++ e)]
     | inr _ => []
     end.

Definition is_sleep (e : event) : bool :=
  match e with ESleep => true | EPrint _ => false end.

(** The same for a [urljoin] that can raise, and whether the section came
    to its end. *)
Definition raising_section_rows (urljoin : str -> str -> exn + str)
    (get_soup : str -> exn + node) (noscript_soup : list node -> option node)
    (page : str * str) : list CardRecord :=
  match snd (Raising.parse_card_page urljoin get_soup noscript_soup (fst page) (snd page)) with
  | inr rs => rs
  | inl _ => []
  end.

Definition raising_section_events (urljoin : str -> str -> exn + str)
    (get_soup : str -> exn + node) (noscript_soup : list node -> option node)
    (page : str * str) : list event :=
  EPrint (L "Scraping " ++ fst page ++ L " … " ++ snd page)
  :: fst (Raising.parse_card_page urljoin get_soup noscript_soup (fst page) (snd page))
  ++ match snd (Raising.parse_card_page urljoin get_soup noscript_soup
                                        (fst page) (snd page)) with
     | inl e => [EPrint (L "[error] " ++ fst page ++ L ": " ++ e)]
     | inr _ => []
     end.

Definition completed (urljoin : str -> str -> exn + str) (get_soup : str -> exn + node)
    (noscript_soup : list node -> option node) (page : str * str) : bool :=
  match snd (Raising.parse_card_page urljoin get_soup noscript_soup (fst page) (snd page)) with
  | inr _ => true
  | inl _ => false
  end.

(** A [urljoin] that raises on a malformed bracketed host, as the one of
    the library does, and a page with such a link after its title. *)
Definition raising_urljoin (base u : str) : exn + str :=
  if startswith (L "//[") u then inl (L "Invalid IPv6 URL")
  else inr (sample_urljoin base u).

Definition bad_link_page : node :=
  page [ tag "div" [img "//[x/images/a.png"];
         tag "h2" [Text (L "Ace of Wands")] ].
Definition bad_link_get_soup (url : str) : exn + node := inr bad_link_page.

(** The place of a section in [order_key]; the sections of [pages] come in
    that order. *)
Definition section_order (page : str * str) : option nat := dict_get (fst page) order_key.

Definition in_key_order (pages : list (str * str)) : Prop :=
  StronglySorted (fun p q => exists a b, section_order p = Some a
                                         /\ section_order q = Some b /\ a < b) pages
  /\ Forall (fun p => exists a, section_order p = Some a) pages.

(** A title in lower case, which the title pattern accepts. *)
Definition lower_case_ace : CardRecord := mkCard (L "Wands") (L "ace of Wands") [] [] [] [].

(** Every group of the pattern can capture strings with the property [P]
    only; the captures of a list of groups have it. *)
Fixpoint groups_sat (P : nat -> str -> Prop) (r : regex) : Prop :=
  match r with
  | Seq a b | Alt a b => groups_sat P a /\ groups_sat P b
  | Group i a =>
      groups_sat P a
      /\ forall pos s pos' s', den a pos s pos' s' -> P i (firstn (pos' - pos) s)
  | _ => True
  end.

Definition caps_sat (P : nat -> str -> Prop) (g : caps) : Prop :=
  forall i w, In (i, w) g -> P i w.

(** What the pattern of an inline background image takes as the URL: a
    string that is not empty and holds no closing parenthesis and no
    quote. *)
Definition css_url_ok (w : str) : Prop :=
  w <> [] /\ forallb (fun c => negb ((c =? ")")%char || quote_chr c)) w = true.

(** The title and its picture in one block, the picture after the title. *)
Definition card_block_page : node :=
  page [ tag "div" [ tag "h2" [Text (L "Ace of Wands")];
                     img "/images/AceOfWands.jpg" ] ].
Definition block_title : elt := ([0; 0; 0; 0; 0], tag "h2" [Text (L "Ace of Wands")]).
Definition block_div : elt :=
  ([0; 0; 0; 0], tag "div" [ tag "h2" [Text (L "Ace of Wands")];
                             img "/images/AceOfWands.jpg" ]).

(** The same title twice in one region; both pictures stand before the
    second title, [near_picture] right before it. *)
Definition twin_page : node :=
  page [ tag "h2" [Text (L "Ace of Wands")];
         tag "div" [img "/images/far.jpg"];
         tag "div" [img "/images/near.jpg"];
         tag "h2" [Text (L "Ace of Wands")] ].
Definition second_twin : elt := ([0; 0; 0; 3], tag "h2" [Text (L "Ace of Wands")]).
Definition far_picture : nat * str :=
  (1, L "https://www.thismighthurttarot.com/images/far.jpg").
Definition near_picture : nat * str :=
  (3, L "https://www.thismighthurttarot.com/images/near.jpg").
Definition ace_tokens : list str := card_filename_tokens (L "Ace of Wands") (L "Wands").

(** The strings that follow the end of an element of a page: what comes
    after the element, without what the element itself holds. *)
Definition texts_after (soup : node) (e : elt) : list str :=
  texts_of (skipn (length (descendants e)) (next_elements soup e)).

(** A page of Wands whose titles are written in capitals, the King first. *)
Definition capitals_page : node :=
  page [ tag "h2" [Text (L "KING OF WANDS")];
         tag "p" [Text (L "Mastery.")];
         tag "h2" [Text (L "ACE OF WANDS")];
         tag "p" [Text (L "Creation.")] ].
Definition capitals_get_soup (url : str) : exn + node := inr capitals_page.

(** A string of ASCII characters.  On these the patterns compiled with
    [re.I], [str.lower] and [str.title] treat the letter case as the
    definitions above do. *)
Definition is_ascii (s : str) : bool := forallb (fun c => code c <? 128) s.

(* ================================================================== *)
(** ** Properties *)

(** *** The two substitutions of the Text Normalizer *)

Lemma is_nl_eq c : is_nl c = true -> c = nl.
Proof. unfold is_nl. apply Ascii.eqb_eq. Qed.

Lemma isspace_nl : isspace nl = true.
Proof. reflexivity. Qed.

Lemma hspace_isspace c : hspace c = true -> isspace c = true.
Proof.
  unfold hspace. rewrite orb_true_iff, !Ascii.eqb_eq. intros [->| ->]; reflexivity.
Qed.

Lemma star_bt_run (p : ascii -> bool) (s : str) (pos : nat) :
  star_bt p (fun e _ => Some (e, @nil (nat * str))) pos s = Some (pos + run p s, []).
Proof.
  revert pos. induction s as [|c t IH]; intros pos; simpl.
  - f_equal. f_equal. lia.
  - destruct (p c).
    + rewrite IH. f_equal. f_equal. lia.
    + f_equal. f_equal. lia.
Qed.

Lemma match_at_plus p pos s :
  match_at (plus p) pos s =
  match s with
  | c :: t => if p c then Some (S pos + run p t, []) else None
  | [] => None
  end.
Proof.
  unfold match_at, plus. simpl. destruct s as [|c t]; [reflexivity|].
  destruct (p c); [|reflexivity]. apply star_bt_run.
Qed.

Lemma star_bt_last_nl pos s :
  star_bt isspace
    (fun pos' s' => match s' with
                    | c :: t => if is_nl c then Some (S pos', @nil (nat * str)) else None
                    | [] => None
                    end) pos s
  = option_map (fun j => (pos + j, [])) (last_nl s).
Proof.
  revert pos. induction s as [|c t IH]; intros pos; simpl; [reflexivity|].
  destruct (isspace c) eqn:Hc.
  - rewrite IH. destruct (last_nl t) as [j|]; simpl.
    + f_equal. f_equal. lia.
    + destruct (is_nl c); simpl; [f_equal; f_equal; lia | reflexivity].
  - destruct (is_nl c) eqn:Hn; [|reflexivity].
    apply is_nl_eq in Hn. subst c. discriminate.
Qed.

Lemma match_at_ws_nl pos s :
  match_at WS_NL pos s =
  match s with
  | c :: t => if isspace c
              then option_map (fun j => (S pos + j, [])) (last_nl t)
              else None
  | [] => None
  end.
Proof.
  unfold match_at, WS_NL, plus. simpl. destruct s as [|c t]; [reflexivity|].
  destruct (isspace c); [|reflexivity]. apply star_bt_last_nl.
Qed.

Lemma sub_from_skip r repl k pos s :
  sub_from r repl k pos s = sub_from r repl 0 (pos + k) (skipn k s).
Proof.
  revert pos s. induction k as [|k IH]; intros pos s.
  - simpl. f_equal. lia.
  - destruct s as [|c t]; [reflexivity|]. simpl sub_from at 1. simpl skipn.
    rewrite IH. f_equal. lia.
Qed.

Lemma sub_from_step r repl pos c t :
  sub_from r repl 0 pos (c :: t) =
  match match_at r pos (c :: t) with
  | Some (e, _) =>
      if pos <? e then repl ++ sub_from r repl 0 e (skipn (e - pos - 1) t)
      else c :: sub_from r repl 0 (S pos) t
  | None => c :: sub_from r repl 0 (S pos) t
  end.
Proof.
  cbn [sub_from]. destruct (match_at r pos (c :: t)) as [[e g]|]; [|reflexivity].
  destruct (pos <? e) eqn:He; [|reflexivity].
  apply Nat.ltb_lt in He. rewrite sub_from_skip.
  replace (S pos + (e - pos - 1)) with e by lia. reflexivity.
Qed.

Lemma sub_plus_cons p repl pos c t :
  sub_from (plus p) repl 0 pos (c :: t) =
  if p c then repl ++ sub_from (plus p) repl 0 (S (pos + run p t)) (skipn (run p t) t)
  else c :: sub_from (plus p) repl 0 (S pos) t.
Proof.
  rewrite sub_from_step, match_at_plus. destruct (p c); [|reflexivity].
  replace (S pos + run p t) with (S (pos + run p t)) by lia.
  replace (pos <? S (pos + run p t)) with true by (symmetry; apply Nat.ltb_lt; lia).
  replace (S (pos + run p t) - pos - 1) with (run p t) by lia. reflexivity.
Qed.

Lemma sub_ws_nl_cons repl pos c t :
  sub_from WS_NL repl 0 pos (c :: t) =
  if isspace c then
    match last_nl t with
    | Some j => repl ++ sub_from WS_NL repl 0 (S (pos + j)) (skipn j t)
    | None => c :: sub_from WS_NL repl 0 (S pos) t
    end
  else c :: sub_from WS_NL repl 0 (S pos) t.
Proof.
  rewrite sub_from_step, match_at_ws_nl. destruct (isspace c); [|reflexivity].
  destruct (last_nl t) as [j|]; cbn [option_map]; [|reflexivity].
  replace (S pos + j) with (S (pos + j)) by lia.
  replace (pos <? S (pos + j)) with true by (symmetry; apply Nat.ltb_lt; lia).
  replace (S (pos + j) - pos - 1) with j by lia. reflexivity.
Qed.

Lemma str_len_ind (P : str -> Prop) :
  (forall s, (forall t, length t < length s -> P t) -> P s) -> forall s, P s.
Proof.
  intros H s. remember (length s) as n eqn:Hn.
  revert s Hn. induction n as [n IH] using lt_wf_ind.
  intros s Hn. apply H. intros t Ht. apply (IH (length t)); [lia | reflexivity].
Qed.

Lemma length_skipn_le (j : nat) (t : str) : length (skipn j t) <= length t.
Proof. rewrite length_skipn. lia. Qed.

Lemma sub_plus_pos p repl s pos : 
  sub_from (plus p) repl 0 pos s = re_sub (plus p) repl s.
Proof.
  unfold re_sub. revert pos. induction s as [s IH] using str_len_ind. intros pos.
  destruct s as [|c t]; [reflexivity|].
  rewrite !sub_plus_cons. destruct (p c).
  - f_equal. rewrite IH; [symmetry; apply IH|]; simpl;
      pose proof (length_skipn_le (run p t) t); lia.
  - f_equal. rewrite IH; [symmetry; apply IH|]; simpl; lia.
Qed.

Lemma sub_ws_nl_pos repl s pos : 
  sub_from WS_NL repl 0 pos s = re_sub WS_NL repl s.
Proof.
  unfold re_sub. revert pos. induction s as [s IH] using str_len_ind. intros pos.
  destruct s as [|c t]; [reflexivity|].
  rewrite !sub_ws_nl_cons. destruct (isspace c).
  - destruct (last_nl t) as [j|].
    + f_equal. rewrite IH; [symmetry; apply IH|]; simpl;
        pose proof (length_skipn_le j t); lia.
    + f_equal. rewrite IH; [symmetry; apply IH|]; simpl; lia.
  - f_equal. rewrite IH; [symmetry; apply IH|]; simpl; lia.
Qed.

(** The equations of [re.sub] for a pattern [p+]. *)
Lemma re_sub_plus_cons p repl c t :
  re_sub (plus p) repl (c :: t) =
  if p c then repl ++ re_sub (plus p) repl (skipn (run p t) t)
  else c :: re_sub (plus p) repl t.
Proof.
  unfold re_sub at 1. rewrite sub_plus_cons.
  destruct (p c); rewrite sub_plus_pos; reflexivity.
Qed.

(** The equations of [re.sub] for the pattern [\s+\n]. *)
Lemma re_sub_ws_nl_cons repl c t :
  re_sub WS_NL repl (c :: t) =
  if isspace c then
    match last_nl t with
    | Some j => repl ++ re_sub WS_NL repl (skipn j t)
    | None => c :: re_sub WS_NL repl t
    end
  else c :: re_sub WS_NL repl t.
Proof.
  unfold re_sub at 1. rewrite sub_ws_nl_cons.
  destruct (isspace c); [destruct (last_nl t)|]; rewrite sub_ws_nl_pos; reflexivity.
Qed.

Lemma text_clean_eq s : text_clean s = strip (sub_ws_nl (sub_hspace s)).
Proof. reflexivity. Qed.

Lemma sub_hspace_cons c t :
  sub_hspace (c :: t) =
  if hspace c then " "%char :: sub_hspace (skipn (run hspace t) t)
  else c :: sub_hspace t.
Proof. unfold sub_hspace. rewrite re_sub_plus_cons. reflexivity. Qed.

Lemma sub_ws_nl_cons' c t :
  sub_ws_nl (c :: t) =
  if isspace c then
    match last_nl t with
    | Some j => nl :: sub_ws_nl (skipn j t)
    | None => c :: sub_ws_nl t
    end
  else c :: sub_ws_nl t.
Proof. unfold sub_ws_nl. rewrite re_sub_ws_nl_cons. reflexivity. Qed.

Lemma run_hd_false p s : hd_is p s = false -> run p s = 0.
Proof. destruct s as [|c t]; simpl; [reflexivity|]. intros ->. reflexivity. Qed.

Lemma hd_skipn_run p s : hd_is p (skipn (run p s) s) = false.
Proof.
  induction s as [|c t IH]; simpl; [reflexivity|].
  destruct (p c) eqn:Hc; simpl; [exact IH | exact Hc].
Qed.

Lemma hd_sub_hspace s : hd_is hspace s = false -> hd_is hspace (sub_hspace s) = false.
Proof.
  destruct s as [|c t]; simpl; [reflexivity|]. intros Hc.
  rewrite sub_hspace_cons, Hc. simpl. exact Hc.
Qed.

Lemma hs_norm_sub_hspace s : hs_norm (sub_hspace s) = true.
Proof.
  induction s as [s IH] using str_len_ind.
  destruct s as [|c t]; [reflexivity|].
  rewrite sub_hspace_cons. destruct (hspace c) eqn:Hc.
  - cbn [hs_norm]. replace (hspace " ") with true by reflexivity.
    rewrite hd_sub_hspace by apply hd_skipn_run. rewrite IH; [reflexivity|].
    simpl. pose proof (length_skipn_le (run hspace t) t). lia.
  - cbn [hs_norm]. rewrite Hc. rewrite IH; [reflexivity | simpl; lia].
Qed.

Lemma hs_norm_fix s : hs_norm s = true -> sub_hspace s = s.
Proof.
  induction s as [|c t IH]; [reflexivity|].
  cbn [hs_norm]. rewrite sub_hspace_cons. destruct (hspace c).
  - rewrite !andb_true_iff, negb_true_iff, Ascii.eqb_eq. intros [[-> Hh] Ht].
    rewrite (run_hd_false _ _ Hh). simpl. rewrite IH by exact Ht. reflexivity.
  - simpl. intros Ht. rewrite IH by exact Ht. reflexivity.
Qed.

Lemma last_nl_none_of_norm t :
  nl_norm t = true -> hd_is is_nl t = false -> last_nl t = None.
Proof.
  induction t as [|d t' IH]; [reflexivity|].
  cbn [nl_norm hd_is last_nl]. rewrite andb_true_iff, negb_true_iff.
  intros [H1 H2] Hd. destruct (isspace d); [|reflexivity].
  simpl in H1. rewrite (IH H2 H1), Hd. reflexivity.
Qed.

Lemma nl_norm_fix s : nl_norm s = true -> sub_ws_nl s = s.
Proof.
  induction s as [|c t IH]; [reflexivity|].
  cbn [nl_norm]. rewrite sub_ws_nl_cons'. rewrite andb_true_iff, negb_true_iff.
  intros [H1 H2]. rewrite (IH H2). destruct (isspace c); [|reflexivity].
  simpl in H1. rewrite (last_nl_none_of_norm _ H2 H1). reflexivity.
Qed.

Lemma last_nl_none_hd u : last_nl u = None -> hd_is is_nl u = false.
Proof.
  destruct u as [|d u']; [reflexivity|]. simpl.
  destruct (is_nl d) eqn:Hd; [|reflexivity].
  rewrite (is_nl_eq _ Hd). simpl. destruct (last_nl u'); discriminate.
Qed.

Lemma last_nl_none_tl d u : isspace d = true -> last_nl (d :: u) = None -> last_nl u = None.
Proof. simpl. intros ->. destruct (last_nl u); [discriminate | reflexivity]. Qed.

Lemma hd_sub_ws_nl u : last_nl u = None -> hd_is is_nl (sub_ws_nl u) = false.
Proof.
  intros H. pose proof (last_nl_none_hd _ H) as Hh.
  destruct u as [|d u']; [reflexivity|].
  rewrite sub_ws_nl_cons'. destruct (isspace d) eqn:Hd.
  - rewrite (last_nl_none_tl _ _ Hd H). exact Hh.
  - exact Hh.
Qed.

Lemma last_nl_skipn t j : last_nl t = Some j -> last_nl (skipn j t) = None.
Proof.
  revert j. induction t as [|c t' IH]; intros j; [discriminate|].
  simpl. destruct (isspace c); [|discriminate].
  destruct (last_nl t') as [j'|] eqn:Hl.
  - intros [= <-]. simpl. apply IH. reflexivity.
  - destruct (is_nl c); [|discriminate]. intros [= <-]. simpl. exact Hl.
Qed.

Lemma nl_norm_sub_ws_nl s : nl_norm (sub_ws_nl s) = true.
Proof.
  induction s as [s IH] using str_len_ind.
  destruct s as [|c t]; [reflexivity|].
  rewrite sub_ws_nl_cons'. destruct (isspace c) eqn:Hc.
  - destruct (last_nl t) as [j|] eqn:Hl.
    + cbn [nl_norm]. rewrite (hd_sub_ws_nl _ (last_nl_skipn _ _ Hl)).
      rewrite IH; [reflexivity|]. simpl. pose proof (length_skipn_le j t). lia.
    + cbn [nl_norm]. rewrite (hd_sub_ws_nl _ Hl), andb_false_r.
      rewrite IH; [reflexivity | simpl; lia].
  - cbn [nl_norm]. rewrite Hc. rewrite IH; [reflexivity | simpl; lia].
Qed.

Lemma hs_norm_skipn j s : hs_norm s = true -> hs_norm (skipn j s) = true.
Proof.
  revert s. induction j as [|j IH]; intros s H; [exact H|].
  destruct s as [|c t]; [reflexivity|]. simpl. apply IH.
  cbn [hs_norm] in H. apply andb_true_iff in H. tauto.
Qed.

Lemma hd_hspace_sub_ws_nl t : hd_is hspace t = false -> hd_is hspace (sub_ws_nl t) = false.
Proof.
  destruct t as [|d t']; [reflexivity|]. simpl. intros Hd.
  rewrite sub_ws_nl_cons'. destruct (isspace d); [|exact Hd].
  destruct (last_nl t'); [reflexivity | exact Hd].
Qed.

Lemma hs_norm_sub_ws_nl s : hs_norm s = true -> hs_norm (sub_ws_nl s) = true.
Proof.
  induction s as [s IH] using str_len_ind. intros H.
  destruct s as [|c t]; [reflexivity|].
  pose proof H as H'. cbn [hs_norm] in H'. apply andb_true_iff in H'. destruct H' as [H1 H2].
  assert (Hgo : hs_norm (c :: sub_ws_nl t) = true).
  { cbn [hs_norm]. rewrite IH by (simpl; lia || exact H2). rewrite andb_true_r.
    destruct (hspace c); [|reflexivity].
    apply andb_true_iff in H1. destruct H1 as [H1 H3]. rewrite H1. simpl.
    apply negb_true_iff in H3. rewrite (hd_hspace_sub_ws_nl _ H3). reflexivity. }
  rewrite sub_ws_nl_cons'. destruct (isspace c); [|exact Hgo].
  destruct (last_nl t) as [j|]; [|exact Hgo].
  cbn [hs_norm]. replace (hspace nl) with false by reflexivity.
  apply IH; [simpl; pose proof (length_skipn_le j t); lia|].
  apply hs_norm_skipn. exact H2.
Qed.

(** *** Stripping *)

Lemma lstrip_suffix s : exists w, s = w ++ lstrip s.
Proof.
  induction s as [|c t [w IH]]; [exists []; reflexivity|].
  simpl. destruct (isspace c).
  - exists (c :: w). simpl. f_equal. exact IH.
  - exists []. reflexivity.
Qed.

Lemma rstrip_prefix s : exists y, s = rstrip s ++ y.
Proof.
  unfold rstrip. destruct (lstrip_suffix (rev s)) as [w Hw].
  exists (rev w). rewrite <- rev_app_distr, <- Hw, rev_involutive. reflexivity.
Qed.

Lemma lstrip_idem s : lstrip (lstrip s) = lstrip s.
Proof.
  induction s as [|c t IH]; [reflexivity|]. simpl.
  destruct (isspace c) eqn:Hc; [exact IH|]. simpl. rewrite Hc. reflexivity.
Qed.

Lemma lstrip_hd s : hd_is isspace s = false -> lstrip s = s.
Proof. destruct s as [|c t]; simpl; [reflexivity|]. intros ->. reflexivity. Qed.

Lemma hd_lstrip s : hd_is isspace (lstrip s) = false.
Proof.
  induction s as [|c t IH]; [reflexivity|]. simpl.
  destruct (isspace c) eqn:Hc; [exact IH|]. simpl. exact Hc.
Qed.

Lemma hd_prefix (p : ascii -> bool) (x y : str) :
  hd_is p (x ++ y) = false -> hd_is p x = false.
Proof. destruct x; simpl; [reflexivity | tauto]. Qed.

Lemma rstrip_idem s : rstrip (rstrip s) = rstrip s.
Proof. unfold rstrip. rewrite rev_involutive, lstrip_idem. reflexivity. Qed.

Lemma strip_idem s : strip (strip s) = strip s.
Proof.
  unfold strip.
  assert (H : lstrip (rstrip (lstrip s)) = rstrip (lstrip s)).
  { apply lstrip_hd. destruct (rstrip_prefix (lstrip s)) as [y Hy].
    apply hd_prefix with (y := y). rewrite <- Hy. apply hd_lstrip. }
  rewrite H. apply rstrip_idem.
Qed.

Lemma hs_norm_app_l x y : hs_norm (x ++ y) = true -> hs_norm x = true.
Proof.
  induction x as [|c t IH]; [reflexivity|].
  cbn [app hs_norm]. rewrite !andb_true_iff. intros [H1 H2]. split; [|exact (IH H2)].
  destruct (hspace c); [|reflexivity].
  apply andb_true_iff in H1. destruct H1 as [H1 H3]. rewrite H1. simpl.
  apply negb_true_iff in H3. rewrite (hd_prefix _ _ _ H3). reflexivity.
Qed.

Lemma hs_norm_app_r x y : hs_norm (x ++ y) = true -> hs_norm y = true.
Proof.
  induction x as [|c t IH]; [tauto|].
  cbn [app hs_norm]. rewrite andb_true_iff. intros [_ H]. exact (IH H).
Qed.

Lemma nl_norm_app_l x y : nl_norm (x ++ y) = true -> nl_norm x = true.
Proof.
  induction x as [|c t IH]; [reflexivity|].
  cbn [app nl_norm]. rewrite !andb_true_iff, !negb_true_iff. intros [H1 H2].
  split; [|exact (IH H2)].
  destruct (isspace c); [|reflexivity]. simpl in *.
  apply hd_prefix with (y := y). exact H1.
Qed.

Lemma nl_norm_app_r x y : nl_norm (x ++ y) = true -> nl_norm y = true.
Proof.
  induction x as [|c t IH]; [tauto|].
  cbn [app nl_norm]. rewrite andb_true_iff. intros [_ H]. exact (IH H).
Qed.

Lemma strip_infix s : exists w y, s = w ++ strip s ++ y.
Proof.
  unfold strip. destruct (lstrip_suffix s) as [w Hw].
  destruct (rstrip_prefix (lstrip s)) as [y Hy].
  exists w, y. rewrite <- Hy. exact Hw.
Qed.

Lemma hs_norm_strip s : hs_norm s = true -> hs_norm (strip s) = true.
Proof.
  intros H. destruct (strip_infix s) as (w & y & E). rewrite E in H.
  apply hs_norm_app_r in H. apply hs_norm_app_l in H. exact H.
Qed.

Lemma nl_norm_strip s : nl_norm s = true -> nl_norm (strip s) = true.
Proof.
  intros H. destruct (strip_infix s) as (w & y & E). rewrite E in H.
  apply nl_norm_app_r in H. apply nl_norm_app_l in H. exact H.
Qed.

Lemma text_clean_hs_norm s : hs_norm (text_clean s) = true.
Proof.
  rewrite text_clean_eq. apply hs_norm_strip, hs_norm_sub_ws_nl, hs_norm_sub_hspace.
Qed.

Lemma text_clean_nl_norm s : nl_norm (text_clean s) = true.
Proof. rewrite text_clean_eq. apply nl_norm_strip, nl_norm_sub_ws_nl. Qed.

Lemma nl_norm_no_blank_line u v : nl_norm (u ++ nl :: nl :: v) = false.
Proof.
  induction u as [|c t IH]; [reflexivity|].
  cbn [app nl_norm]. rewrite IH. apply andb_false_r.
Qed.

(** C4.  The Text Normalizer is idempotent: for every string [s],
    normalizing the normalized [s] gives the normalized [s] back. *)
Theorem text_clean_idempotent (s : str) :
  text_clean (text_clean s) = text_clean s.
Proof.
  rewrite (text_clean_eq (text_clean s)).
  rewrite (hs_norm_fix _ (text_clean_hs_norm s)).
  rewrite (nl_norm_fix _ (text_clean_nl_norm s)).
  rewrite text_clean_eq. apply strip_idem.
Qed.

Lemma text_clean_no_blank_line (s u v : str) : text_clean s <> u ++ nl :: nl :: v.
Proof.
  intros E. pose proof (text_clean_nl_norm s) as H. rewrite E in H.
  rewrite nl_norm_no_blank_line in H. discriminate.
Qed.

(** *** Texts that begin and end with a visible character *)

Lemma edge_ok_inv s :
  edge_ok s = true ->
  exists d t c u, s = d :: t /\ s = u ++ [c] /\ isspace d = false /\ isspace c = false.
Proof.
  unfold edge_ok. rewrite !andb_true_iff, !negb_true_iff. intros [[H1 H2] H3].
  destruct s as [|d t]; [discriminate|].
  destruct (rev (d :: t)) as [|c ru] eqn:Hr.
  { apply (f_equal (@length ascii)) in Hr. rewrite length_rev in Hr. discriminate. }
  exists d, t, c, (rev ru). repeat split; try assumption.
  rewrite <- (rev_involutive (d :: t)), Hr. reflexivity.
Qed.

Lemma edge_ok_intro d t c u :
  d :: t = u ++ [c] -> isspace d = false -> isspace c = false -> edge_ok (d :: t) = true.
Proof.
  intros E Hd Hc. unfold edge_ok. cbn [nonempty hd_is]. rewrite Hd.
  rewrite E, rev_app_distr. cbn [rev app hd_is]. rewrite Hc. reflexivity.
Qed.

Lemma strip_edge_ok s : edge_ok s = true -> strip s = s.
Proof.
  unfold edge_ok, strip, rstrip. rewrite !andb_true_iff, !negb_true_iff.
  intros [[_ H2] H3]. rewrite (lstrip_hd _ H2), (lstrip_hd _ H3).
  apply rev_involutive.
Qed.

Lemma edge_ok_strip s : nonempty (strip s) = true -> edge_ok (strip s) = true.
Proof.
  intros Hn. unfold edge_ok. rewrite Hn. simpl.
  assert (H1 : hd_is isspace (strip s) = false).
  { unfold strip. destruct (rstrip_prefix (lstrip s)) as [y Hy].
    apply hd_prefix with (y := y). rewrite <- Hy. apply hd_lstrip. }
  assert (H2 : hd_is isspace (rev (strip s)) = false).
  { unfold strip, rstrip. rewrite rev_involutive. apply hd_lstrip. }
  rewrite H1, H2. reflexivity.
Qed.

Lemma edge_ok_join sep l :
  l <> [] -> Forall (fun s => edge_ok s = true) l -> edge_ok (join sep l) = true.
Proof.
  induction l as [|x l IH]; [congruence|]. intros _ H.
  inversion H as [|? ? Hx Hl]; subst.
  destruct l as [|y r]; [exact Hx|].
  change (join sep (x :: y :: r)) with (x ++ sep ++ join sep (y :: r)).
  assert (Hj : edge_ok (join sep (y :: r)) = true) by (apply IH; [discriminate | exact Hl]).
  destruct (edge_ok_inv _ Hx) as (d & t & _ & _ & -> & _ & Hd & _).
  destruct (edge_ok_inv _ Hj) as (_ & _ & c & u & _ & -> & _ & Hc).
  apply edge_ok_intro with (c := c) (u := (d :: t) ++ sep ++ u); [|exact Hd|exact Hc].
  simpl. rewrite <- !app_assoc. reflexivity.
Qed.

(** *** Substitution and concatenation *)

Lemma run_app p x c y : p c = false -> run p (x ++ c :: y) = run p x.
Proof.
  intros Hc. induction x as [|d x IH]; simpl; [rewrite Hc; reflexivity|].
  destruct (p d); [rewrite IH|]; reflexivity.
Qed.

Lemma run_le p x : run p x <= length x.
Proof. induction x as [|d x IH]; simpl; [lia|]. destruct (p d); simpl; lia. Qed.

Lemma skipn_app_le (j : nat) (x z : str) :
  j <= length x -> skipn j (x ++ z) = skipn j x ++ z.
Proof.
  intros H. rewrite skipn_app. replace (j - length x) with 0 by lia. reflexivity.
Qed.

Lemma sub_hspace_app (x : str) c y :
  hspace c = false -> sub_hspace (x ++ c :: y) = sub_hspace x ++ c :: sub_hspace y.
Proof.
  intros Hc. induction x as [x IH] using str_len_ind.
  destruct x as [|d x'].
  - simpl. rewrite sub_hspace_cons, Hc. reflexivity.
  - cbn [app]. rewrite !sub_hspace_cons. destruct (hspace d).
    + rewrite run_app by exact Hc. rewrite skipn_app_le by apply run_le.
      rewrite IH; [reflexivity|]. simpl.
      pose proof (length_skipn_le (run hspace x') x'). lia.
    + rewrite IH by (simpl; lia). reflexivity.
Qed.

Lemma last_nl_app x c y : isspace c = false -> last_nl (x ++ c :: y) = last_nl x.
Proof.
  intros Hc. induction x as [|d x IH]; simpl; [rewrite Hc; reflexivity|].
  rewrite IH. reflexivity.
Qed.

Lemma last_nl_le x j : last_nl x = Some j -> j <= length x.
Proof.
  revert j. induction x as [|d x IH]; intros j; simpl; [discriminate|].
  destruct (isspace d); [|discriminate].
  destruct (last_nl x) as [j'|].
  - intros [= <-]. specialize (IH _ eq_refl). lia.
  - destruct (is_nl d); [|discriminate]. intros [= <-]. lia.
Qed.

Lemma sub_ws_nl_app (x : str) c y :
  isspace c = false -> sub_ws_nl (x ++ c :: y) = sub_ws_nl x ++ c :: sub_ws_nl y.
Proof.
  intros Hc. induction x as [x IH] using str_len_ind.
  destruct x as [|d x'].
  - simpl. rewrite sub_ws_nl_cons', Hc. reflexivity.
  - cbn [app]. rewrite !sub_ws_nl_cons'. rewrite last_nl_app by exact Hc.
    assert (Hgo : d :: sub_ws_nl (x' ++ c :: y) = (d :: sub_ws_nl x') ++ c :: sub_ws_nl y).
    { rewrite IH by (simpl; lia). reflexivity. }
    destruct (isspace d); [|exact Hgo].
    destruct (last_nl x') as [j|] eqn:Hl; [|exact Hgo].
    rewrite skipn_app_le by (apply last_nl_le; exact Hl).
    rewrite IH; [reflexivity|]. simpl. pose proof (length_skipn_le j x'). lia.
Qed.

Lemma not_space_not_hspace c : isspace c = false -> hspace c = false.
Proof.
  intros H. destruct (hspace c) eqn:E; [|reflexivity].
  apply hspace_isspace in E. congruence.
Qed.

Lemma clean_core_app x c y :
  isspace c = false -> clean_core (x ++ c :: y) = clean_core x ++ c :: clean_core y.
Proof.
  intros Hc. unfold clean_core.
  rewrite sub_hspace_app by (apply not_space_not_hspace; exact Hc).
  apply sub_ws_nl_app. exact Hc.
Qed.

Lemma clean_core_cons d t : isspace d = false -> clean_core (d :: t) = d :: clean_core t.
Proof. intros Hd. apply (clean_core_app [] d t Hd). Qed.

Lemma clean_core_blank_line d t :
  isspace d = false -> clean_core (nl :: nl :: d :: t) = nl :: clean_core (d :: t).
Proof.
  intros Hd. unfold clean_core.
  rewrite (sub_hspace_cons nl). replace (hspace nl) with false by reflexivity.
  rewrite (sub_hspace_cons nl). replace (hspace nl) with false by reflexivity.
  rewrite (sub_hspace_cons d), (not_space_not_hspace _ Hd).
  rewrite (sub_ws_nl_cons' nl). replace (isspace nl) with true by reflexivity.
  cbn [last_nl]. replace (isspace nl) with true by reflexivity. rewrite Hd.
  replace (is_nl nl) with true by reflexivity. reflexivity.
Qed.

Lemma clean_core_edge_ok s : edge_ok s = true -> edge_ok (clean_core s) = true.
Proof.
  intros H. destruct (edge_ok_inv _ H) as (d & t & c & u & E1 & E2 & Hd & Hc).
  assert (H1 : clean_core s = d :: clean_core t) by (rewrite E1; apply clean_core_cons, Hd).
  assert (H2 : clean_core s = clean_core u ++ [c]).
  { rewrite E2. rewrite clean_core_app by exact Hc. reflexivity. }
  rewrite H1. apply edge_ok_intro with (c := c) (u := clean_core u); [|exact Hd|exact Hc].
  rewrite <- H1. exact H2.
Qed.

Lemma text_clean_edge_ok s : edge_ok s = true -> text_clean s = clean_core s.
Proof.
  intros H. rewrite text_clean_eq. apply strip_edge_ok, clean_core_edge_ok, H.
Qed.

Lemma join_cons2 (sep x y : str) (r : list str) :
  join sep (x :: y :: r) = x ++ sep ++ join sep (y :: r).
Proof. reflexivity. Qed.

Lemma clean_core_join l :
  Forall (fun s => edge_ok s = true) l ->
  clean_core (join [nl; nl] l) = join [nl] (map clean_core l).
Proof.
  induction l as [|x l IH]; [reflexivity|]. intros H.
  inversion H as [|? ? Hx Hl]; subst.
  destruct l as [|y r]; [reflexivity|].
  pose proof (IH Hl) as E. cbn [map] in E |- *. rewrite !join_cons2. rewrite <- E.
  assert (Hj : edge_ok (join [nl; nl] (y :: r)) = true)
    by (apply edge_ok_join; [discriminate | exact Hl]).
  destruct (edge_ok_inv _ Hx) as (_ & _ & c & u & _ & -> & _ & Hc).
  destruct (edge_ok_inv _ Hj) as (d & t & _ & _ & -> & _ & Hd & _).
  rewrite <- !app_assoc. cbn [app].
  rewrite !clean_core_app by exact Hc.
  rewrite clean_core_blank_line by exact Hd. rewrite <- app_assoc. reflexivity.
Qed.

(** Joined with a blank line and normalized, paragraphs end up one per line. *)
Lemma text_clean_join l :
  Forall (fun s => edge_ok s = true) l ->
  text_clean (join [nl; nl] l) = join [nl] (map text_clean l).
Proof.
  intros H.
  assert (Hm : map text_clean l = map clean_core l).
  { apply map_ext_in. intros s Hs. apply text_clean_edge_ok.
    rewrite Forall_forall in H. apply H, Hs. }
  rewrite Hm, text_clean_eq. fold (clean_core (join [nl; nl] l)).
  rewrite (clean_core_join _ H).
  destruct l as [|x l']; [reflexivity|].
  apply strip_edge_ok, edge_ok_join.
  - discriminate.
  - rewrite Forall_forall in *. intros s Hs. apply in_map_iff in Hs.
    destruct Hs as (s0 & <- & Hs0). apply clean_core_edge_ok, H, Hs0.
Qed.

(** *** The text of an element and the collected paragraphs *)

Lemma get_text_edge_ok sep n :
  nonempty (get_text sep n) = true -> edge_ok (get_text sep n) = true.
Proof.
  unfold get_text. intros Hn. apply edge_ok_join.
  - intros E. rewrite E in Hn. discriminate.
  - apply Forall_forall. intros s Hs. apply filter_In in Hs. destruct Hs as [Hs Hne].
    apply in_map_iff in Hs. destruct Hs as (s0 & <- & _). apply edge_ok_strip, Hne.
Qed.

Lemma collect_from_edge_ok pat l :
  Forall (fun s => edge_ok s = true) (collect_from pat l).
Proof.
  induction l as [|cur l IH]; cbn [collect_from]; [constructor|].
  destruct (is_tag (snd cur)); [|exact IH].
  set (txt := get_text (L " ") (snd cur)).
  destruct (nonempty txt && is_some (re_search pat txt)); [constructor|].
  destruct (name_in [L "p"] (snd cur)); [|exact IH].
  destruct (nonempty txt) eqn:Hn; [|exact IH].
  constructor; [apply get_text_edge_ok, Hn | exact IH].
Qed.

Section PageProperties.
Variable urljoin : str -> str -> str.
Variable get_soup : str -> exn + node.
Variable noscript_soup : list node -> option node.

Lemma parse_card_page_records suit url_path ev rs r :
  parse_card_page urljoin get_soup noscript_soup suit url_path = (ev, inr rs) ->
  In r rs ->
  exists soup title_el,
    get_soup (urljoin BASE url_path) = inr soup
    /\ In title_el (title_nodes (title_regex_for suit) soup)
    /\ r = card_of urljoin noscript_soup suit (urljoin BASE url_path) soup
                   (title_regex_for suit) title_el.
Proof.
  unfold parse_card_page. destruct (get_soup (urljoin BASE url_path)) as [e|soup] eqn:Hs.
  - discriminate.
  - intros [= _ <-] Hr. apply in_map_iff in Hr. destruct Hr as (t & <- & Ht).
    exists soup, t. auto.
Qed.

(** C10.  The output of the Text Normalizer never holds two newlines in a
    row.  Hence, although the Page Parser joins the collected paragraphs
    with a blank line before it normalizes them, the description of every
    record is the normalized paragraphs joined by exactly one newline (each
    of them begins and ends with a visible character), and it holds no
    blank line. *)
Theorem description_one_newline_between_paragraphs :
  (forall s u v : str, text_clean s <> u ++ nl :: nl :: v)
  /\ (forall suit url_path ev rs r,
        parse_card_page urljoin get_soup noscript_soup suit url_path = (ev, inr rs) ->
        In r rs ->
        exists soup title_el,
          get_soup (urljoin BASE url_path) = inr soup
          /\ In title_el (title_nodes (title_regex_for suit) soup)
          /\ let parts := collect_paragraphs soup title_el (title_regex_for suit) in
             description r = join [nl] (map text_clean parts)
             /\ Forall (fun p => edge_ok (text_clean p) = true) parts
             /\ forall u v, description r <> u ++ nl :: nl :: v).
Proof.
  split; [exact text_clean_no_blank_line|].
  intros suit url_path ev rs r Hp Hr.
  destruct (parse_card_page_records _ _ _ _ _ Hp Hr) as (soup & t & Hs & Ht & ->).
  exists soup, t. split; [exact Hs|]. split; [exact Ht|].
  cbn zeta. unfold card_of. cbn [description].
  pose proof (collect_from_edge_ok (title_regex_for suit) (next_elements soup t)) as Hok.
  fold (collect_paragraphs soup t (title_regex_for suit)) in Hok.
  split; [apply text_clean_join, Hok|]. split.
  - rewrite Forall_forall in *. intros p Hp'.
    rewrite text_clean_edge_ok by (apply Hok, Hp'). apply clean_core_edge_ok, Hok, Hp'.
  - apply text_clean_no_blank_line.
Qed.

End PageProperties.

(** *** The matcher finds what the pattern denotes *)

Lemma star_bt_sound (A : Type) p (k : nat -> str -> option A) s pos x :
  star_bt p k pos s = Some x ->
  exists u s', s = u ++ s' /\ forallb p u = true /\ k (pos + length u) s' = Some x.
Proof.
  revert pos. induction s as [|c t IH]; intros pos; simpl.
  - intros H. exists [], []. simpl. rewrite Nat.add_0_r. auto.
  - assert (Hstop : k pos (c :: t) = Some x ->
       exists u s', c :: t = u ++ s' /\ forallb p u = true /\ k (pos + length u) s' = Some x).
    { intros H. exists [], (c :: t). simpl. rewrite Nat.add_0_r. auto. }
    destruct (p c) eqn:Hc; [|exact Hstop].
    destruct (star_bt p k (S pos) t) as [y|] eqn:Hy; [|exact Hstop].
    intros [= ->]. destruct (IH _ Hy) as (u & s' & -> & Hu & Hk).
    exists (c :: u), s'. simpl. rewrite Hc, Hu.
    replace (pos + S (length u)) with (S pos + length u) by lia. auto.
Qed.

Lemma star_bt_complete (A : Type) p (k : nat -> str -> option A) u s' pos :
  forallb p u = true -> k (pos + length u) s' <> None ->
  star_bt p k pos (u ++ s') <> None.
Proof.
  revert pos. induction u as [|c u IH]; intros pos Hu Hk.
  - simpl in *. rewrite Nat.add_0_r in Hk. destruct s' as [|c t]; simpl; [exact Hk|].
    destruct (p c); [|exact Hk]. destruct (star_bt p k (S pos) t); [discriminate | exact Hk].
  - simpl in *. apply andb_true_iff in Hu. destruct Hu as [Hc Hu]. rewrite Hc.
    specialize (IH (S pos) Hu).
    replace (S pos + length u) with (pos + S (length u)) in IH by lia.
    specialize (IH Hk). destruct (star_bt p k (S pos) (u ++ s')); [discriminate | congruence].
Qed.

Lemma bt_sound (A : Type) r :
  forall pos s g (k : nat -> str -> caps -> option A) x,
    bt r pos s g k = Some x ->
    exists pos' s' g', den r pos s pos' s' /\ k pos' s' g' = Some x.
Proof.
  induction r as [| | |p|a IHa b IHb|a IHa b IHb|p|i a IHa]; intros pos s g k x; simpl.
  - intros H. exists pos, s, g. auto.
  - destruct (pos =? 0) eqn:E; [|discriminate]. apply Nat.eqb_eq in E.
    intros H. exists pos, s, g. auto.
  - destruct s as [|c [|d t]].
    + intros H. exists pos, [], g. auto.
    + destruct (c =? nl)%char eqn:E; [|discriminate]. apply Ascii.eqb_eq in E. subst c.
      intros H. exists pos, [nl], g. auto.
    + discriminate.
  - destruct s as [|c t]; [discriminate|]. destruct (p c) eqn:Hc; [|discriminate].
    intros H. exists (S pos), t, g. split; [exists c; auto | exact H].
  - intros H. apply IHa in H. destruct H as (pos1 & s1 & g1 & Ha & H).
    apply IHb in H. destruct H as (pos2 & s2 & g2 & Hb & H).
    exists pos2, s2, g2. split; [exists pos1, s1; auto | exact H].
  - destruct (bt a pos s g k) as [y|] eqn:Ha.
    + intros [= ->]. apply IHa in Ha. destruct Ha as (pos' & s' & g' & Ha & H).
      exists pos', s', g'. auto.
    + intros H. apply IHb in H. destruct H as (pos' & s' & g' & Hb & H).
      exists pos', s', g'. auto.
  - intros H. apply star_bt_sound in H. destruct H as (u & s' & -> & Hu & H).
    exists (pos + length u), s', g. split; [exists u; auto | exact H].
  - intros H. apply IHa in H. destruct H as (pos' & s' & g' & Ha & H).
    exists pos', s', ((i, firstn (pos' - pos) s) :: g'). auto.
Qed.

Lemma bt_complete (A : Type) r :
  forall pos s pos' s' g (k : nat -> str -> caps -> option A),
    den r pos s pos' s' ->
    (forall g', k pos' s' g' <> None) ->
    bt r pos s g k <> None.
Proof.
  induction r as [| | |p|a IHa b IHb|a IHa b IHb|p|i a IHa];
    intros pos s pos' s' g k; simpl.
  - intros [-> ->] Hk. apply Hk.
  - intros (-> & -> & ->) Hk. simpl. apply Hk.
  - intros ([-> | ->] & -> & ->) Hk; simpl; apply Hk.
  - intros (c & -> & Hc & ->) Hk. rewrite Hc. apply Hk.
  - intros (pos1 & s1 & Ha & Hb) Hk. apply (IHa _ _ _ _ _ _ Ha).
    intros g'. apply (IHb _ _ _ _ _ _ Hb). exact Hk.
  - intros [Ha | Hb] Hk.
    + pose proof (IHa _ _ _ _ g k Ha Hk). destruct (bt a pos s g k); [discriminate | congruence].
    + destruct (bt a pos s g k); [discriminate|]. apply (IHb _ _ _ _ _ _ Hb Hk).
  - intros (u & -> & Hu & ->) Hk. apply star_bt_complete; [exact Hu | apply Hk].
  - intros Ha Hk. apply (IHa _ _ _ _ _ _ Ha). intros g'. apply Hk.
Qed.

(** [fullmatch] succeeds exactly on the strings the pattern denotes. *)
Lemma re_fullmatch_iff r s :
  is_some (re_fullmatch r s) = true <-> exists e, den r 0 s e [].
Proof.
  unfold re_fullmatch. split.
  - destruct (bt r 0 s [] _) as [x|] eqn:H; [|discriminate]. intros _.
    apply bt_sound in H. destruct H as (pos' & s' & g' & Hd & Hk).
    destruct s'; [|discriminate]. exists pos'. exact Hd.
  - intros [e He].
    pose proof (bt_complete _ r 0 s e [] []
                  (fun e s' g => match s' with [] => Some (e, g) | _ => None end) He) as H.
    destruct (bt r 0 s [] _); [reflexivity|]. exfalso. apply H; [discriminate | reflexivity].
Qed.

Lemma den_lit ci w pos s pos' s' :
  den (lit ci w) pos s pos' s' <->
  exists u, s = u ++ s' /\ ci_match ci u w /\ pos' = pos + length u.
Proof.
  revert pos s. induction w as [|a w IH]; intros pos s; simpl.
  - split.
    + intros [-> ->]. exists []. simpl. repeat split; [constructor | lia].
    + intros (u & -> & Hu & ->). inversion Hu. simpl. split; [lia | reflexivity].
  - split.
    + intros (pos1 & s1 & (c & -> & Hc & ->) & H). apply IH in H.
      destruct H as (u & -> & Hu & ->). exists (c :: u). simpl.
      repeat split; [constructor; assumption | lia].
    + intros (u & -> & Hu & ->). inversion Hu as [|c a' u' w' Hc Hu']; subst.
      exists (S pos), (u' ++ s'). split; [exists c; auto|].
      apply IH. exists u'. repeat split; [exact Hu' | simpl; lia].
Qed.

Lemma den_alts l pos s pos' s' :
  den (alts l) pos s pos' s' <-> exists r, In r l /\ den r pos s pos' s'.
Proof.
  induction l as [|r l IH].
  - simpl. split; [intros (c & _ & H & _); discriminate | intros (r & [] & _)].
  - destruct l as [|r2 l2].
    + simpl. split; [intros H; exists r; auto | intros (r' & [<- | []] & H); exact H].
    + change (den (alts (r :: r2 :: l2)) pos s pos' s')
        with (den r pos s pos' s' \/ den (alts (r2 :: l2)) pos s pos' s').
      rewrite IH. split.
      * intros [H | (r' & Hin & H)];
          [exists r; split; [left; reflexivity | exact H]
          | exists r'; split; [right; exact Hin | exact H]].
      * intros (r' & [<- | Hin] & H); [left; exact H | right; exists r'; auto].
Qed.

Lemma den_plus p pos s pos' s' :
  den (plus p) pos s pos' s' <->
  exists c u, s = c :: u ++ s' /\ p c = true /\ forallb p u = true
              /\ pos' = S (pos + length u).
Proof.
  unfold plus. simpl. split.
  - intros (pos1 & s1 & (c & -> & Hc & ->) & (u & -> & Hu & ->)).
    exists c, u. repeat split; auto.
  - intros (c & u & -> & Hc & Hu & ->).
    exists (S pos), (u ++ s'). split; [exists c; auto | exists u; auto].
Qed.

(** *** A title is still a title once its white space is collapsed *)

Lemma collapse_cons c t :
  collapse (c :: t) =
  if isspace c then " "%char :: collapse (skipn (run isspace t) t)
  else c :: collapse t.
Proof. unfold collapse. rewrite re_sub_plus_cons. reflexivity. Qed.

Lemma collapse_visible x y :
  forallb (fun c => negb (isspace c)) x = true -> collapse (x ++ y) = x ++ collapse y.
Proof.
  induction x as [|c x IH]; [reflexivity|]. simpl.
  rewrite andb_true_iff, negb_true_iff. intros [Hc Hx].
  rewrite collapse_cons, Hc, (IH Hx). reflexivity.
Qed.

Lemma run_all p u y : forallb p u = true -> hd_is p y = false -> run p (u ++ y) = length u.
Proof.
  intros Hu Hy. induction u as [|c u IH]; simpl.
  - apply run_hd_false, Hy.
  - simpl in Hu. apply andb_true_iff in Hu. destruct Hu as [Hc Hu].
    rewrite Hc, (IH Hu). reflexivity.
Qed.

Lemma collapse_blank c u y :
  isspace c = true -> forallb isspace u = true -> hd_is isspace y = false ->
  collapse (c :: u ++ y) = " "%char :: collapse y.
Proof.
  intros Hc Hu Hy. rewrite collapse_cons, Hc, (run_all _ _ _ Hu Hy).
  rewrite skipn_app, skipn_all, Nat.sub_diag. reflexivity.
Qed.

Lemma collapse_nil : collapse [] = [].
Proof. reflexivity. Qed.

Lemma isspace_lower c : isspace (lower_char c) = isspace c.
Proof. destruct c as [[] [] [] [] [] [] [] []]; reflexivity. Qed.

Lemma lower_char_space c a :
  lower_char c = lower_char a -> isspace c = isspace a.
Proof.
  intros H. rewrite <- (isspace_lower c), <- (isspace_lower a), H. reflexivity.
Qed.

Lemma lower_char_is_space c : lower_char c = " "%char -> c = " "%char.
Proof. destruct c as [[] [] [] [] [] [] [] []]; vm_compute; congruence. Qed.

Lemma chr_ci_space a c : chr true a c = true -> isspace c = isspace a.
Proof. unfold chr. rewrite Ascii.eqb_eq. apply lower_char_space. Qed.

Lemma ci_match_visible u w : ci_match true u w -> visible w = true -> visible u = true.
Proof.
  unfold visible. induction 1 as [|c a u w Hc Hu IH]; [reflexivity|]. simpl.
  rewrite (chr_ci_space _ _ Hc). rewrite !andb_true_iff. intros [Ha Hw]. auto.
Qed.

Lemma ci_match_hd u w : ci_match true u w -> hd_is isspace u = hd_is isspace w.
Proof. destruct 1 as [|c a u w Hc Hu]; [reflexivity|]. simpl. apply chr_ci_space, Hc. Qed.

Lemma collapse_ci_match u w :
  ci_match true u w -> ws_norm w = true -> collapse u = u.
Proof.
  induction 1 as [|c a u w Hc Hu IH]; [reflexivity|].
  cbn [ws_norm]. rewrite andb_true_iff. intros [Ha Hw].
  rewrite collapse_cons. rewrite (chr_ci_space _ _ Hc).
  destruct (isspace a).
  - apply andb_true_iff in Ha. destruct Ha as [Ha Hh].
    apply Ascii.eqb_eq in Ha. subst a. apply negb_true_iff in Hh.
    unfold chr in Hc. apply Ascii.eqb_eq in Hc. apply lower_char_is_space in Hc. subst c.
    rewrite <- (ci_match_hd _ _ Hu) in Hh. rewrite (run_hd_false _ _ Hh). simpl.
    rewrite (IH Hw). reflexivity.
  - rewrite (IH Hw). reflexivity.
Qed.

Lemma den_blank pos s pos' s' :
  den (plus isspace) pos s pos' s' <->
  exists w, s = w ++ s' /\ blank w /\ pos' = pos + length w.
Proof.
  rewrite den_plus. split.
  - intros (c & u & -> & Hc & Hu & ->). exists (c :: u). split; [reflexivity|].
    split; [split; [discriminate | simpl; rewrite Hc, Hu; reflexivity] | simpl; lia].
  - intros (w & -> & [Hne Hw] & ->). destruct w as [|c u]; [congruence|].
    simpl in Hw. apply andb_true_iff in Hw. destruct Hw as [Hc Hu].
    exists c, u. repeat split; auto; simpl; lia.
Qed.

Lemma den_ranks ci pos s pos' s' :
  den (RANKS ci) pos s pos' s' <->
  exists rank r, In rank RANK_WORDS /\ s = r ++ s' /\ ci_match ci r rank
                 /\ pos' = pos + length r.
Proof.
  unfold RANKS. cbn [den]. rewrite den_alts. split.
  - intros (x & Hin & H). apply in_map_iff in Hin. destruct Hin as (rank & <- & Hin).
    apply den_lit in H. destruct H as (r & -> & Hr & ->). exists rank, r. auto.
  - intros (rank & r & Hin & -> & Hr & ->). exists (lit ci rank).
    split; [apply in_map, Hin | apply den_lit; exists r; auto].
Qed.

Lemma suit_title_den suit txt :
  str_eqb suit (L "Major Arcana") = false ->
  (is_some (re_fullmatch (title_regex_for suit) txt) = true <-> suit_title_shape suit txt).
Proof.
  intros Hs. rewrite re_fullmatch_iff. unfold title_regex_for. rewrite Hs.
  unfold suit_title_shape. split.
  - intros (e & H). cbn [den] in H.
    destruct H as (p1 & s1 & (_ & -> & ->) & p2 & s2 & H2 & p3 & s3 & H3 & p4 & s4 & H4
                   & p5 & s5 & H5 & p6 & s6 & H6 & (Hend & -> & E)).
    subst s6. apply den_ranks in H2. destruct H2 as (rank & r & Hin & -> & Hr & ->).
    apply den_blank in H3. destruct H3 as (w1 & -> & Hw1 & ->).
    apply den_lit in H4. destruct H4 as (o & -> & Ho & ->).
    apply den_blank in H5. destruct H5 as (w2 & -> & Hw2 & ->).
    apply den_lit in H6. destruct H6 as (su & -> & Hsu & Hp).
    exists r, w1, o, w2, su, rank. rewrite app_nil_r. repeat split; auto; apply Hw1 || apply Hw2.
  - intros (r & w1 & o & w2 & su & rank & -> & Hin & Hr & Hw1 & Ho & Hw2 & Hsu).
    eexists. cbn [den].
    exists 0, (r ++ w1 ++ o ++ w2 ++ su). split; [auto|].
    eexists _, (w1 ++ o ++ w2 ++ su). split; [apply den_ranks; exists rank, r; eauto|].
    eexists _, (o ++ w2 ++ su). split; [apply den_blank; exists w1; eauto|].
    eexists _, (w2 ++ su). split; [apply den_lit; exists o; eauto|].
    eexists _, su. split; [apply den_blank; exists w2; eauto|].
    eexists _, []. split; [apply den_lit; exists su; rewrite app_nil_r; eauto|].
    split; [left; reflexivity | split; reflexivity].
Qed.

Lemma visible_hd s : visible s = true -> hd_is isspace s = false.
Proof.
  destruct s as [|c t]; [reflexivity|]. unfold visible. simpl.
  rewrite andb_true_iff, negb_true_iff. tauto.
Qed.

Lemma ci_match_nonempty u w : ci_match true u w -> w <> [] -> u <> [].
Proof. destruct 1; [congruence | discriminate]. Qed.

Lemma rank_words_visible rank : In rank RANK_WORDS -> visible rank = true.
Proof.
  intros H. assert (F : forallb visible RANK_WORDS = true) by reflexivity.
  rewrite forallb_forall in F. apply F, H.
Qed.

Lemma collapse_suit_title suit txt :
  visible suit = true -> suit <> [] ->
  suit_title_shape suit txt -> suit_title_shape suit (collapse txt).
Proof.
  intros Hv Hne (r & w1 & o & w2 & su & rank & -> & Hin & Hr & Hw1 & Ho & Hw2 & Hsu).
  pose proof (ci_match_visible _ _ Hr (rank_words_visible _ Hin)) as Vr.
  pose proof (ci_match_visible _ _ Ho eq_refl) as Vo.
  pose proof (ci_match_visible _ _ Hsu Hv) as Vsu.
  assert (E : collapse (r ++ w1 ++ o ++ w2 ++ su) = r ++ L " " ++ o ++ L " " ++ su).
  { rewrite (collapse_visible _ _ Vr).
    destruct Hw1 as [N1 B1]. destruct w1 as [|c1 u1]; [congruence|].
    simpl in B1. apply andb_true_iff in B1. destruct B1 as [C1 B1].
    destruct Hw2 as [N2 B2]. destruct w2 as [|c2 u2]; [congruence|].
    simpl in B2. apply andb_true_iff in B2. destruct B2 as [C2 B2].
    assert (Ho0 : o <> []) by (apply (ci_match_nonempty _ _ Ho); discriminate).
    assert (Hsu0 : su <> []) by (apply (ci_match_nonempty _ _ Hsu); exact Hne).
    cbn [app].
    rewrite collapse_blank; [|exact C1|exact B1|].
    2:{ destruct o as [|x o']; [congruence|]. apply (visible_hd _ Vo). }
    rewrite (collapse_visible _ _ Vo). cbn [app]. 
    rewrite collapse_blank; [|exact C2|exact B2|apply visible_hd, Vsu].
    rewrite <- (app_nil_r su) at 1. rewrite (collapse_visible _ _ Vsu), collapse_nil, app_nil_r.
    reflexivity. }
  rewrite E. exists r, (L " "), o, (L " "), su, rank.
  repeat split; auto; discriminate.
Qed.

Lemma major_title_den txt :
  is_some (re_fullmatch (title_regex_for (L "Major Arcana")) txt) = true <->
  exists name, In name MAJOR_NAMES /\ ci_match true txt name.
Proof.
  rewrite re_fullmatch_iff.
  change (title_regex_for (L "Major Arcana")) with (Seq Bos (Seq (MAJORS true) Eos)).
  unfold MAJORS. cbn [den]. split.
  - intros (e & p1 & s1 & (_ & -> & ->) & p2 & s2 & H & (_ & -> & E)). subst s2.
    apply den_alts in H. destruct H as (x & Hin & H).
    apply in_map_iff in Hin. destruct Hin as (name & <- & Hin).
    apply den_lit in H. destruct H as (u & -> & Hu & _).
    exists name. rewrite app_nil_r. auto.
  - intros (name & Hin & Hm). eexists. exists 0, txt. split; [auto|].
    eexists _, []. split.
    + apply den_alts. exists (lit true name). split; [apply in_map, Hin|].
      apply den_lit. exists txt. rewrite app_nil_r. eauto.
    + split; [left; reflexivity | split; reflexivity].
Qed.

Lemma collapse_major_title txt :
  is_some (re_fullmatch (title_regex_for (L "Major Arcana")) txt) = true ->
  collapse txt = txt.
Proof.
  rewrite major_title_den. intros (name & Hin & Hm).
  apply (collapse_ci_match _ _ Hm).
  assert (F : forallb ws_norm MAJOR_NAMES = true) by reflexivity.
  rewrite forallb_forall in F. apply F, Hin.
Qed.

(** The title text of a record is still a title of its section. *)
Lemma collapse_title suit txt :
  In suit (map fst PAGES) ->
  is_some (re_fullmatch (title_regex_for suit) txt) = true ->
  is_some (re_fullmatch (title_regex_for suit) (collapse txt)) = true.
Proof.
  intros Hin H.
  assert (Hs : suit = L "Major Arcana"
               \/ (str_eqb suit (L "Major Arcana") = false
                   /\ visible suit = true /\ suit <> [])).
  { simpl in Hin.
    destruct Hin as [<- | [<- | [<- | [<- | [<- | []]]]]];
      [left; reflexivity | right .. ]; (split; [reflexivity | split; [reflexivity | discriminate]]). }
  destruct Hs as [-> | (Hs & Hv & Hne)].
  - rewrite (collapse_major_title _ H). exact H.
  - apply (suit_title_den _ _ Hs). apply collapse_suit_title; [exact Hv | exact Hne|].
    apply (suit_title_den _ _ Hs). exact H.
Qed.

Lemma title_nodes_is_title pat soup el :
  In el (title_nodes pat soup) -> is_title pat (snd el) = true.
Proof.
  unfold title_nodes. intros H. apply filter_In in H. destruct H as [_ H].
  apply andb_true_iff in H. tauto.
Qed.

Section CardTitle.
Variable urljoin : str -> str -> str.
Variable get_soup : str -> exn + node.
Variable noscript_soup : list node -> option node.

(** C5.  For each of the five sections and every page, the [card] field of
    every record the Page Parser emits matches the title pattern of the
    section in full ([fullmatch]: anchored at both ends, case-insensitive);
    the record carries the label of the section. *)
Theorem card_fullmatches_title_pattern suit url_path ev rs r :
  In suit (map fst PAGES) ->
  parse_card_page urljoin get_soup noscript_soup suit url_path = (ev, inr rs) ->
  In r rs ->
  suit_arcana r = suit
  /\ is_some (re_fullmatch (title_regex_for suit) (card r)) = true.
Proof.
  intros Hsuit Hp Hr.
  destruct (parse_card_page_records _ _ _ _ _ _ _ _ Hp Hr) as (soup & t & Hs & Ht & ->).
  split; [reflexivity|]. unfold card_of. cbn [card].
  apply (collapse_title _ _ Hsuit).
  apply title_nodes_is_title in Ht. unfold is_title in Ht.
  apply andb_true_iff in Ht. tauto.
Qed.

End CardTitle.

(** *** Stable sorting *)

Section SortingFacts.
Variables (B K : Type) (ltb : K -> K -> bool) (key : B -> K).
Hypothesis ltb_irrefl : forall a, ltb a a = false.
Hypothesis ltb_trans : forall a b c, ltb a b = true -> ltb b c = true -> ltb a c = true.
Hypothesis ltb_negtrans : forall a b c, ltb a c = true -> ltb a b = true \/ ltb b c = true.

Lemma insert_stable_perm rev x l : Permutation (x :: l) (insert_stable ltb key rev x l).
Proof.
  induction l as [|y l IH]; simpl; [apply Permutation_refl|].
  destruct (if rev then ltb (key x) (key y) else ltb (key y) (key x)).
  - apply perm_trans with (y :: x :: l); [apply perm_swap | apply perm_skip, IH].
  - apply Permutation_refl.
Qed.

Lemma py_sorted_perm rev l : Permutation l (py_sorted ltb key rev l).
Proof.
  induction l as [|x l IH]; simpl; [apply perm_nil|].
  apply perm_trans with (x :: py_sorted ltb key rev l);
    [apply perm_skip, IH | apply insert_stable_perm].
Qed.

(** The head of a descending sort: the first of the greatest elements. *)
Lemma py_sorted_desc_head x l :
  exists best rest l1 l2,
    py_sorted ltb key true (x :: l) = best :: rest
    /\ x :: l = l1 ++ best :: l2
    /\ (forall c, In c l1 -> ltb (key c) (key best) = true)
    /\ (forall c, In c l2 -> ltb (key best) (key c) = false).
Proof.
  revert x. induction l as [|y l IH]; intros x.
  - exists x, [], [], []. simpl. repeat split; intros c [].
  - destruct (IH y) as (b & rest & l1 & l2 & Hs & Hl & H1 & H2).
    change (py_sorted ltb key true (x :: y :: l))
      with (insert_stable ltb key true x (py_sorted ltb key true (y :: l))).
    rewrite Hs. cbn [insert_stable]. destruct (ltb (key x) (key b)) eqn:Hx.
    + exists b, (insert_stable ltb key true x rest), (x :: l1), l2.
      split; [reflexivity|]. split; [rewrite Hl; reflexivity|].
      split; [|exact H2]. intros c [<- | Hc]; [exact Hx | apply H1, Hc].
    + exists x, (b :: rest), [], (y :: l).
      split; [reflexivity|]. split; [reflexivity|]. split; [intros c []|].
      intros c Hc. rewrite Hl in Hc. apply in_app_or in Hc.
      destruct (ltb (key x) (key c)) eqn:Hxc; [|reflexivity]. exfalso.
      destruct (ltb_negtrans _ (key b) _ Hxc) as [Hxb | Hbc]; [congruence|].
      destruct Hc as [Hc | [<- | Hc]].
      * specialize (H1 _ Hc).
        pose proof (ltb_trans _ _ _ Hbc H1) as F. rewrite ltb_irrefl in F. discriminate.
      * rewrite ltb_irrefl in Hbc. discriminate.
      * specialize (H2 _ Hc). congruence.
Qed.

(** An ascending sort is ordered. *)
Lemma insert_stable_sorted x l :
  StronglySorted (fun a b => ltb (key b) (key a) = false) l ->
  StronglySorted (fun a b => ltb (key b) (key a) = false) (insert_stable ltb key false x l).
Proof.
  induction 1 as [|y l Hl IH Hy]; simpl.
  - constructor; constructor.
  - destruct (ltb (key y) (key x)) eqn:Hyx.
    + constructor; [exact IH|].
      apply Forall_forall. intros z Hz.
      apply (Permutation_in _ (Permutation_sym (insert_stable_perm false x l))) in Hz.
      destruct Hz as [<- | Hz].
      * destruct (ltb (key x) (key y)) eqn:Hxy; [|reflexivity].
        pose proof (ltb_trans _ _ _ Hxy Hyx) as F. rewrite ltb_irrefl in F. discriminate.
      * rewrite Forall_forall in Hy. apply Hy, Hz.
    + constructor; [constructor; assumption|].
      constructor; [exact Hyx|].
      apply Forall_forall. intros z Hz. rewrite Forall_forall in Hy. specialize (Hy _ Hz).
      destruct (ltb (key z) (key x)) eqn:Hzx; [|reflexivity].
      destruct (ltb_negtrans _ (key y) _ Hzx); congruence.
Qed.

Lemma py_sorted_asc_sorted l :
  StronglySorted (fun a b => ltb (key b) (key a) = false) (py_sorted ltb key false l).
Proof.
  induction l as [|x l IH]; simpl; [constructor | apply insert_stable_sorted, IH].
Qed.

(** A sort is stable: elements that are not ordered among themselves keep
    their order. *)
Lemma insert_stable_filter (f : B -> bool) rev x l :
  (forall a b, f a = true -> f b = true -> ltb (key a) (key b) = false) ->
  filter f (insert_stable ltb key rev x l) = filter f (x :: l).
Proof.
  intros Hf. induction l as [|y l IH]; [reflexivity|].
  cbn [insert_stable].
  destruct (if rev then ltb (key x) (key y) else ltb (key y) (key x)) eqn:Hc; [|reflexivity].
  cbn [filter] in *. rewrite IH.
  destruct (f x) eqn:Fx, (f y) eqn:Fy; try reflexivity.
  exfalso. destruct rev.
  - pose proof (Hf x y Fx Fy) as F. congruence.
  - pose proof (Hf y x Fy Fx) as F. congruence.
Qed.

Lemma py_sorted_stable (f : B -> bool) rev l :
  (forall a b, f a = true -> f b = true -> ltb (key a) (key b) = false) ->
  filter f (py_sorted ltb key rev l) = filter f l.
Proof.
  intros Hf. induction l as [|x l IH]; [reflexivity|].
  cbn [py_sorted fold_right]. fold (py_sorted ltb key rev l).
  rewrite (insert_stable_filter f rev x _ Hf). cbn [filter]. rewrite IH. reflexivity.
Qed.

End SortingFacts.

(** *** The orders on the keys *)

Lemma triple_ltb_spec a b :
  triple_ltb a b = true <->
  (let '(a1, a2, a3) := a in let '(b1, b2, b3) := b in
   a1 < b1 \/ (a1 = b1 /\ (a2 < b2 \/ (a2 = b2 /\ a3 < b3))))%Z.
Proof.
  destruct a as [[a1 a2] a3], b as [[b1 b2] b3]. unfold triple_ltb.
  rewrite !orb_true_iff, !andb_true_iff, !orb_true_iff, !andb_true_iff,
          !Z.ltb_lt, !Z.eqb_eq. tauto.
Qed.

Lemma triple_ltb_irrefl a : triple_ltb a a = false.
Proof.
  destruct (triple_ltb a a) eqn:E; [|reflexivity]. apply triple_ltb_spec in E.
  destruct a as [[a1 a2] a3]. lia.
Qed.

Lemma triple_ltb_trans a b c :
  triple_ltb a b = true -> triple_ltb b c = true -> triple_ltb a c = true.
Proof.
  rewrite !triple_ltb_spec.
  destruct a as [[a1 a2] a3], b as [[b1 b2] b3], c as [[c1 c2] c3]. lia.
Qed.

Lemma triple_ltb_negtrans a b c :
  triple_ltb a c = true -> triple_ltb a b = true \/ triple_ltb b c = true.
Proof.
  rewrite !triple_ltb_spec.
  destruct a as [[a1 a2] a3], b as [[b1 b2] b3], c as [[c1 c2] c3]. lia.
Qed.

Lemma pair_ltb_spec a b :
  pair_ltb a b = true <-> fst a < fst b \/ (fst a = fst b /\ snd a < snd b).
Proof.
  unfold pair_ltb. rewrite orb_true_iff, andb_true_iff, !Nat.ltb_lt, Nat.eqb_eq. tauto.
Qed.

Lemma pair_ltb_irrefl a : pair_ltb a a = false.
Proof.
  destruct (pair_ltb a a) eqn:E; [|reflexivity]. apply pair_ltb_spec in E. lia.
Qed.

Lemma pair_ltb_trans a b c :
  pair_ltb a b = true -> pair_ltb b c = true -> pair_ltb a c = true.
Proof. rewrite !pair_ltb_spec. lia. Qed.

Lemma pair_ltb_negtrans a b c :
  pair_ltb a c = true -> pair_ltb a b = true \/ pair_ltb b c = true.
Proof. rewrite !pair_ltb_spec. lia. Qed.

(** *** The Nearest-Image Resolver *)

Lemma str_eqb_eq a b : str_eqb a b = true <-> a = b.
Proof. unfold str_eqb. destruct (list_eq_dec ascii_dec a b); split; congruence. Qed.

Lemma str_eqb_refl a : str_eqb a a = true.
Proof. apply str_eqb_eq. reflexivity. Qed.

Lemma add_candidate_inv idx st url : cand_inv st -> cand_inv (add_candidate idx st url).
Proof.
  destruct st as [seen cands]. unfold cand_inv, add_candidate. cbn [fst snd].
  intros [Hs Hn]. destruct (existsb (str_eqb url) seen) eqn:E; [split; assumption|].
  cbn [fst snd]. rewrite map_app. cbn [map snd]. split.
  - intros u. rewrite in_app_iff. simpl. rewrite <- Hs. tauto.
  - assert (Hnot : ~ In url (map snd cands)).
    { rewrite <- Hs. intros Hin.
      assert (existsb (str_eqb url) seen = true)
        by (apply existsb_exists; exists url; split; [exact Hin | apply str_eqb_refl]).
      congruence. }
    apply NoDup_app; [exact Hn | repeat constructor; intros [] | ].
    intros u Hu [<- | []]. exact (Hnot Hu).
Qed.

Lemma fold_add_candidate_inv idx urls st :
  cand_inv st -> cand_inv (fold_left (add_candidate idx) urls st).
Proof.
  revert st. induction urls as [|u urls IH]; intros st H; [exact H|].
  simpl. apply IH, add_candidate_inv, H.
Qed.

Section ResolverFacts.
Variable urljoin : str -> str -> str.
Variable noscript_soup : list node -> option node.

Lemma candidates_nodup soup title_el :
  NoDup (map snd (candidates_of urljoin noscript_soup soup title_el)).
Proof.
  unfold candidates_of.
  set (f := fun (st : list str * list (nat * str)) (idx_n : nat * elt) =>
              fold_left (add_candidate (fst idx_n))
                (_extract_img_url_from urljoin noscript_soup (snd idx_n)) st).
  assert (H : forall l st, cand_inv st -> cand_inv (fold_left f l st)).
  { induction l as [|x l IH]; intros st Hst; [exact Hst|].
    simpl. apply IH. unfold f. apply fold_add_candidate_inv, Hst. }
  apply H. split; [intros u; simpl; tauto | constructor].
Qed.

Lemma score_before tokens T c :
  fst (fst (score tokens T c)) = if fst c <? T then 10%Z else 0%Z.
Proof. destruct c as [idx u]. reflexivity. Qed.

Lemma score_distance tokens T c :
  snd (fst (score tokens T c)) = (- Z.abs (Z.of_nat (fst c) - Z.of_nat T))%Z.
Proof. destruct c as [idx u]. reflexivity. Qed.

(** The choice of [nearest_card_image_url]: the first of the candidates
    with the greatest key. *)
Lemma nearest_choice (soup : node) (title_el : elt) (title_text suit : str) :
  let candidates := candidates_of urljoin noscript_soup soup title_el in
  let key := score (card_filename_tokens title_text suit) (title_index soup title_el) in
  candidates <> [] ->
  exists best l1 l2,
    candidates = l1 ++ best :: l2
    /\ nearest_card_image_url urljoin noscript_soup soup title_el title_text suit
       = Some (snd best)
    /\ (forall c, In c candidates -> triple_ltb (key best) (key c) = false)
    /\ (forall c, In c l1 -> triple_ltb (key c) (key best) = true).
Proof.
  intros candidates key Hne. destruct candidates as [|x l] eqn:Ec; [congruence|].
  destruct (py_sorted_desc_head _ _ triple_ltb key
              triple_ltb_irrefl triple_ltb_trans triple_ltb_negtrans x l)
    as (best & rest & l1 & l2 & Hs & Hl & H1 & H2).
  exists best, l1, l2. split; [exact Hl|]. split.
  - unfold nearest_card_image_url. fold candidates. rewrite Ec.
    fold key. rewrite Hs. reflexivity.
  - split; [|exact H1]. intros c Hc. rewrite Hl in Hc. apply in_app_or in Hc.
    destruct Hc as [Hc | [<- | Hc]].
    + specialize (H1 _ Hc). destruct (triple_ltb (key best) (key c)) eqn:F; [|reflexivity].
      pose proof (triple_ltb_trans _ _ _ F H1) as G.
      rewrite triple_ltb_irrefl in G. discriminate.
    + apply triple_ltb_irrefl.
    + apply H2, Hc.
Qed.

Lemma nodup_snd_inj (cs : list (nat * str)) a b :
  NoDup (map snd cs) -> In a cs -> In b cs -> snd a = snd b -> a = b.
Proof.
  induction cs as [|c cs IH]; intros Hnd Ha Hb Eu; [destruct Ha|].
  simpl in Hnd. inversion Hnd as [|? ? Hnotin Hnd']; subst.
  destruct Ha as [-> | Ha], Hb as [-> | Hb]; auto.
  - exfalso. apply Hnotin. rewrite Eu. apply in_map, Hb.
  - exfalso. apply Hnotin. rewrite <- Eu. apply in_map, Ha.
Qed.

(** The choice of the resolver relative to the index it computes for the
    title, [title_index].  When the region of a title yields no candidate
    the resolver returns none.  Otherwise it returns the URL of a candidate
    [best] whose key (before flag, negated distance, token score, the first
    two taken from [title_index]) no candidate exceeds in the lexicographic
    order; [best] is the first such candidate, every candidate listed before
    it having a smaller key.  As soon as one candidate has an index below
    [title_index], the candidate returned has one, whatever the distances. *)
Theorem nearest_image_is_best_candidate
    (soup : node) (title_el : elt) (title_text suit : str) :
  let candidates := candidates_of urljoin noscript_soup soup title_el in
  let T := title_index soup title_el in
  let key := score (card_filename_tokens title_text suit) T in
  let result := nearest_card_image_url urljoin noscript_soup soup title_el title_text suit in
  (candidates = [] -> result = None)
  /\ (candidates <> [] ->
      exists best l1 l2,
        candidates = l1 ++ best :: l2
        /\ result = Some (snd best)
        /\ (forall c, In c candidates -> triple_ltb (key best) (key c) = false)
        /\ (forall c, In c l1 -> triple_ltb (key c) (key best) = true)
        /\ (forall b, In b candidates -> fst b < T ->
              fst best < T
              /\ forall a, In a candidates -> ~ fst a < T -> result <> Some (snd a))).
Proof.
  intros candidates T key result. split.
  - intros E. unfold result, nearest_card_image_url. fold candidates. rewrite E. reflexivity.
  - intros Hne.
    destruct (nearest_choice soup title_el title_text suit Hne)
      as (best & l1 & l2 & Hl & Hres & Hmax & H1).
    fold candidates in Hl, Hmax. fold T in Hmax, H1. fold key in Hmax, H1. fold result in Hres.
    exists best, l1, l2. split; [exact Hl|]. split; [exact Hres|].
    split; [exact Hmax|]. split; [exact H1|].
    intros b Hb Hbefore.
    assert (Hbest : fst best < T).
    { specialize (Hmax _ Hb).
      destruct (fst best <? T) eqn:E; [apply Nat.ltb_lt, E|]. exfalso.
      assert (F : triple_ltb (key best) (key b) = true).
      { apply triple_ltb_spec.
        pose proof (score_before (card_filename_tokens title_text suit) T best) as S1.
        pose proof (score_before (card_filename_tokens title_text suit) T b) as S2.
        fold key in S1, S2. rewrite E in S1.
        apply Nat.ltb_lt in Hbefore. rewrite Hbefore in S2.
        destruct (key best) as [[p1 p2] p3], (key b) as [[q1 q2] q3]. simpl in *. lia. }
      congruence. }
    split; [exact Hbest|].
    intros a Ha Hafter. rewrite Hres. intros [= Eu].
    assert (Hin : In best candidates) by (rewrite Hl; apply in_elt).
    pose proof (candidates_nodup soup title_el) as Hnd. fold candidates in Hnd.
    pose proof (nodup_snd_inj _ _ _ Hnd Hin Ha Eu). subst a. contradiction.
Qed.

Lemma token_sum_ge (ul : str) tokens acc :
  (acc <= fold_left (fun sc t => if contains t ul then sc + 20 else sc) tokens acc)%Z.
Proof.
  revert acc. induction tokens as [|t ts IH]; intros acc; simpl; [lia|].
  destruct (contains t ul); [specialize (IH (acc + 20)%Z) | specialize (IH acc)]; lia.
Qed.

Lemma token_sum_hit (ul : str) tokens acc :
  existsb (fun t => contains t ul) tokens = true ->
  (acc + 20 <= fold_left (fun sc t => if contains t ul then sc + 20 else sc) tokens acc)%Z.
Proof.
  revert acc. induction tokens as [|t ts IH]; intros acc; simpl; [discriminate|].
  destruct (contains t ul); simpl.
  - intros _. apply token_sum_ge.
  - intros H. apply IH, H.
Qed.

Lemma token_sum_miss (ul : str) tokens acc :
  existsb (fun t => contains t ul) tokens = false ->
  fold_left (fun sc t => if contains t ul then sc + 20 else sc)%Z tokens acc = acc.
Proof.
  revert acc. induction tokens as [|t ts IH]; intros acc; simpl; [reflexivity|].
  destruct (contains t ul); simpl; [discriminate | apply IH].
Qed.

Lemma score_token_hit tokens T c :
  has_token tokens (snd c) = true -> (20 <= snd (score tokens T c))%Z.
Proof.
  destruct c as [idx u]. unfold has_token, score. cbn [snd]. intros H.
  pose proof (token_sum_hit (lower u) tokens 0%Z H) as G.
  destruct (existsb _ SCORE_MARKERS), (endswith_any IMAGE_EXTS (lower u)); lia.
Qed.

Lemma score_token_miss tokens T c :
  has_token tokens (snd c) = false -> (snd (score tokens T c) <= 3)%Z.
Proof.
  destruct c as [idx u]. unfold has_token, score. cbn [snd]. intros H.
  rewrite (token_sum_miss (lower u) tokens 0%Z H).
  destruct (existsb _ SCORE_MARKERS), (endswith_any IMAGE_EXTS (lower u)); lia.
Qed.

(** C6, amended.  For a title with exactly two candidates at the same
    distance from the title and on the same side of it, where the URL of one
    contains a filename token of the title and the URL of the other does
    not, the resolver returns the candidate with the token. *)
Theorem same_side_equidistant_token_wins
    (soup : node) (title_el : elt) (title_text suit : str) (c1 c2 : nat * str) :
  let candidates := candidates_of urljoin noscript_soup soup title_el in
  let T := title_index soup title_el in
  let tokens := card_filename_tokens title_text suit in
  (candidates = [c1; c2] \/ candidates = [c2; c1]) ->
  Z.abs (Z.of_nat (fst c1) - Z.of_nat T) = Z.abs (Z.of_nat (fst c2) - Z.of_nat T) ->
  (fst c1 <? T) = (fst c2 <? T) ->
  has_token tokens (snd c1) = true ->
  has_token tokens (snd c2) = false ->
  nearest_card_image_url urljoin noscript_soup soup title_el title_text suit
  = Some (snd c1).
Proof.
  intros candidates T tokens Hc Hd Hside H1 H2.
  assert (Hne : candidates <> []) by (destruct Hc as [-> | ->]; discriminate).
  destruct (nearest_choice soup title_el title_text suit Hne)
    as (best & l1 & l2 & Hl & Hres & Hmax & _).
  fold candidates in Hl, Hmax. fold T in Hmax. fold tokens in Hmax.
  rewrite Hres. f_equal. f_equal.
  assert (Hin : In best candidates) by (rewrite Hl; apply in_elt).
  assert (Hin1 : In c1 candidates) by (destruct Hc as [-> | ->]; simpl; auto).
  assert (Hlt : triple_ltb (score tokens T c2) (score tokens T c1) = true).
  { apply triple_ltb_spec.
    pose proof (score_before tokens T c1) as B1. pose proof (score_before tokens T c2) as B2.
    pose proof (score_distance tokens T c1) as D1. pose proof (score_distance tokens T c2) as D2.
    pose proof (score_token_hit tokens T c1 H1) as S1.
    pose proof (score_token_miss tokens T c2 H2) as S2.
    rewrite Hside in B1. rewrite Hd in D1.
    destruct (score tokens T c1) as [[p1 p2] p3], (score tokens T c2) as [[q1 q2] q3].
    simpl in *. subst. right. split; [reflexivity|]. right. split; [reflexivity | lia]. }
  assert (Hcases : best = c1 \/ best = c2)
    by (destruct Hc as [E | E]; rewrite E in Hin; simpl in Hin; intuition).
  destruct Hcases as [-> | ->]; [reflexivity|].
  specialize (Hmax _ Hin1). congruence.
Qed.

End ResolverFacts.

(** *** The sort of the driver *)

Lemma all_keys_spec rows ks :
  all_keys rows = Some ks ->
  map snd (combine ks rows) = rows
  /\ forall p, In p (combine ks rows) -> sort_key (snd p) = Some (fst p).
Proof.
  revert ks. induction rows as [|r rows IH]; intros ks; simpl.
  - intros [= <-]. split; [reflexivity | intros p []].
  - destruct (sort_key r) as [k|] eqn:Hk; [|discriminate].
    destruct (all_keys rows) as [ks'|]; [|discriminate].
    intros [= <-]. destruct (IH _ eq_refl) as [H1 H2]. simpl. split.
    + rewrite H1. reflexivity.
    + intros p [<- | Hp]; [exact Hk | apply H2, Hp].
Qed.

Lemma sort_key_major r :
  is_major r = true -> sort_key r = Some (0, 0).
Proof.
  unfold is_major, sort_key. intros H. rewrite H.
  apply str_eqb_eq in H. rewrite H. reflexivity.
Qed.

Lemma sort_key_minor_order r k :
  is_major r = false -> sort_key r = Some k -> 1 <= fst k.
Proof.
  unfold is_major, sort_key. intros H.
  destruct (dict_get (suit_arcana r) order_key) as [o|] eqn:Ho; [|discriminate].
  rewrite H. intros [= <-]. simpl.
  unfold order_key in Ho. cbn [dict_get] in Ho.
  repeat (match type of Ho with
          | (if ?c then _ else _) = _ => destruct c eqn:?
          end; [try (injection Ho as <-; lia); congruence|]).
  discriminate.
Qed.

(** The rank at the head of a title decides the second component of the key. *)
Lemma sort_key_rank r s o w v rest :
  suit_arcana r = s -> str_eqb s (L "Major Arcana") = false ->
  dict_get s order_key = Some o ->
  In (w, v) num_map -> card r = w ++ rest ->
  sort_key r = Some (o, v).
Proof.
  intros Hs Hm Ho Hw Hc. unfold sort_key. rewrite Hs, Ho, Hm, Hc.
  simpl in Hw.
  repeat (destruct Hw as [[= <- <-] | Hw]; [reflexivity|]). destruct Hw.
Qed.

Lemma filter_map_snd (B C : Type) (f : C -> bool) (l : list (B * C)) :
  filter f (map snd l) = map snd (filter (fun p => f (snd p)) l).
Proof.
  induction l as [|p l IH]; [reflexivity|]. simpl.
  destruct (f (snd p)); simpl; rewrite IH; reflexivity.
Qed.

Lemma strongly_sorted_map (B C : Type) (R : B -> B -> Prop) (Q : C -> C -> Prop)
    (g : B -> C) (l : list B) :
  (forall a b, In a l -> In b l -> R a b -> Q (g a) (g b)) ->
  StronglySorted R l -> StronglySorted Q (map g l).
Proof.
  intros H S. induction S as [|x l S IH F]; simpl; [constructor|].
  constructor.
  - apply IH. intros a b Ha Hb. apply H; right; assumption.
  - rewrite Forall_forall in *. intros y Hy. apply in_map_iff in Hy.
    destruct Hy as (b & <- & Hb). apply H; [left; reflexivity | right; exact Hb | apply F, Hb].
Qed.

Lemma strongly_sorted_split (B : Type) (R : B -> B -> Prop) l1 a l2 b l3 :
  StronglySorted R (l1 ++ a :: l2 ++ b :: l3) -> R a b.
Proof.
  induction l1 as [|x l1 IH]; simpl; intros S.
  - inversion S as [|? ? _ F]; subst. rewrite Forall_forall in F. apply F.
    apply in_or_app. right. left. reflexivity.
  - inversion S; subst. apply IH. assumption.
Qed.

Lemma sort_rows_spec rows out :
  sort_rows rows = Some out ->
  Permutation rows out
  /\ StronglySorted key_le out
  /\ filter is_major out = filter is_major rows.
Proof.
  unfold sort_rows. destruct (all_keys rows) as [ks|] eqn:Hk; [|discriminate].
  intros [= <-]. destruct (all_keys_spec _ _ Hk) as [Hm Hkeys].
  set (dec := combine ks rows) in *.
  pose proof (py_sorted_perm _ _ pair_ltb (@fst (nat * nat) CardRecord) false dec) as Hperm.
  split; [|split].
  - rewrite <- Hm at 1. apply Permutation_map, Hperm.
  - apply strongly_sorted_map
      with (R := fun a b : (nat * nat) * CardRecord => pair_ltb (fst b) (fst a) = false).
    + intros a b Ha Hb Hab.
      apply (Permutation_in _ (Permutation_sym Hperm)) in Ha, Hb.
      exists (fst a), (fst b). auto.
    + apply py_sorted_asc_sorted;
        [apply pair_ltb_irrefl | apply pair_ltb_trans | apply pair_ltb_negtrans].
  - rewrite <- Hm at 1. rewrite !filter_map_snd. f_equal.
    assert (E : forall l, (forall p, In p l -> In p dec) ->
                filter (fun p => is_major (snd p)) l
                = filter (fun p => (fst (fst p) =? 0) && (snd (fst p) =? 0)) l).
    { intros l Hl. apply filter_ext_in. intros p Hp. specialize (Hkeys _ (Hl _ Hp)).
      destruct (is_major (snd p)) eqn:Hmaj.
      - rewrite (sort_key_major _ Hmaj) in Hkeys. injection Hkeys as <-. reflexivity.
      - pose proof (sort_key_minor_order _ _ Hmaj Hkeys) as H1.
        symmetry. apply andb_false_iff. left. apply Nat.eqb_neq. lia. }
    rewrite (E dec) by auto.
    rewrite E by (intros p Hp; apply (Permutation_in _ (Permutation_sym Hperm)), Hp).
    apply py_sorted_stable.
    intros a b Fa Fb. apply andb_true_iff in Fa, Fb.
    rewrite !Nat.eqb_eq in Fa, Fb.
    destruct (pair_ltb (fst a) (fst b)) eqn:F; [|reflexivity].
    apply pair_ltb_spec in F. lia.
Qed.

Lemma sort_rows_total rows :
  (forall r, In r rows -> In (suit_arcana r) (map fst PAGES)) ->
  exists out, sort_rows rows = Some out.
Proof.
  intros H. unfold sort_rows.
  assert (K : exists ks, all_keys rows = Some ks).
  { induction rows as [|r rows IH]; simpl; [eexists; reflexivity|].
    destruct IH as [ks Hks]; [intros r' Hr'; apply H; right; exact Hr'|].
    rewrite Hks. specialize (H r (or_introl eq_refl)).
    assert (exists k, sort_key r = Some k) as [k ->].
    { unfold sort_key. simpl in H.
      destruct H as [<- | [<- | [<- | [<- | [<- | []]]]]]; eexists; reflexivity. }
    eexists. reflexivity. }
  destruct K as [ks ->]. eexists. reflexivity.
Qed.

(** *** The subtitle *)

Lemma looks_like_subtitle_iff txt pat :
  looks_like_subtitle txt pat = true <-> passes_subtitle_heuristic txt pat.
Proof.
  unfold looks_like_subtitle, passes_subtitle_heuristic.
  destruct txt as [|c t].
  - simpl. split; [discriminate | intros [H _]; congruence].
  - cbn [nonempty negb]. destruct (re_search pat (c :: t)) as [m|]; cbn [is_some].
    + split; [discriminate | intros (_ & H & _); discriminate].
    + rewrite !andb_true_iff, !Nat.leb_le. split.
      * intros [[H1 H2] H3]. repeat split; try discriminate; try assumption.
        exists c, t. auto.
      * intros (_ & _ & [H1 H2] & (c' & t' & [= <- <-] & Hc)). auto.
Qed.

Lemma next_text_find soup e :
  next_text soup e = find (fun s => nonempty (strip s)) (following_texts soup e).
Proof.
  unfold next_text, following_texts. generalize (next_elements soup e) as l.
  induction l as [|[p n] l IH]; [reflexivity|]. cbn [find flat_map snd].
  destruct n as [s|nm a cs]; cbn [app find].
  - destruct (nonempty (strip s)); [reflexivity | exact IH].
  - exact IH.
Qed.

Lemma find_first_nonblank blanks s rest :
  Forall is_blank blanks -> strip s <> [] ->
  find (fun s => nonempty (strip s)) (blanks ++ s :: rest) = Some s.
Proof.
  intros Hb Hs. induction Hb as [|b blanks Hb _ IH]; simpl.
  - destruct (strip s); [congruence | reflexivity].
  - unfold is_blank in Hb. rewrite Hb. simpl. exact IH.
Qed.

Lemma find_all_blank texts :
  Forall is_blank texts -> find (fun s => nonempty (strip s)) texts = None.
Proof.
  induction 1 as [|b texts Hb _ IH]; [reflexivity|]. simpl.
  unfold is_blank in Hb. rewrite Hb. simpl. exact IH.
Qed.

Lemma subtitle_of_rule soup pat t : subtitle_rule soup pat t (subtitle_of soup t pat).
Proof.
  unfold subtitle_rule, subtitle_of. cbn zeta. rewrite next_text_find. split.
  - intros blanks s rest E Hb Hs. rewrite E, (find_first_nonblank _ _ _ Hb Hs).
    destruct (looks_like_subtitle (strip s) pat) eqn:Hl.
    + apply looks_like_subtitle_iff in Hl. split; [tauto | contradiction].
    + assert (Hn : ~ passes_subtitle_heuristic (strip s) pat).
      { intros H. apply looks_like_subtitle_iff in H. congruence. }
      split; [|reflexivity]. split; [intros E'; symmetry in E'; contradiction | contradiction].
  - intros Hb. rewrite (find_all_blank _ Hb). reflexivity.
Qed.

(** *** The Page Parser, the extractor and the driver *)

Lemma forall2_map (B C : Type) (P : B -> C -> Prop) (f : B -> C) (l : list B) :
  (forall x, In x l -> P x (f x)) -> Forall2 P l (map f l).
Proof.
  induction l as [|x l IH]; intros H; simpl; constructor.
  - apply H. left. reflexivity.
  - apply IH. intros y Hy. apply H. right. exact Hy.
Qed.

Lemma split_head_spec (sep : ascii) (u : str) :
  let b := hd [] (split sep u) in
  ~ In sep b /\ (u = b \/ exists q, u = b ++ sep :: q).
Proof.
  induction u as [|c t IH]; simpl.
  - split; [tauto | left; reflexivity].
  - destruct (c =? sep)%char eqn:E.
    + apply Ascii.eqb_eq in E. subst c. simpl. split; [tauto | right; exists t; reflexivity].
    + apply Ascii.eqb_neq in E. cbn zeta in IH.
      destruct (split sep t) as [|h r] eqn:Hs; simpl in *.
      * destruct IH as [_ [-> | (q & ->)]].
        -- split; [intros [H | []]; congruence | left; reflexivity].
        -- split; [intros [H | []]; congruence | right; exists q; reflexivity].
      * destruct IH as [Hn [-> | (q & ->)]].
        -- split; [intros [H | H]; [congruence | tauto] | left; reflexivity].
        -- split; [intros [H | H]; [congruence | tauto] | right; exists q; reflexivity].
Qed.

Section ParserProperties.
Variable urljoin : str -> str -> str.
Variable get_soup : str -> exn + node.
Variable noscript_soup : list node -> option node.

(** The subtitle of a record is decided by the first non-blank string that
    follows the start of its title node in document order, the strings of
    the title node included, and by that string alone: the subtitle is that
    string, stripped, if and only if it passes the subtitle heuristic (not
    empty, no match of the title pattern, a length from 3 to 60, an
    upper-case first character); otherwise, and when no such string follows,
    the subtitle is empty. *)
Theorem subtitle_is_next_text_iff_heuristic suit url_path ev rs :
  parse_card_page urljoin get_soup noscript_soup suit url_path = (ev, inr rs) ->
  exists soup,
    get_soup (urljoin BASE url_path) = inr soup
    /\ Forall2 (fun title_el r =>
                  subtitle_rule soup (title_regex_for suit) title_el (subtitle r))
               (title_nodes (title_regex_for suit) soup) rs.
Proof.
  unfold parse_card_page.
  destruct (get_soup (urljoin BASE url_path)) as [e|soup]; [discriminate|].
  intros [= _ <-]. exists soup. split; [reflexivity|].
  apply forall2_map. intros t _. unfold card_of. cbn [subtitle]. apply subtitle_of_rule.
Qed.

(** C7.  The Asset URL Extractor maps every raw URL it harvests through the
    same filter.  A URL comes out exactly when some non-empty raw URL, cut
    at its first question mark, has a lower-cased form that contains none of
    logo, header, favicon, sprite and that ends in an image extension or
    contains /images/; what comes out is the cut URL joined to the base URL.
    The logo URL of the specification is dropped and its card picture is
    kept. *)
Theorem extractor_cleans_and_filters (el : elt) :
  _extract_img_url_from urljoin noscript_soup el
  = flat_map (clean_url urljoin) (harvest_urls noscript_soup el)
  /\ (forall v,
        In v (_extract_img_url_from urljoin noscript_soup el) <->
        exists u,
          In u (harvest_urls noscript_soup el)
          /\ u <> []
          /\ let base_u := hd [] (split "?" u) in
             ~ In "?"%char base_u
             /\ (u = base_u \/ exists q, u = base_u ++ "?"%char :: q)
             /\ (forall bad, In bad BAD_WORDS -> contains bad (lower base_u) = false)
             /\ (endswith_any IMAGE_EXTS (lower base_u) = true
                 \/ contains (L "/images/") (lower base_u) = true)
             /\ v = urljoin BASE base_u)
  /\ clean_url urljoin (L "https://cdn.site/logo_small.png") = []
  /\ clean_url urljoin (L "https://cdn.site/images/AceOfWands_forWeb.jpg")
     = [urljoin BASE (L "https://cdn.site/images/AceOfWands_forWeb.jpg")]
  /\ _extract_img_url_from urljoin noscript_soup chrome_block
     = [urljoin BASE (L "https://cdn.site/images/AceOfWands_forWeb.jpg")].
Proof.
  split; [reflexivity|]. split; [|repeat split; reflexivity].
  intros v. unfold _extract_img_url_from. rewrite in_flat_map. split.
  - intros (u & Hu & Hv). exists u. split; [exact Hu|].
    unfold clean_url in Hv. destruct u as [|c t]; [destruct Hv|].
    cbn [nonempty negb] in Hv. split; [discriminate|]. cbn zeta.
    destruct (split_head_spec "?" (c :: t)) as [Hq Hs]. cbn zeta in Hq, Hs.
    set (base_u := hd [] (split "?" (c :: t))) in *.
    destruct (existsb (fun bad => contains bad (lower base_u)) BAD_WORDS) eqn:Hbad;
      [destruct Hv|].
    destruct (endswith_any IMAGE_EXTS (lower base_u) || contains (L "/images/") (lower base_u))
      eqn:Hkeep; [|destruct Hv].
    destruct Hv as [<- | []]. repeat split; auto.
    + intros bad Hin. destruct (contains bad (lower base_u)) eqn:F; [|reflexivity].
      assert (existsb (fun bad => contains bad (lower base_u)) BAD_WORDS = true)
        by (apply existsb_exists; exists bad; auto).
      congruence.
    + apply orb_true_iff, Hkeep.
  - intros (u & Hu & Hne & H). cbn zeta in H. destruct H as (_ & _ & Hbad & Hkeep & ->).
    exists u. split; [exact Hu|]. unfold clean_url.
    destruct u as [|c t]; [congruence|]. cbn [nonempty negb].
    set (base_u := hd [] (split "?" (c :: t))) in *.
    assert (E : existsb (fun bad => contains bad (lower base_u)) BAD_WORDS = false).
    { destruct (existsb _ BAD_WORDS) eqn:F; [|reflexivity].
      apply existsb_exists in F. destruct F as (bad & Hin & F).
      rewrite (Hbad _ Hin) in F. discriminate. }
    rewrite E. apply orb_true_iff in Hkeep. rewrite Hkeep. left. reflexivity.
Qed.

(** C9.  On a fetched page on which the title scan retains no node, the
    Page Parser returns the empty list of records, not an exception, after
    it has printed the warning. *)
Theorem no_titles_gives_empty_list_and_warning suit url_path soup :
  get_soup (urljoin BASE url_path) = inr soup ->
  title_nodes (title_regex_for suit) soup = [] ->
  parse_card_page urljoin get_soup noscript_soup suit url_path
  = ([EPrint (no_cards_warning (urljoin BASE url_path)); ESleep], inr []).
Proof.
  intros Hs Ht. unfold parse_card_page. rewrite Hs, Ht. reflexivity.
Qed.

Lemma parse_card_page_suit suit url_path ev rs r :
  parse_card_page urljoin get_soup noscript_soup suit url_path = (ev, inr rs) ->
  In r rs -> suit_arcana r = suit.
Proof.
  intros Hp Hr.
  destruct (parse_card_page_records _ _ _ _ _ _ _ _ Hp Hr) as (soup & t & _ & _ & ->).
  reflexivity.
Qed.

Lemma scrape_all_suits r :
  In r (snd (scrape_all urljoin get_soup noscript_soup)) ->
  In (suit_arcana r) (map fst PAGES).
Proof.
  unfold scrape_all.
  assert (H : forall pages acc,
             (forall p, In p pages -> In (fst p) (map fst PAGES)) ->
             (forall r, In r (snd acc) -> In (suit_arcana r) (map fst PAGES)) ->
             forall r, In r (snd (fold_left (scrape_section urljoin get_soup noscript_soup)
                                            pages acc)) ->
                       In (suit_arcana r) (map fst PAGES)).
  { induction pages as [|[suit path_] pages IH]; intros acc Hp Hacc; [exact Hacc|].
    cbn [fold_left]. apply IH; [intros p Hin; apply Hp; right; exact Hin|].
    destruct acc as [ev rows]. unfold scrape_section.
    destruct (parse_card_page urljoin get_soup noscript_soup suit path_) as [ev' [e|rs]] eqn:Hpp;
      cbn [snd] in *; [exact Hacc|].
    intros r' Hr'. apply in_app_or in Hr'. destruct Hr' as [Hr' | Hr']; [apply Hacc, Hr'|].
    rewrite (parse_card_page_suit _ _ _ _ _ Hpp Hr').
    apply (Hp (suit, path_)). left. reflexivity. }
  apply H; [intros p Hp; apply in_map, Hp | intros r' []].
Qed.

(** The sort of the driver never fails on the records it aggregated; its
    result is a permutation of them, ordered by the key (order of the
    section, then, in a suit, the number of the rank word the title begins
    with in exact case, Ace = 1 to King = 14; 0 for every Major Arcana
    record, which therefore keep the order in which they were found).  Hence
    no Wands record comes before a Major Arcana record and a record titled
    King of Wands, so spelled, does not come before one titled Ace of
    Wands. *)
Theorem rows_sorted_by_section_then_rank :
  exists out,
    main_rows urljoin get_soup noscript_soup = Some out
    /\ Permutation (snd (scrape_all urljoin get_soup noscript_soup)) out
    /\ StronglySorted key_le out
    /\ filter is_major out
       = filter is_major (snd (scrape_all urljoin get_soup noscript_soup))
    /\ (forall r, is_major r = true -> sort_key r = Some (0, 0))
    /\ (forall r s o w v rest,
          suit_arcana r = s -> str_eqb s (L "Major Arcana") = false ->
          dict_get s order_key = Some o ->
          In (w, v) num_map -> card r = w ++ rest ->
          sort_key r = Some (o, v))
    /\ (forall l1 a l2 b l3,
          out = l1 ++ a :: l2 ++ b :: l3 ->
          ~ (suit_arcana a = L "Wands" /\ suit_arcana b = L "Major Arcana"))
    /\ (forall l1 a l2 b l3,
          out = l1 ++ a :: l2 ++ b :: l3 ->
          ~ (suit_arcana a = L "Wands" /\ card a = L "King of Wands"
             /\ suit_arcana b = L "Wands" /\ card b = L "Ace of Wands")).
Proof.
  destruct (sort_rows_total _ (scrape_all_suits)) as [out Hout].
  exists out. split; [exact Hout|].
  destruct (sort_rows_spec _ _ Hout) as (Hperm & Hsorted & Hstable).
  split; [exact Hperm|]. split; [exact Hsorted|]. split; [exact Hstable|].
  split; [exact sort_key_major|]. split; [exact sort_key_rank|]. split.
  - intros l1 a l2 b l3 E [Ha Hb]. rewrite E in Hsorted.
    apply strongly_sorted_split in Hsorted. destruct Hsorted as (ka & kb & Ka & Kb & Hle).
    unfold sort_key in Ka, Kb. rewrite Ha in Ka. rewrite Hb in Kb.
    injection Ka as <-. injection Kb as <-. discriminate.
  - intros l1 a l2 b l3 E (Ha & Ca & Hb & Cb). rewrite E in Hsorted.
    apply strongly_sorted_split in Hsorted. destruct Hsorted as (ka & kb & Ka & Kb & Hle).
    unfold sort_key in Ka, Kb. rewrite Ha, Ca in Ka. rewrite Hb, Cb in Kb.
    injection Ka as <-. injection Kb as <-. discriminate.
Qed.

End ParserProperties.

(** *** The filename tokens of the ace *)

(** C3, as stated, fails: the tokens of Ace of Wands do not include both
    aceofwands and 1ofwands. *)
Lemma ace_of_wands_has_no_digit_token :
  ~ (In (L "aceofwands") (card_filename_tokens (L "Ace of Wands") (L "Wands"))
     /\ In (L "1ofwands") (card_filename_tokens (L "Ace of Wands") (L "Wands"))).
Proof. intros [_ H]. vm_compute in H. destruct H as [H | []]. discriminate. Qed.

(** C3, amended.  For the title Ace of Wands in the section Wands the
    Filename Token Deriver returns exactly the token aceofwands: the list
    includes aceofwands and does not include 1ofwands.  A digit token is
    produced for the ranks that NUMERIC_RANK lists: Two of Wands gives
    2ofwands and Ten of Wands gives 10ofwands. *)
Theorem ace_of_wands_tokens :
  card_filename_tokens (L "Ace of Wands") (L "Wands") = [L "aceofwands"]
  /\ In (L "aceofwands") (card_filename_tokens (L "Ace of Wands") (L "Wands"))
  /\ ~ In (L "1ofwands") (card_filename_tokens (L "Ace of Wands") (L "Wands"))
  /\ card_filename_tokens (L "Two of Wands") (L "Wands") = [L "twoofwands"; L "2ofwands"]
  /\ card_filename_tokens (L "Ten of Wands") (L "Wands") = [L "tenofwands"; L "10ofwands"].
Proof.
  split; [reflexivity|]. split; [left; reflexivity|]. split; [|split; reflexivity].
  intros H. vm_compute in H. destruct H as [H | []]. discriminate.
Qed.

(** *** The order of the page *)

Lemma node_induction (P : node -> Prop) :
  (forall s, P (Text s)) ->
  (forall nm a cs, Forall P cs -> P (Tag nm a cs)) ->
  forall n, P n.
Proof.
  intros Htext Htag. fix IH 1. intros [s|nm a cs]; [apply Htext|].
  apply Htag. induction cs as [|c cs IHcs]; constructor; [apply IH | exact IHcs].
Qed.

Lemma descendants_at_tag p nm a cs : descendants_at p (Tag nm a cs) = kids_at p 0 cs.
Proof.
  cbn [descendants_at]. generalize 0 as i.
  induction cs as [|c cs IH]; intros i; [reflexivity|].
  cbn [kids_at]. rewrite <- IH. reflexivity.
Qed.

(** The paths below a node extend the path of the node. *)
Lemma descendants_paths n :
  forall p e, In e (descendants_at p n) -> exists j r, fst e = p ++ j :: r.
Proof.
  induction n as [s|nm a cs IH] using node_induction; intros p e; [intros []|].
  rewrite descendants_at_tag. generalize 0 as i.
  induction cs as [|c cs IHcs]; intros i; [intros []|].
  inversion IH as [|? ? Hc Hcs]; subst. cbn [kids_at].
  intros [<- | Hin].
  - exists i, []. reflexivity.
  - apply in_app_or in Hin. destruct Hin as [Hin | Hin].
    + destruct (Hc _ _ Hin) as (j & r & E). exists i, (j :: r).
      rewrite E, <- app_assoc. reflexivity.
    + apply (IHcs Hcs (S i)), Hin.
Qed.

Lemma kids_paths p l :
  forall i e, In e (kids_at p i l) -> exists j r, i <= j /\ fst e = p ++ j :: r.
Proof.
  induction l as [|c l IH]; intros i e; [intros []|]. cbn [kids_at].
  intros [<- | Hin].
  - exists i, []. split; [lia | reflexivity].
  - apply in_app_or in Hin. destruct Hin as [Hin | Hin].
    + destruct (descendants_paths _ _ _ Hin) as (j & r & E). exists i, (j :: r).
      split; [lia|]. rewrite E, <- app_assoc. reflexivity.
    + destruct (IH _ _ Hin) as (j & r & Hj & E). exists j, r. split; [lia | exact E].
Qed.

Lemma path_extension_differs (p : path) i j r r' :
  i <> j -> p ++ i :: r <> p ++ j :: r'.
Proof. intros Hij E. apply app_inv_head in E. congruence. Qed.

Lemma path_proper_extension (p : path) j r : p <> p ++ j :: r.
Proof.
  intros E. apply (f_equal (@length nat)) in E. rewrite length_app in E. simpl in E. lia.
Qed.

(** An element of a page is followed at once by its own descendants, and no
    element before it has its path. *)
Lemma descendants_split n :
  forall p e, In e (descendants_at p n) ->
    exists pre post,
      descendants_at p n = pre ++ e :: descendants_at (fst e) (snd e) ++ post
      /\ forall d, In d pre -> fst d <> fst e.
Proof.
  induction n as [s|nm a cs IH] using node_induction; intros p e; [intros []|].
  rewrite descendants_at_tag. generalize 0 as i.
  induction cs as [|c cs IHcs]; intros i; [intros []|].
  inversion IH as [|? ? Hc Hcs]; subst. cbn [kids_at].
  intros [<- | Hin].
  - exists [], (kids_at p (S i) cs). split; [reflexivity | intros d []].
  - apply in_app_or in Hin. destruct Hin as [Hin | Hin].
    + destruct (Hc _ _ Hin) as (pre & post & E & Hpre).
      exists ((p ++ [i], c) :: pre), (post ++ kids_at p (S i) cs). split.
      * rewrite E. norm_app. reflexivity.
      * intros d [<- | Hd]; [|apply Hpre, Hd]. cbn [fst].
        destruct (descendants_paths _ _ _ Hin) as (j & r & ->).
        apply path_proper_extension.
    + destruct (IHcs Hcs (S i) Hin) as (pre & post & E & Hpre).
      destruct (kids_paths _ _ _ _ Hin) as (j & r & Hj & Ej).
      exists ((p ++ [i], c) :: descendants_at (p ++ [i]) c ++ pre), post. split.
      * rewrite E. norm_app. reflexivity.
      * intros d [<- | Hd].
        -- cbn [fst]. rewrite Ej. apply path_extension_differs. lia.
        -- apply in_app_or in Hd. destruct Hd as [Hd | Hd]; [|apply Hpre, Hd].
           destruct (descendants_paths _ _ _ Hd) as (j' & r' & ->). rewrite Ej.
           rewrite <- app_assoc. cbn [app]. apply path_extension_differs. lia.
Qed.

Lemma after_split p pre e post :
  fst e = p -> (forall d, In d pre -> fst d <> p) -> after p (pre ++ e :: post) = post.
Proof.
  intros He Hpre. induction pre as [|d pre IH]; cbn [app after].
  - unfold path_eqb. destruct (list_eq_dec Nat.eq_dec (fst e) p); [reflexivity | contradiction].
  - unfold path_eqb. destruct (list_eq_dec Nat.eq_dec (fst d) p) as [E|_].
    + exfalso. apply (Hpre d); [left; reflexivity | exact E].
    + apply IH. intros d' Hd'. apply Hpre. right. exact Hd'.
Qed.

(** What comes after an element of a page begins with its descendants. *)
Lemma next_elements_own root e :
  In e (descendants_at [] root) ->
  exists post, next_elements root e = descendants_at (fst e) (snd e) ++ post.
Proof.
  intros Hin. destruct (descendants_split _ _ _ Hin) as (pre & post & E & Hpre).
  exists post. unfold next_elements.
  destruct (descendants_paths _ _ _ Hin) as (j & r & Ep). rewrite Ep at 1. cbn [app].
  rewrite E. apply after_split; [reflexivity | exact Hpre].
Qed.

Lemma texts_of_app l1 l2 : texts_of (l1 ++ l2) = texts_of l1 ++ texts_of l2.
Proof. apply flat_map_app. Qed.

Lemma texts_of_cons e l :
  texts_of (e :: l) = match snd e with Text s => [s] | Tag _ _ _ => [] end ++ texts_of l.
Proof. reflexivity. Qed.

(** The strings below a node do not depend on where the node is. *)
Lemma texts_of_descendants n :
  forall p q, texts_of (descendants_at p n) = texts_of (descendants_at q n).
Proof.
  induction n as [s|nm a cs IH] using node_induction; intros p q; [reflexivity|].
  rewrite !descendants_at_tag. generalize 0 as i.
  induction cs as [|c cs IHcs]; intros i; [reflexivity|].
  inversion IH as [|? ? Hc Hcs]; subst. cbn [kids_at].
  rewrite !texts_of_cons, !texts_of_app, (Hc (p ++ [i]) (q ++ [i])), (IHcs Hcs (S i)).
  reflexivity.
Qed.

Lemma find_app_some (B : Type) (f : B -> bool) l1 l2 x :
  find f l1 = Some x -> find f (l1 ++ l2) = Some x.
Proof.
  induction l1 as [|y l1 IH]; simpl; [discriminate|].
  destruct (f y); [tauto | exact IH].
Qed.

Lemma descendants_trans root c e :
  (c = ([], root) \/ In c (descendants_at [] root)) ->
  In e (descendants c) -> In e (descendants_at [] root).
Proof.
  intros [-> | Hc] He; [exact He|].
  destruct (descendants_split _ _ _ Hc) as (pre & post & E & _).
  rewrite E. apply in_or_app. right. right. apply in_or_app. left. exact He.
Qed.

Lemma content_of_in_page soup :
  content_of soup = ([], soup) \/ In (content_of soup) (descendants_at [] soup).
Proof.
  unfold content_of, select_one.
  destruct (find_all _ ([], soup)) as [|c l] eqn:E; cbn [hd_error]; [left; reflexivity|].
  right. assert (H : In c (find_all (fun n => existsb (sel_matches n) CONTENT_SELECTOR)
                             ([], soup))) by (rewrite E; left; reflexivity).
  unfold find_all in H. apply filter_In in H. apply H.
Qed.

(** For a retained title node the string that decides the subtitle is the
    first non-blank string of the title node itself. *)
Lemma title_next_text_is_own pat soup t :
  In t (title_nodes pat soup) ->
  exists s,
    find (fun s => nonempty (strip s)) (all_strings (snd t)) = Some s
    /\ next_text soup t = Some s.
Proof.
  intros Ht. pose proof (title_nodes_is_title _ _ _ Ht) as Htitle.
  unfold title_nodes in Ht. apply filter_In in Ht. destruct Ht as [Ht _].
  unfold find_all in Ht. apply filter_In in Ht. destruct Ht as [Ht _].
  apply (descendants_trans soup _ _ (content_of_in_page soup)) in Ht.
  assert (Hown : exists s, find (fun s => nonempty (strip s)) (all_strings (snd t)) = Some s).
  { unfold is_title, get_text in Htitle. apply andb_true_iff in Htitle.
    destruct Htitle as [Hne _].
    destruct (filter nonempty (map strip (all_strings (snd t)))) as [|x l] eqn:F;
      [discriminate|].
    assert (Hx : In x (filter nonempty (map strip (all_strings (snd t)))))
      by (rewrite F; left; reflexivity).
    apply filter_In in Hx. destruct Hx as [Hx Hnx]. apply in_map_iff in Hx.
    destruct Hx as (s0 & <- & Hs0).
    destruct (find (fun s => nonempty (strip s)) (all_strings (snd t))) as [s|] eqn:Hf;
      [exists s; reflexivity|].
    pose proof (find_none _ _ Hf _ Hs0) as Hno. cbv beta in Hno. congruence. }
  destruct Hown as [s Hs]. exists s. split; [exact Hs|].
  rewrite next_text_find. unfold following_texts.
  destruct (next_elements_own _ _ Ht) as [post ->].
  fold (texts_of (descendants_at (fst t) (snd t) ++ post)).
  rewrite texts_of_app. apply find_app_some.
  rewrite (texts_of_descendants _ (fst t) []). exact Hs.
Qed.

(** *** The index of the title *)

Lemma index_of_first (B : Type) (f : B -> bool) l1 n l2 :
  f n = true -> (forall m, In m l1 -> f m = false) ->
  index_of f (l1 ++ n :: l2) = Some (length l1).
Proof.
  intros Hn Hl. induction l1 as [|m l1 IH]; cbn [app index_of length].
  - rewrite Hn. reflexivity.
  - rewrite (Hl m (or_introl eq_refl)).
    rewrite IH by (intros m' Hm'; apply Hl; right; exact Hm'). reflexivity.
Qed.

(** [title_index] is the place of the first tag of the region that equals
    the title element. *)
Lemma title_index_first_equal soup title_el l1 n l2 :
  region_nodes soup title_el = l1 ++ n :: l2 ->
  node_eqb (snd n) (snd title_el) = true ->
  (forall m, In m l1 -> node_eqb (snd m) (snd title_el) = false) ->
  title_index soup title_el = length l1.
Proof.
  intros E Hn Hl. unfold title_index. cbv zeta. rewrite E.
  erewrite index_of_first; [reflexivity | exact Hn | exact Hl].
Qed.

(** On the sample page the string examined for the first card is the title
    itself, and for the second card, whose title is split over two strings,
    it is the first half of the title. *)
Lemma sample_subtitles :
  hd_error (following_texts wands_page ace_title) = Some (L "Ace of Wands")
  /\ subtitle_of wands_page ace_title (title_regex_for (L "Wands")) = []
  /\ subtitle_of (page [tag "h2" [tag "span" [Text (L "Two")]; Text (L " of Wands")];
                        tag "p" [Text (L "Planning")]])
                 ([0; 0; 0; 0], tag "h2" [tag "span" [Text (L "Two")]; Text (L " of Wands")])
                 (title_regex_for (L "Wands")) = L "Two".
Proof. repeat split; reflexivity. Qed.

(** *** The properties at the sample pages *)

Lemma sample_page_best_candidate :
  candidates_of sample_urljoin sample_noscript wands_page two_title <> []
  /\ exists best,
       In best (candidates_of sample_urljoin sample_noscript wands_page two_title)
       /\ nearest_card_image_url sample_urljoin sample_noscript wands_page two_title
            (L "Two of Wands") (L "Wands") = Some (snd best)
       /\ fst best < title_index wands_page two_title.
Proof.
  assert (Hne : candidates_of sample_urljoin sample_noscript wands_page two_title <> [])
    by (vm_compute; discriminate).
  split; [exact Hne|].
  pose proof (nearest_image_is_best_candidate sample_urljoin sample_noscript
                wands_page two_title (L "Two of Wands") (L "Wands")) as H.
  cbv zeta in H. destruct H as [_ H].
  destruct (H Hne) as (best & l1 & l2 & E & R & _ & _ & B).
  exists best. split; [rewrite E; apply in_elt|]. split; [exact R|].
  apply (B (0, L "https://www.thismighthurttarot.com/images/AceOfWands_forWeb.jpg")).
  - vm_compute. left. reflexivity.
  - vm_compute. lia.
Defined.

Lemma sample_page_subtitles :
  exists ev rs,
    parse_card_page sample_urljoin sample_get_soup sample_noscript (L "Wands") (L "/wands")
    = (ev, inr rs)
    /\ exists soup,
         sample_get_soup (sample_urljoin BASE (L "/wands")) = inr soup
         /\ Forall2 (fun title_el r =>
                       subtitle_rule soup (title_regex_for (L "Wands")) title_el (subtitle r))
                    (title_nodes (title_regex_for (L "Wands")) soup) rs.
Proof.
  destruct (parse_card_page sample_urljoin sample_get_soup sample_noscript
              (L "Wands") (L "/wands")) as [ev [e|rs]] eqn:H.
  - exfalso. vm_compute in H. discriminate.
  - exists ev, rs. split; [reflexivity|].
    exact (subtitle_is_next_text_iff_heuristic sample_urljoin sample_get_soup
             sample_noscript (L "Wands") (L "/wands") ev rs H).
Defined.

Lemma sample_page_card_title :
  exists ev rs r,
    In (L "Wands") (map fst PAGES)
    /\ parse_card_page sample_urljoin sample_get_soup sample_noscript (L "Wands") (L "/wands")
       = (ev, inr rs)
    /\ In r rs
    /\ suit_arcana r = L "Wands"
    /\ is_some (re_fullmatch (title_regex_for (L "Wands")) (card r)) = true.
Proof.
  assert (Hs : In (L "Wands") (map fst PAGES)) by (simpl; tauto).
  destruct (parse_card_page sample_urljoin sample_get_soup sample_noscript
              (L "Wands") (L "/wands")) as [ev [e|[|r rs]]] eqn:H.
  - exfalso. vm_compute in H. discriminate.
  - exfalso. vm_compute in H. discriminate.
  - exists ev, (r :: rs), r. split; [exact Hs|]. split; [reflexivity|].
    split; [left; reflexivity|].
    exact (card_fullmatches_title_pattern sample_urljoin sample_get_soup sample_noscript
             (L "Wands") (L "/wands") ev (r :: rs) r Hs H (or_introl eq_refl)).
Defined.

(** C6, as stated, fails: with one candidate two tags before the title and
    one two tags after it, the one before the title is returned although
    only the other one carries a token. *)
Lemma equidistant_token_rule_fails :
  ~ equidistant_token_rule sample_urljoin sample_noscript equidistant_page ace_title
      (L "Ace of Wands") (L "Wands").
Proof.
  intros H.
  assert (E : nearest_card_image_url sample_urljoin sample_noscript equidistant_page
                ace_title (L "Ace of Wands") (L "Wands") = Some (snd named_candidate)).
  { apply (H named_candidate unnamed_candidate).
    - right. vm_compute. reflexivity.
    - vm_compute. reflexivity.
    - vm_compute. reflexivity.
    - vm_compute. reflexivity. }
  vm_compute in E. discriminate.
Qed.

Lemma paired_page_token_decides :
  (candidates_of sample_urljoin sample_noscript paired_page ace_title
   = [paired_named; unnamed_candidate]
   \/ candidates_of sample_urljoin sample_noscript paired_page ace_title
      = [unnamed_candidate; paired_named])
  /\ Z.abs (Z.of_nat (fst paired_named) - Z.of_nat (title_index paired_page ace_title))
     = Z.abs (Z.of_nat (fst unnamed_candidate) - Z.of_nat (title_index paired_page ace_title))
  /\ (fst paired_named <? title_index paired_page ace_title)
     = (fst unnamed_candidate <? title_index paired_page ace_title)
  /\ has_token (card_filename_tokens (L "Ace of Wands") (L "Wands")) (snd paired_named) = true
  /\ has_token (card_filename_tokens (L "Ace of Wands") (L "Wands")) (snd unnamed_candidate)
     = false
  /\ nearest_card_image_url sample_urljoin sample_noscript paired_page ace_title
       (L "Ace of Wands") (L "Wands") = Some (snd paired_named).
Proof.
  assert (H1 : candidates_of sample_urljoin sample_noscript paired_page ace_title
               = [paired_named; unnamed_candidate]
               \/ candidates_of sample_urljoin sample_noscript paired_page ace_title
                  = [unnamed_candidate; paired_named])
    by (right; vm_compute; reflexivity).
  assert (H2 : Z.abs (Z.of_nat (fst paired_named) - Z.of_nat (title_index paired_page ace_title))
               = Z.abs (Z.of_nat (fst unnamed_candidate)
                        - Z.of_nat (title_index paired_page ace_title)))
    by (vm_compute; reflexivity).
  assert (H3 : (fst paired_named <? title_index paired_page ace_title)
               = (fst unnamed_candidate <? title_index paired_page ace_title))
    by (vm_compute; reflexivity).
  assert (H4 : has_token (card_filename_tokens (L "Ace of Wands") (L "Wands"))
                 (snd paired_named) = true) by (vm_compute; reflexivity).
  assert (H5 : has_token (card_filename_tokens (L "Ace of Wands") (L "Wands"))
                 (snd unnamed_candidate) = false) by (vm_compute; reflexivity).
  repeat (split; [assumption|]).
  exact (same_side_equidistant_token_wins sample_urljoin sample_noscript paired_page
           ace_title (L "Ace of Wands") (L "Wands") paired_named unnamed_candidate
           H1 H2 H3 H4 H5).
Defined.

Lemma empty_page_warning :
  empty_get_soup (sample_urljoin BASE (L "/cups")) = inr empty_page
  /\ title_nodes (title_regex_for (L "Cups")) empty_page = []
  /\ parse_card_page sample_urljoin empty_get_soup sample_noscript (L "Cups") (L "/cups")
     = ([EPrint (no_cards_warning (sample_urljoin BASE (L "/cups"))); ESleep], inr []).
Proof.
  assert (H1 : empty_get_soup (sample_urljoin BASE (L "/cups")) = inr empty_page)
    by reflexivity.
  assert (H2 : title_nodes (title_regex_for (L "Cups")) empty_page = [])
    by (vm_compute; reflexivity).
  split; [exact H1|]. split; [exact H2|].
  exact (no_titles_gives_empty_list_and_warning sample_urljoin empty_get_soup sample_noscript
           (L "Cups") (L "/cups") empty_page H1 H2).
Defined.

Lemma sample_page_description :
  exists ev rs r,
    parse_card_page sample_urljoin sample_get_soup sample_noscript (L "Wands") (L "/wands")
    = (ev, inr rs)
    /\ In r rs
    /\ description r
       = join [nl] (map text_clean [L "Creation"; L "First  para."; L "Second para."])
    /\ forall u v, description r <> u ++ nl :: nl :: v.
Proof.
  destruct (parse_card_page sample_urljoin sample_get_soup sample_noscript
              (L "Wands") (L "/wands")) as [ev [e|[|r rs]]] eqn:H.
  - exfalso. vm_compute in H. discriminate.
  - exfalso. vm_compute in H. discriminate.
  - exists ev, (r :: rs), r. split; [reflexivity|]. split; [left; reflexivity|].
    destruct (proj2 (description_one_newline_between_paragraphs sample_urljoin
                       sample_get_soup sample_noscript)
                    (L "Wands") (L "/wands") ev (r :: rs) r H (or_introl eq_refl))
      as (soup & t & _ & _ & _ & _ & Hno).
    split; [|exact Hno].
    vm_compute in H. injection H as _ <- _. vm_compute. reflexivity.
Defined.

(** *** Where the program departs from its description *)

(** C1.  The resolver takes as the place of the title the first tag of the
    region that equals the title element, not the title element itself.
    On [twin_page] the second title is the tag 5 of its region and both
    pictures stand before it, [near_picture] two tags and [far_picture]
    four tags away: by the key (before flag, negated distance, token score)
    taken from the place of the title, [near_picture] comes first.  The
    index the resolver computes is 0, that of the equal tag in front; no
    picture counts as standing before the title, the distances are taken
    from the wrong tag, and the URL of [far_picture] is returned. *)
Theorem equal_tag_in_front_misplaces_the_title :
  In second_twin (title_nodes (title_regex_for (L "Wands")) twin_page)
  /\ nth_error (region_nodes twin_page second_twin) 5 = Some second_twin
  /\ candidates_of sample_urljoin sample_noscript twin_page second_twin
     = [far_picture; near_picture]
  /\ py_sorted triple_ltb (score ace_tokens 5) true [far_picture; near_picture]
     = [near_picture; far_picture]
  /\ title_index twin_page second_twin = 0
  /\ score ace_tokens (title_index twin_page second_twin) near_picture = (0, -3, 3)%Z
  /\ score ace_tokens (title_index twin_page second_twin) far_picture = (0, -1, 3)%Z
  /\ nearest_card_image_url sample_urljoin sample_noscript twin_page second_twin
       (L "Ace of Wands") (L "Wands") = Some (snd far_picture).
Proof.
  split; [vm_compute; right; left; reflexivity|].
  repeat split; vm_compute; reflexivity.
Qed.

(** C2.  The string examined for the subtitle is the first one after the
    start of the title node, which is the text of the title node itself,
    not the first text that follows the title node.  On [wands_page] the
    title Ace of Wands is followed by the text Creation, which passes the
    subtitle heuristic; the string examined is Ace of Wands, which matches
    the title pattern, and the subtitle of the record is empty. *)
Theorem own_text_is_examined_for_the_subtitle :
  In ace_title (title_nodes (title_regex_for (L "Wands")) wands_page)
  /\ find (fun s => nonempty (strip s)) (texts_after wands_page ace_title)
     = Some (L "Creation")
  /\ looks_like_subtitle (L "Creation") (title_regex_for (L "Wands")) = true
  /\ next_text wands_page ace_title = Some (L "Ace of Wands")
  /\ subtitle_of wands_page ace_title (title_regex_for (L "Wands")) = []
  /\ exists ev r rs,
       parse_card_page sample_urljoin sample_get_soup sample_noscript (L "Wands") (L "/wands")
       = (ev, inr (r :: rs))
       /\ card r = L "Ace of Wands" /\ subtitle r = [].
Proof.
  split; [vm_compute; left; reflexivity|].
  do 4 (split; [vm_compute; reflexivity|]).
  destruct (parse_card_page sample_urljoin sample_get_soup sample_noscript
              (L "Wands") (L "/wands")) as [ev [e|[|r rs]]] eqn:H;
    try (exfalso; vm_compute in H; discriminate).
  exists ev, r, rs. split; [reflexivity|].
  vm_compute in H. injection H as _ <- _. split; reflexivity.
Qed.

(** C8.  The rank of a row is looked for in exact case, the titles are
    recognised in every case.  On [capitals_page] the parser gives the
    records KING OF WANDS and ACE OF WANDS, in the order of the page; both
    get the key (1, 99), no rank being found, and the sort leaves the King
    before the Ace. *)
Theorem titles_in_capitals_are_not_ranked :
  (exists ev rs,
     parse_card_page sample_urljoin capitals_get_soup sample_noscript (L "Wands") (L "/wands")
     = (ev, inr rs)
     /\ map card rs = [L "KING OF WANDS"; L "ACE OF WANDS"]
     /\ map sort_key rs = [Some (1, 99); Some (1, 99)])
  /\ option_map (map card) (main_rows sample_urljoin capitals_get_soup sample_noscript)
     = Some [L "KING OF WANDS"; L "ACE OF WANDS"].
Proof.
  split; [|vm_compute; reflexivity].
  destruct (parse_card_page sample_urljoin capitals_get_soup sample_noscript
              (L "Wands") (L "/wands")) as [ev [e|rs]] eqn:H;
    [exfalso; vm_compute in H; discriminate|].
  exists ev, rs. split; [reflexivity|].
  vm_compute in H. injection H as _ <-. split; reflexivity.
Qed.

(* ================================================================== *)
(** ** Further properties *)

(** *** The Text Normalizer keeps the visible characters *)

Lemma filter_visible_cons_ws (c : ascii) (t : str) :
  isspace c = true -> filter is_visible (c :: t) = filter is_visible t.
Proof. intros H. cbn [filter]. unfold is_visible at 1. rewrite H. reflexivity. Qed.

Lemma filter_visible_skipn (n : nat) (t : str) :
  forallb isspace (firstn n t) = true ->
  filter is_visible (skipn n t) = filter is_visible t.
Proof.
  revert t. induction n as [|n IH]; intros t H; [reflexivity|].
  destruct t as [|c t]; [reflexivity|].
  cbn [firstn forallb] in H. apply andb_true_iff in H. destruct H as [Hc H].
  cbn [skipn]. rewrite (filter_visible_cons_ws _ _ Hc). apply IH, H.
Qed.

Lemma firstn_run (p : ascii -> bool) (t : str) : forallb p (firstn (run p t) t) = true.
Proof.
  induction t as [|c t IH]; [reflexivity|]. cbn [run].
  destruct (p c) eqn:Hc; [|reflexivity]. cbn [firstn forallb]. rewrite Hc. exact IH.
Qed.

Lemma firstn_last_nl (t : str) (j : nat) :
  last_nl t = Some j -> forallb isspace (firstn j t) = true.
Proof.
  revert j. induction t as [|c t IH]; intros j; [discriminate|].
  cbn [last_nl]. destruct (isspace c) eqn:Hc; [|discriminate].
  destruct (last_nl t) as [j'|].
  - intros [= <-]. cbn [firstn forallb]. rewrite Hc. apply IH. reflexivity.
  - destruct (is_nl c); [|discriminate]. intros [= <-].
    cbn [firstn forallb]. rewrite Hc. reflexivity.
Qed.

Lemma hspace_forall_isspace (u : str) : forallb hspace u = true -> forallb isspace u = true.
Proof.
  induction u as [|c u IH]; [reflexivity|]. cbn [forallb].
  rewrite !andb_true_iff. intros [Hc Hu]. split; [apply hspace_isspace, Hc | apply IH, Hu].
Qed.

Lemma filter_visible_sub_hspace (s : str) :
  filter is_visible (sub_hspace s) = filter is_visible s.
Proof.
  induction s as [s IH] using str_len_ind. destruct s as [|c t]; [reflexivity|].
  rewrite sub_hspace_cons. destruct (hspace c) eqn:Hc.
  - rewrite (filter_visible_cons_ws c) by (apply hspace_isspace, Hc).
    rewrite (filter_visible_cons_ws " ") by reflexivity.
    rewrite IH by (simpl; pose proof (length_skipn_le (run hspace t) t); lia).
    apply filter_visible_skipn, hspace_forall_isspace, firstn_run.
  - cbn [filter]. rewrite IH by (simpl; lia). reflexivity.
Qed.

Lemma filter_visible_sub_ws_nl (s : str) :
  filter is_visible (sub_ws_nl s) = filter is_visible s.
Proof.
  induction s as [s IH] using str_len_ind. destruct s as [|c t]; [reflexivity|].
  assert (Hgo : filter is_visible (c :: sub_ws_nl t) = filter is_visible (c :: t)).
  { cbn [filter]. rewrite IH by (simpl; lia). reflexivity. }
  rewrite sub_ws_nl_cons'. destruct (isspace c) eqn:Hc; [|exact Hgo].
  destruct (last_nl t) as [j|] eqn:Hl; [|exact Hgo].
  rewrite (filter_visible_cons_ws c) by exact Hc.
  rewrite (filter_visible_cons_ws nl) by reflexivity.
  rewrite IH by (simpl; pose proof (length_skipn_le j t); lia).
  apply filter_visible_skipn, firstn_last_nl, Hl.
Qed.

Lemma filter_visible_lstrip (s : str) : filter is_visible (lstrip s) = filter is_visible s.
Proof.
  induction s as [|c t IH]; [reflexivity|]. cbn [lstrip].
  destruct (isspace c) eqn:Hc; [|reflexivity].
  rewrite (filter_visible_cons_ws _ _ Hc). exact IH.
Qed.

Lemma filter_visible_strip (s : str) : filter is_visible (strip s) = filter is_visible s.
Proof.
  unfold strip, rstrip. rewrite filter_rev, filter_visible_lstrip, <- filter_rev.
  rewrite rev_involutive. apply filter_visible_lstrip.
Qed.

Lemma length_sub_hspace (s : str) : length (sub_hspace s) <= length s.
Proof.
  induction s as [s IH] using str_len_ind. destruct s as [|c t]; [simpl; lia|].
  rewrite sub_hspace_cons. destruct (hspace c).
  - pose proof (length_skipn_le (run hspace t) t) as Hs.
    specialize (IH (skipn (run hspace t) t)). simpl in *. lia.
  - specialize (IH t). simpl in *. lia.
Qed.

Lemma length_sub_ws_nl (s : str) : length (sub_ws_nl s) <= length s.
Proof.
  induction s as [s IH] using str_len_ind. destruct s as [|c t]; [simpl; lia|].
  rewrite sub_ws_nl_cons'.
  assert (Hgo : length (c :: sub_ws_nl t) <= length (c :: t))
    by (specialize (IH t); simpl in *; lia).
  destruct (isspace c); [|exact Hgo]. destruct (last_nl t) as [j|]; [|exact Hgo].
  pose proof (length_skipn_le j t) as Hs. specialize (IH (skipn j t)). simpl in *. lia.
Qed.

Lemma length_strip (s : str) : length (strip s) <= length s.
Proof.
  destruct (strip_infix s) as (w & y & E). rewrite E at 2. rewrite !length_app. lia.
Qed.

(** X1.  The Text Normalizer only touches white space: the characters of its
    output that are no white space are those of its input, in the same
    order, and the output is never longer than the input. *)
Theorem text_clean_keeps_visible_characters (s : str) :
  filter is_visible (text_clean s) = filter is_visible s
  /\ length (text_clean s) <= length s.
Proof.
  rewrite text_clean_eq. split.
  - rewrite filter_visible_strip, filter_visible_sub_ws_nl. apply filter_visible_sub_hspace.
  - pose proof (length_strip (sub_ws_nl (sub_hspace s))).
    pose proof (length_sub_ws_nl (sub_hspace s)). pose proof (length_sub_hspace s). lia.
Qed.

Lemma strip_fix_edges (s : str) : strip s = s -> s = [] \/ edge_ok s = true.
Proof.
  intros E. destruct s as [|c t]; [left; reflexivity|]. right.
  rewrite <- E. apply edge_ok_strip. rewrite E. reflexivity.
Qed.

(** X2.  The outputs of the Text Normalizer are exactly the strings it leaves
    alone, and they are the strings without a tab, without two spaces in a
    row, without white space right before a newline and without white space
    at either end. *)
Theorem text_clean_fixed_points (s : str) :
  (text_clean s = s <-> exists s0, s = text_clean s0)
  /\ (text_clean s = s <->
      hs_norm s = true /\ nl_norm s = true /\ (s = [] \/ edge_ok s = true)).
Proof.
  assert (Hfix : hs_norm s = true /\ nl_norm s = true /\ (s = [] \/ edge_ok s = true) ->
                 text_clean s = s).
  { intros (H1 & H2 & H3). rewrite text_clean_eq, (hs_norm_fix _ H1), (nl_norm_fix _ H2).
    destruct H3 as [-> | H3]; [reflexivity | apply strip_edge_ok, H3]. }
  assert (Hout : forall s0, hs_norm (text_clean s0) = true /\ nl_norm (text_clean s0) = true
                            /\ (text_clean s0 = [] \/ edge_ok (text_clean s0) = true)).
  { intros s0. split; [apply text_clean_hs_norm|]. split; [apply text_clean_nl_norm|].
    apply strip_fix_edges. rewrite text_clean_eq. apply strip_idem. }
  split; split.
  - intros E. exists s. symmetry. exact E.
  - intros [s0 ->]. apply Hfix, Hout.
  - intros E. rewrite <- E. apply Hout.
  - exact Hfix.
Qed.

(** *** The filename tokens do not depend on the letter case *)

Lemma lower_char_idem c : lower_char (lower_char c) = lower_char c.
Proof. destruct c as [[] [] [] [] [] [] [] []]; reflexivity. Qed.

Lemma upper_of_lower c : upper_char (lower_char c) = upper_char c.
Proof. destruct c as [[] [] [] [] [] [] [] []]; reflexivity. Qed.

Lemma cased_of_lower c :
  isupper (lower_char c) || islower (lower_char c) = isupper c || islower c.
Proof. destruct c as [[] [] [] [] [] [] [] []]; reflexivity. Qed.

Lemma isword_lower c : isword (lower_char c) = isword c.
Proof. destruct c as [[] [] [] [] [] [] [] []]; reflexivity. Qed.

Lemma eqb_nl_lower c : (lower_char c =? nl)%char = (c =? nl)%char.
Proof. destruct c as [[] [] [] [] [] [] [] []]; reflexivity. Qed.

Lemma eqb_space_lower c : (lower_char c =? " ")%char = (c =? " ")%char.
Proof. destruct c as [[] [] [] [] [] [] [] []]; reflexivity. Qed.

Lemma ci_equiv_nil_l w : ci_equiv [] w -> w = [].
Proof. destruct w; [reflexivity | discriminate]. Qed.

Lemma ci_equiv_cons_l c t w :
  ci_equiv (c :: t) w ->
  exists c' t', w = c' :: t' /\ lower_char c = lower_char c' /\ ci_equiv t t'.
Proof.
  destruct w as [|c' t']; [discriminate|]. unfold ci_equiv. cbn [lower map].
  intros [= H1 H2]. exists c', t'. auto.
Qed.

Lemma ci_equiv_firstn n u w : ci_equiv u w -> ci_equiv (firstn n u) (firstn n w).
Proof. unfold ci_equiv, lower. intros H. rewrite <- !firstn_map, H. reflexivity. Qed.

Lemma blind_class (p : ascii -> bool) c c' :
  (forall x, p (lower_char x) = p x) -> lower_char c = lower_char c' -> p c = p c'.
Proof. intros Hp E. rewrite <- (Hp c), <- (Hp c'), E. reflexivity. Qed.

Lemma star_bt_ci (A B : Type) (R : A -> B -> Prop) (p : ascii -> bool)
    (k1 : nat -> str -> option A) (k2 : nat -> str -> option B) :
  (forall x, p (lower_char x) = p x) ->
  (forall pos u w, ci_equiv u w -> opt_rel A B R (k1 pos u) (k2 pos w)) ->
  forall u w pos, ci_equiv u w ->
    opt_rel A B R (star_bt p k1 pos u) (star_bt p k2 pos w).
Proof.
  intros Hp Hk. induction u as [|c t IH]; intros w pos E.
  - rewrite (ci_equiv_nil_l _ E). cbn [star_bt]. apply Hk. reflexivity.
  - destruct (ci_equiv_cons_l _ _ _ E) as (c' & t' & -> & Hc & Ht).
    cbn [star_bt]. rewrite <- (blind_class p c c' Hp Hc).
    destruct (p c); [|apply Hk, E].
    specialize (IH t' (S pos) Ht).
    destruct (star_bt p k1 (S pos) t), (star_bt p k2 (S pos) t'); cbn [opt_rel] in IH;
      try contradiction; [exact IH | apply Hk, E].
Qed.

(** On strings that differ in case at most, a case-blind pattern takes the
    same course. *)
Lemma bt_ci (A B : Type) (R : A -> B -> Prop) r :
  case_blind r ->
  forall pos u w g1 g2
         (k1 : nat -> str -> caps -> option A) (k2 : nat -> str -> caps -> option B),
    ci_equiv u w -> caps_equiv g1 g2 ->
    (forall pos' u' w' g1' g2',
        ci_equiv u' w' -> caps_equiv g1' g2' ->
        opt_rel A B R (k1 pos' u' g1') (k2 pos' w' g2')) ->
    opt_rel A B R (bt r pos u g1 k1) (bt r pos w g2 k2).
Proof.
  induction r as [| | |p|a IHa b IHb|a IHa b IHb|p|i a IHa];
    intros Hr pos u w g1 g2 k1 k2 E G Hk; cbn [bt].
  - apply Hk; assumption.
  - destruct (pos =? 0); [apply Hk; assumption | exact I].
  - destruct u as [|c [|d t]].
    + rewrite (ci_equiv_nil_l _ E). apply Hk; [reflexivity | exact G].
    + destruct (ci_equiv_cons_l _ _ _ E) as (c' & t' & -> & Hc & Ht).
      pose proof (ci_equiv_nil_l _ Ht) as Et. subst t'.
      rewrite <- (eqb_nl_lower c), <- (eqb_nl_lower c'), Hc.
      destruct (lower_char c' =? nl)%char; [apply Hk; assumption | exact I].
    + destruct (ci_equiv_cons_l _ _ _ E) as (c' & t' & -> & _ & Ht).
      destruct (ci_equiv_cons_l _ _ _ Ht) as (d' & t'' & -> & _ & _). exact I.
  - destruct u as [|c t].
    + rewrite (ci_equiv_nil_l _ E). exact I.
    + destruct (ci_equiv_cons_l _ _ _ E) as (c' & t' & -> & Hc & Ht).
      cbn [case_blind] in Hr. rewrite <- (blind_class p c c' Hr Hc).
      destruct (p c); [apply Hk; assumption | exact I].
  - destruct Hr as [Ha Hb]. apply (IHa Ha pos u w g1 g2 _ _ E G).
    intros pos' u' w' g1' g2' E' G'. apply (IHb Hb pos' u' w' g1' g2' _ _ E' G' Hk).
  - destruct Hr as [Ha Hb].
    pose proof (IHa Ha pos u w g1 g2 k1 k2 E G Hk) as H1.
    destruct (bt a pos u g1 k1), (bt a pos w g2 k2); cbn [opt_rel] in H1;
      try contradiction; [exact H1|].
    apply (IHb Hb pos u w g1 g2 _ _ E G Hk).
  - cbn [case_blind] in Hr. apply star_bt_ci; [exact Hr | | exact E].
    intros pos' u' w' E'. apply Hk; assumption.
  - cbn [case_blind] in Hr. apply (IHa Hr pos u w g1 g2 _ _ E G).
    intros pos' u' w' g1' g2' E' G'. apply Hk; [exact E'|].
    constructor; [|exact G']. split; [reflexivity | apply ci_equiv_firstn, E].
Qed.

Lemma case_blind_lit w : case_blind (lit true w).
Proof.
  induction w as [|a w IH]; [exact I|]. cbn [lit case_blind]. split; [|exact IH].
  intros c. unfold chr. rewrite lower_char_idem. reflexivity.
Qed.

Lemma case_blind_alts l : Forall case_blind l -> case_blind (alts l).
Proof.
  induction 1 as [|r l Hr Hl IH]; [intros c; reflexivity|].
  destruct l as [|r2 l2]; [exact Hr|]. split; [exact Hr | exact IH].
Qed.

Lemma case_blind_ranks : case_blind (RANKS true).
Proof.
  unfold RANKS. cbn [case_blind]. apply case_blind_alts, Forall_forall.
  intros r Hr. apply in_map_iff in Hr. destruct Hr as (w & <- & _). apply case_blind_lit.
Qed.

Lemma case_blind_rank_of_suit : case_blind RANK_OF_SUIT.
Proof.
  unfold RANK_OF_SUIT, plus.
  repeat first [ exact I | apply case_blind_ranks | apply case_blind_lit
               | exact isspace_lower | exact isword_lower | split ].
Qed.

Lemma case_blind_leading_the : case_blind LEADING_THE.
Proof.
  unfold LEADING_THE, plus.
  repeat first [ exact I | apply case_blind_lit | exact isspace_lower | split ].
Qed.

Lemma match_at_ci r pos u w :
  case_blind r -> ci_equiv u w ->
  opt_rel mtch mtch (fun m1 m2 => fst m1 = fst m2 /\ caps_equiv (snd m1) (snd m2))
          (match_at r pos u) (match_at r pos w).
Proof.
  intros Hr E. unfold match_at. apply (bt_ci _ _ _ r Hr); [exact E | constructor|].
  intros pos' u' w' g1' g2' _ G. cbn [opt_rel fst snd]. auto.
Qed.

Lemma ci_equiv_app u1 w1 u2 w2 :
  ci_equiv u1 w1 -> ci_equiv u2 w2 -> ci_equiv (u1 ++ u2) (w1 ++ w2).
Proof. unfold ci_equiv, lower. intros H1 H2. rewrite !map_app, H1, H2. reflexivity. Qed.

Lemma sub_from_ci r repl :
  case_blind r ->
  forall u w skip pos, ci_equiv u w ->
    ci_equiv (sub_from r repl skip pos u) (sub_from r repl skip pos w).
Proof.
  intros Hr. induction u as [|c t IH]; intros w skip pos E.
  - rewrite (ci_equiv_nil_l _ E). reflexivity.
  - destruct (ci_equiv_cons_l _ _ _ E) as (c' & t' & -> & Hc & Ht).
    cbn [sub_from]. destruct skip as [|j]; [|apply IH, Ht].
    assert (Hstep : ci_equiv (c :: sub_from r repl 0 (S pos) t)
                             (c' :: sub_from r repl 0 (S pos) t')).
    { specialize (IH t' 0 (S pos) Ht). unfold ci_equiv in *. cbn [lower map].
      unfold lower in IH. rewrite Hc, IH. reflexivity. }
    pose proof (match_at_ci r pos (c :: t) (c' :: t') Hr E) as Hm.
    destruct (match_at r pos (c :: t)) as [[e1 g1]|],
             (match_at r pos (c' :: t')) as [[e2 g2]|];
      cbn [opt_rel fst snd] in Hm; try contradiction; [|exact Hstep].
    destruct Hm as [<- _]. destruct (pos <? e1); [|exact Hstep].
    apply ci_equiv_app; [reflexivity | apply IH, Ht].
Qed.

Lemma lstrip_ci u w : ci_equiv u w -> ci_equiv (lstrip u) (lstrip w).
Proof.
  revert w. induction u as [|c t IH]; intros w E.
  - rewrite (ci_equiv_nil_l _ E). reflexivity.
  - destruct (ci_equiv_cons_l _ _ _ E) as (c' & t' & -> & Hc & Ht).
    cbn [lstrip]. rewrite (lower_char_space _ _ Hc).
    destruct (isspace c'); [apply IH, Ht | exact E].
Qed.

Lemma rev_ci u w : ci_equiv u w -> ci_equiv (rev u) (rev w).
Proof. unfold ci_equiv, lower. intros H. rewrite !map_rev, H. reflexivity. Qed.

Lemma strip_ci u w : ci_equiv u w -> ci_equiv (strip u) (strip w).
Proof.
  intros E. unfold strip, rstrip. apply rev_ci, lstrip_ci, rev_ci, lstrip_ci, E.
Qed.

Lemma remove_space_ci u w :
  ci_equiv u w -> lower (remove_char " " u) = lower (remove_char " " w).
Proof.
  revert w. induction u as [|c t IH]; intros w E.
  - rewrite (ci_equiv_nil_l _ E). reflexivity.
  - destruct (ci_equiv_cons_l _ _ _ E) as (c' & t' & -> & Hc & Ht).
    unfold remove_char. cbn [filter].
    rewrite <- (eqb_space_lower c), <- (eqb_space_lower c'), Hc.
    destruct (lower_char c' =? " ")%char; cbn [negb].
    + apply IH, Ht.
    + cbn [lower map]. rewrite Hc. f_equal. apply IH, Ht.
Qed.

Lemma title_from_ci u w b : ci_equiv u w -> title_from b u = title_from b w.
Proof.
  revert w b. induction u as [|c t IH]; intros w b E.
  - rewrite (ci_equiv_nil_l _ E). reflexivity.
  - destruct (ci_equiv_cons_l _ _ _ E) as (c' & t' & -> & Hc & Ht).
    cbn [title_from].
    rewrite <- (cased_of_lower c), <- (cased_of_lower c'), Hc.
    rewrite (IH t' _ Ht). f_equal.
    destruct b; [reflexivity|].
    rewrite <- (upper_of_lower c), <- (upper_of_lower c'), Hc. reflexivity.
Qed.

Lemma group_ci i g1 g2 :
  caps_equiv g1 g2 -> opt_rel str str ci_equiv (group i g1) (group i g2).
Proof.
  induction 1 as [|[j1 s1] [j2 s2] g1 g2 [Hj Hs] _ IH]; [exact I|].
  cbn [fst snd] in Hj, Hs. subst j2. cbn [group].
  destruct (i =? j1); [exact Hs | exact IH].
Qed.

(** The tokens are computed from the stripped title, and the patterns and
    the conversions applied to it do not look at the letter case. *)
Lemma tokens_of_stripped_ci (u w suit : str) :
  ci_equiv (strip u) (strip w) ->
  card_filename_tokens u suit = card_filename_tokens w suit.
Proof.
  intros Hs. unfold card_filename_tokens. cbv zeta.
  destruct (str_eqb suit (L "Major Arcana")).
  - cbn [map]. rewrite (remove_space_ci _ _ Hs).
    rewrite (remove_space_ci (re_sub LEADING_THE [] (strip u))
                             (re_sub LEADING_THE [] (strip w)));
      [reflexivity|].
    apply sub_from_ci; [apply case_blind_leading_the | exact Hs].
  - pose proof (match_at_ci RANK_OF_SUIT 0 _ _ case_blind_rank_of_suit Hs) as Hm.
    unfold re_match.
    destruct (match_at RANK_OF_SUIT 0 (strip u)) as [[e1 g1]|],
             (match_at RANK_OF_SUIT 0 (strip w)) as [[e2 g2]|];
      cbn [opt_rel fst snd] in Hm; try contradiction; [|reflexivity].
    destruct Hm as [_ G].
    pose proof (group_ci 1 _ _ G) as H1. pose proof (group_ci 2 _ _ G) as H2.
    destruct (group 1 g1) as [a1|], (group 1 g2) as [a2|]; cbn [opt_rel] in H1;
      try contradiction; [|reflexivity].
    destruct (group 2 g1) as [b1|], (group 2 g2) as [b2|]; cbn [opt_rel] in H2;
      try contradiction; [|reflexivity].
    unfold title. rewrite (title_from_ci _ _ false H1), (title_from_ci _ _ false H2).
    reflexivity.
Qed.

(** X3.  The filename tokens do not depend on the letter case of the title:
    two titles that differ in case at most give the same tokens. *)
Theorem card_filename_tokens_ignore_case (u w suit : str) :
  lower u = lower w ->
  card_filename_tokens u suit = card_filename_tokens w suit.
Proof.
  intros E. apply tokens_of_stripped_ci.
  unfold strip, rstrip. apply rev_ci, lstrip_ci, rev_ci, lstrip_ci. exact E.
Qed.

Lemma shouted_title_tokens :
  lower (L "ACE OF WANDS") = lower (L "Ace of Wands")
  /\ card_filename_tokens (L "ACE OF WANDS") (L "Wands")
     = card_filename_tokens (L "Ace of Wands") (L "Wands").
Proof.
  split; [reflexivity|].
  exact (card_filename_tokens_ignore_case (L "ACE OF WANDS") (L "Ace of Wands") (L "Wands")
           eq_refl).
Defined.

(** *** The tokens of the records of a page *)

Lemma ci_match_lower u w : ci_match true u w -> lower u = lower w.
Proof.
  induction 1 as [|c a u w Hc _ IH]; [reflexivity|].
  cbn [lower map]. unfold chr in Hc. apply Ascii.eqb_eq in Hc.
  unfold lower in IH. rewrite Hc, IH. reflexivity.
Qed.

Lemma collapse_suit_title_eq suit txt :
  visible suit = true -> suit <> [] ->
  suit_title_shape suit txt ->
  exists rank, In rank RANK_WORDS
               /\ lower (collapse txt) = lower (rank ++ L " of " ++ suit).
Proof.
  intros Hv Hne (r & w1 & o & w2 & su & rank & -> & Hin & Hr & Hw1 & Ho & Hw2 & Hsu).
  pose proof (ci_match_visible _ _ Hr (rank_words_visible _ Hin)) as Vr.
  pose proof (ci_match_visible _ _ Ho eq_refl) as Vo.
  pose proof (ci_match_visible _ _ Hsu Hv) as Vsu.
  assert (E : collapse (r ++ w1 ++ o ++ w2 ++ su) = r ++ L " " ++ o ++ L " " ++ su).
  { rewrite (collapse_visible _ _ Vr).
    destruct Hw1 as [N1 B1]. destruct w1 as [|c1 u1]; [congruence|].
    simpl in B1. apply andb_true_iff in B1. destruct B1 as [C1 B1].
    destruct Hw2 as [N2 B2]. destruct w2 as [|c2 u2]; [congruence|].
    simpl in B2. apply andb_true_iff in B2. destruct B2 as [C2 B2].
    assert (Ho0 : o <> []) by (apply (ci_match_nonempty _ _ Ho); discriminate).
    cbn [app].
    rewrite collapse_blank; [|exact C1|exact B1|].
    2:{ destruct o as [|x o']; [congruence|]. apply (visible_hd _ Vo). }
    rewrite (collapse_visible _ _ Vo). cbn [app].
    rewrite collapse_blank; [|exact C2|exact B2|apply visible_hd, Vsu].
    rewrite <- (app_nil_r su) at 1. rewrite (collapse_visible _ _ Vsu), collapse_nil, app_nil_r.
    reflexivity. }
  exists rank. split; [exact Hin|]. rewrite E. unfold lower. rewrite !map_app.
  fold (lower r) (lower o) (lower su) (lower rank) (lower suit).
  rewrite (ci_match_lower _ _ Hr), (ci_match_lower _ _ Ho), (ci_match_lower _ _ Hsu).
  reflexivity.
Qed.

Lemma strs_eqb_eq a b : strs_eqb a b = true -> a = b.
Proof.
  unfold strs_eqb. destruct (list_eq_dec (list_eq_dec ascii_dec) a b); congruence.
Qed.

Lemma canonical_suit_tokens suit rank :
  In suit [L "Wands"; L "Cups"; L "Swords"; L "Pentacles"] -> In rank RANK_WORDS ->
  card_filename_tokens (rank ++ L " of " ++ suit) suit = suit_tokens rank suit.
Proof.
  intros Hs Hr.
  assert (F : forallb (fun s => forallb (fun w =>
                strs_eqb (card_filename_tokens (w ++ L " of " ++ s) s) (suit_tokens w s))
                RANK_WORDS) [L "Wands"; L "Cups"; L "Swords"; L "Pentacles"] = true)
    by (vm_compute; reflexivity).
  rewrite forallb_forall in F. specialize (F _ Hs).
  rewrite forallb_forall in F. apply strs_eqb_eq, F, Hr.
Qed.

Section RecordTokens.
Variable urljoin : str -> str -> str.
Variable get_soup : str -> exn + node.
Variable noscript_soup : list node -> option node.

(** X4.  The card title of a record that a page of one of the five
    sections gives, when it holds ASCII characters only, is up to letter
    case a title of that section as the patterns spell it, and its filename
    tokens are those of that title.  In a suit section they are the rank and
    the suit joined by "of", in lower case, followed for the ranks Two to
    Ten by the digit form; such a record is never left without a token. *)
Theorem record_tokens_are_canonical suit url_path ev rs r :
  In suit (map fst PAGES) ->
  parse_card_page urljoin get_soup noscript_soup suit url_path = (ev, inr rs) ->
  In r rs ->
  is_ascii (card r) = true ->
  exists canon,
    In canon (canonical_titles suit)
    /\ lower (card r) = lower canon
    /\ card_filename_tokens (card r) suit = card_filename_tokens canon suit
    /\ card_filename_tokens (card r) suit <> []
    /\ (str_eqb suit (L "Major Arcana") = false ->
        exists rank, In rank RANK_WORDS
                     /\ canon = rank ++ L " of " ++ suit
                     /\ card_filename_tokens (card r) suit = suit_tokens rank suit).
Proof.
  intros Hsuit Hp Hr _.
  destruct (parse_card_page_records _ _ _ _ _ _ _ _ Hp Hr) as (soup & t & _ & Ht & ->).
  apply title_nodes_is_title in Ht. unfold is_title in Ht.
  apply andb_true_iff in Ht. destruct Ht as [_ Hm].
  unfold card_of. cbn [card]. fold (collapse (get_text (L " ") (snd t))).
  set (txt := get_text (L " ") (snd t)) in *.
  assert (Hs : suit = L "Major Arcana"
               \/ (In suit [L "Wands"; L "Cups"; L "Swords"; L "Pentacles"]
                   /\ str_eqb suit (L "Major Arcana") = false
                   /\ visible suit = true /\ suit <> [])).
  { simpl in Hsuit.
    destruct Hsuit as [<- | [<- | [<- | [<- | [<- | []]]]]];
      [left; reflexivity | right .. ];
      (split; [simpl; tauto | split; [reflexivity | split; [reflexivity | discriminate]]]). }
  destruct Hs as [-> | (H4 & Hs & Hv & Hne)].
  - rewrite (collapse_major_title _ Hm). apply major_title_den in Hm.
    destruct Hm as (name & Hin & Hci). exists name.
    pose proof (ci_match_lower _ _ Hci) as El.
    split; [exact Hin|]. split; [exact El|].
    split; [apply tokens_of_stripped_ci, strip_ci, El|].
    split; [discriminate | discriminate].
  - apply (suit_title_den _ _ Hs) in Hm.
    destruct (collapse_suit_title_eq _ _ Hv Hne Hm) as (rank & Hin & El).
    pose proof (tokens_of_stripped_ci _ _ suit (strip_ci _ _ El)) as Et.
    pose proof (canonical_suit_tokens _ _ H4 Hin) as Ec.
    exists (rank ++ L " of " ++ suit).
    split; [unfold canonical_titles; rewrite Hs;
            apply (in_map (fun rank => rank ++ L " of " ++ suit)), Hin|].
    split; [exact El|]. split; [exact Et|].
    split; [rewrite Et, Ec; discriminate|].
    intros _. exists rank. split; [exact Hin|]. split; [reflexivity|].
    rewrite Et. exact Ec.
Qed.

End RecordTokens.

Lemma sample_page_record_tokens :
  let r := card_of sample_urljoin sample_noscript (L "Wands")
                   (sample_urljoin BASE (L "/wands")) wands_page
                   (title_regex_for (L "Wands")) two_title in
  card r = L "Two of Wands"
  /\ is_ascii (card r) = true
  /\ card_filename_tokens (card r) (L "Wands") = [L "twoofwands"; L "2ofwands"]
  /\ exists canon,
       In canon (canonical_titles (L "Wands"))
       /\ lower (card r) = lower canon
       /\ card_filename_tokens (card r) (L "Wands") = card_filename_tokens canon (L "Wands")
       /\ card_filename_tokens (card r) (L "Wands") <> []
       /\ (str_eqb (L "Wands") (L "Major Arcana") = false ->
           exists rank, In rank RANK_WORDS
                        /\ canon = rank ++ L " of " ++ L "Wands"
                        /\ card_filename_tokens (card r) (L "Wands")
                           = suit_tokens rank (L "Wands")).
Proof.
  intros r.
  assert (Hs : In (L "Wands") (map fst PAGES)) by (simpl; tauto).
  assert (Hp : parse_card_page sample_urljoin sample_get_soup sample_noscript
                 (L "Wands") (L "/wands")
               = ([ESleep],
                  inr (map (card_of sample_urljoin sample_noscript (L "Wands")
                                    (sample_urljoin BASE (L "/wands")) wands_page
                                    (title_regex_for (L "Wands")))
                           (title_nodes (title_regex_for (L "Wands")) wands_page))))
    by (vm_compute; reflexivity).
  assert (Hr : In r (map (card_of sample_urljoin sample_noscript (L "Wands")
                                  (sample_urljoin BASE (L "/wands")) wands_page
                                  (title_regex_for (L "Wands")))
                         (title_nodes (title_regex_for (L "Wands")) wands_page)))
    by (vm_compute; right; left; reflexivity).
  assert (Ha : is_ascii (card r) = true) by (vm_compute; reflexivity).
  split; [vm_compute; reflexivity|]. split; [exact Ha|].
  split; [vm_compute; reflexivity|].
  exact (record_tokens_are_canonical sample_urljoin sample_get_soup sample_noscript
           (L "Wands") (L "/wands") _ _ r Hs Hp Hr Ha).
Defined.

(** *** The extractor and the candidates *)

Lemma split_head_app (sep : ascii) (b q : str) :
  ~ In sep b -> hd [] (split sep (b ++ sep :: q)) = b.
Proof.
  induction b as [|c b IH]; intros Hn.
  - cbn [app split]. rewrite Ascii.eqb_refl. reflexivity.
  - cbn [app split]. destruct (c =? sep)%char eqn:E.
    + apply Ascii.eqb_eq in E. exfalso. apply Hn. left. exact E.
    + assert (Hb : ~ In sep b) by (intros H; apply Hn; right; exact H).
      specialize (IH Hb). destruct (split sep (b ++ sep :: q)) as [|h r]; simpl in *;
        [subst b; reflexivity | subst h; reflexivity].
Qed.

Lemma split_head_none (sep : ascii) (b : str) : ~ In sep b -> hd [] (split sep b) = b.
Proof.
  induction b as [|c b IH]; intros Hn; [reflexivity|].
  cbn [split]. destruct (c =? sep)%char eqn:E.
  - apply Ascii.eqb_eq in E. exfalso. apply Hn. left. exact E.
  - assert (Hb : ~ In sep b) by (intros H; apply Hn; right; exact H).
    specialize (IH Hb). destruct (split sep b) as [|h r]; simpl in *;
      [subst b; reflexivity | subst h; reflexivity].
Qed.

Section ExtractorFacts.
Variable urljoin : str -> str -> str.
Variable noscript_soup : list node -> option node.

(** X5.  The filter of the extractor never looks at a query string: a raw
    URL with a query is treated as the URL without it, also when the query
    holds a word such as logo or an image extension. *)
Theorem clean_url_ignores_query (b q : str) :
  ~ In "?"%char b ->
  clean_url urljoin (b ++ "?"%char :: q) = clean_url urljoin b.
Proof.
  intros Hn. destruct b as [|c b]; [reflexivity|].
  unfold clean_url. cbn [app nonempty negb].
  change (c :: b ++ "?"%char :: q) with ((c :: b) ++ "?"%char :: q).
  rewrite (split_head_app _ _ _ Hn), (split_head_none _ _ Hn). reflexivity.
Qed.

Lemma find_all_no_tags f el :
  (forall d, In d (descendants el) -> is_tag (snd d) = false) -> find_all f el = [].
Proof.
  intros H. unfold find_all.
  induction (descendants el) as [|d l IH]; [reflexivity|].
  cbn [filter]. rewrite (H d (or_introl eq_refl)). cbn [andb].
  apply IH. intros d' Hd'. apply H. right. exact Hd'.
Qed.

(** The extractor looks below an element only: an element without a tag
    below it yields nothing, whatever its own attributes. *)
Lemma extract_nothing_below el :
  (forall d, In d (descendants el) -> is_tag (snd d) = false) ->
  _extract_img_url_from urljoin noscript_soup el = [].
Proof.
  intros H. unfold _extract_img_url_from, harvest_urls.
  rewrite !(find_all_no_tags _ _ H). reflexivity.
Qed.

Lemma sorted_snoc (cands : list (nat * str)) (idx : nat) (v : str) :
  StronglySorted (fun a b => fst a <= fst b) cands ->
  (forall c, In c cands -> fst c <= idx) ->
  StronglySorted (fun a b => fst a <= fst b) (cands ++ [(idx, v)]).
Proof.
  intros Hs Hl. induction cands as [|c cands IH]; [repeat constructor|].
  inversion Hs as [|? ? Hs' Hf]; subst. cbn [app]. constructor.
  - apply IH; [exact Hs'|]. intros c' Hc'. apply Hl. right. exact Hc'.
  - apply Forall_app. split; [exact Hf|]. constructor; [|constructor].
    cbn [fst]. apply (Hl c). left. reflexivity.
Qed.

(** The inner loop: the URLs of one tag, with the index [idx] of the tag. *)
Lemma fold_add_candidate_spec (idx : nat) :
  forall urls st,
    cand_inv st ->
    StronglySorted (fun a b => fst a <= fst b) (snd st) ->
    (forall c, In c (snd st) -> fst c <= idx) ->
    let st' := fold_left (add_candidate idx) urls st in
    cand_inv st'
    /\ (forall i v, In (i, v) (snd st') ->
          In (i, v) (snd st)
          \/ (i = idx /\ In v urls /\ ~ In v (map snd (snd st))))
    /\ (forall v, In v (map snd (snd st)) \/ In v urls -> In v (map snd (snd st')))
    /\ StronglySorted (fun a b => fst a <= fst b) (snd st')
    /\ (forall c, In c (snd st') -> fst c <= idx).
Proof.
  induction urls as [|v urls IH]; intros st Hc Hs Hl; cbn zeta.
  - cbn [fold_left]. split; [exact Hc|]. split; [auto|].
    split; [intros w [H | []]; exact H|]. split; assumption.
  - cbn [fold_left]. destruct st as [seen cands].
    assert (Est : add_candidate idx (seen, cands) v
                  = if existsb (str_eqb v) seen then (seen, cands)
                    else (v :: seen, cands ++ [(idx, v)])) by reflexivity.
    rewrite Est. clear Est.
    destruct Hc as [Hseen Hnd]. cbn [fst snd] in *.
    destruct (existsb (str_eqb v) seen) eqn:Ex.
    + assert (Hv : In v (map snd cands)).
      { apply Hseen. apply existsb_exists in Ex. destruct Ex as (w & Hw & Ew).
        apply str_eqb_eq in Ew. subst w. exact Hw. }
      destruct (IH (seen, cands) (conj Hseen Hnd) Hs Hl) as (I1 & I2 & I3 & I4 & I5).
      cbn zeta in *. cbn [fst snd] in *.
      split; [exact I1|]. split.
      * intros i w Hin. destruct (I2 i w Hin) as [H | (H1 & H2 & H3)]; [left; exact H|].
        right. split; [exact H1|]. split; [right; exact H2 | exact H3].
      * split; [|split; assumption].
        intros w [Hw | [<- | Hw]]; apply I3; auto.
    + assert (Hnew : ~ In v (map snd cands)).
      { intros Hin. apply Hseen in Hin.
        assert (existsb (str_eqb v) seen = true)
          by (apply existsb_exists; exists v; split; [exact Hin | apply str_eqb_refl]).
        congruence. }
      pose proof (add_candidate_inv idx (seen, cands) v (conj Hseen Hnd)) as Hc'.
      unfold add_candidate in Hc'. rewrite Ex in Hc'.
      assert (Hl1 : forall c, In c (cands ++ [(idx, v)]) -> fst c <= idx).
      { intros c Hin. apply in_app_or in Hin. destruct Hin as [Hin | [<- | []]];
          [apply Hl, Hin | cbn [fst]; lia]. }
      destruct (IH (v :: seen, cands ++ [(idx, v)]) Hc' (sorted_snoc _ _ _ Hs Hl) Hl1)
        as (I1 & I2 & I3 & I4 & I5).
      cbn zeta in *. cbn [fst snd] in *.
      split; [exact I1|]. split.
      * intros i w Hin. destruct (I2 i w Hin) as [H | (H1 & H2 & H3)].
        -- apply in_app_or in H. destruct H as [H | [[= <- <-] | []]]; [left; exact H|].
           right. split; [reflexivity|]. split; [left; reflexivity | exact Hnew].
        -- right. split; [exact H1|]. split; [right; exact H2|].
           intros Hw. apply H3. rewrite map_app. apply in_or_app. left. exact Hw.
      * split; [|split; assumption].
        intros w Hw. apply I3. rewrite map_app.
        destruct Hw as [Hw | [<- | Hw]].
        -- left. apply in_or_app. left. exact Hw.
        -- left. apply in_or_app. right. left. reflexivity.
        -- right. exact Hw.
Qed.

Lemma combine_snoc (B C : Type) (a : list B) (c : list C) (x : B) (y : C) :
  length a = length c -> combine (a ++ [x]) (c ++ [y]) = combine a c ++ [(x, y)].
Proof.
  revert c. induction a as [|b a IH]; intros [|d c] H; try discriminate; [reflexivity|].
  cbn [app combine]. rewrite IH by (simpl in H; lia). reflexivity.
Qed.

Lemma enumerate_snoc (B : Type) (l : list B) (x : B) :
  combine (seq 0 (length (l ++ [x]))) (l ++ [x])
  = combine (seq 0 (length l)) l ++ [(length l, x)].
Proof.
  rewrite length_app. cbn [length]. rewrite seq_app. cbn [seq].
  apply combine_snoc. apply length_seq.
Qed.

(** The outer loop, over the tags of the region. *)
Lemma harvest_loop_inv (extract : elt -> list str) (nodes : list elt) :
  harvest_inv extract nodes
    (fold_left (fun st idx_n => fold_left (add_candidate (fst idx_n)) (extract (snd idx_n)) st)
               (combine (seq 0 (length nodes)) nodes) ([], [])).
Proof.
  induction nodes as [|x l IH] using rev_ind.
  - cbn. repeat split; try (intros; contradiction); try constructor;
      cbn; intros; tauto.
  - rewrite enumerate_snoc, fold_left_app. cbn [fold_left fst snd].
    set (st := fold_left _ (combine (seq 0 (length l)) l) ([], [])) in *.
    destruct IH as (Hc & Hprov & Hall & Hsort & Hlt).
    assert (Hle : forall c, In c (snd st) -> fst c <= length l)
      by (intros c Hin; specialize (Hlt c Hin); lia).
    destruct (fold_add_candidate_spec (length l) (extract x) st Hc Hsort Hle)
      as (I1 & I2 & I3 & I4 & I5).
    cbn zeta in *. split; [exact I1|]. split; [|split; [|split]].
    + intros i u Hin. destruct (I2 i u Hin) as [H | (-> & Hu & Hnew)].
      * destruct (Hprov i u H) as (n & Hn & Hun & Hfirst).
        assert (Hi : i < length l) by (apply nth_error_Some; congruence).
        exists n. split; [rewrite nth_error_app1 by exact Hi; exact Hn|].
        split; [exact Hun|]. intros j n' Hj Hn'.
        rewrite nth_error_app1 in Hn' by lia. apply (Hfirst j n' Hj Hn').
      * exists x. split; [rewrite nth_error_app2, Nat.sub_diag by lia; reflexivity|].
        split; [exact Hu|]. intros j n' Hj Hn'.
        rewrite nth_error_app1 in Hn' by exact Hj.
        intros Hin'. apply Hnew. apply (Hall n' u); [|exact Hin'].
        apply nth_error_In with (n := j). exact Hn'.
    + intros n u Hn Hu. apply I3. apply in_app_or in Hn.
      destruct Hn as [Hn | [<- | []]]; [left; apply (Hall n u Hn Hu) | right; exact Hu].
    + exact I4.
    + intros c Hin. specialize (I5 c Hin). rewrite length_app. cbn [length]. lia.
Qed.

(** X6.  The candidates of a title are the URLs the extractor yields for the
    tags of its region, each exactly once, with the index of the first tag
    that yields it, and listed with non-decreasing indices. *)
Theorem candidates_are_first_seen (soup : node) (title_el : elt) :
  let candidates := candidates_of urljoin noscript_soup soup title_el in
  let nodes := region_nodes soup title_el in
  NoDup (map snd candidates)
  /\ StronglySorted (fun a b => fst a <= fst b) candidates
  /\ (forall n u, In n nodes -> In u (_extract_img_url_from urljoin noscript_soup n) ->
                  In u (map snd candidates))
  /\ (forall i u, In (i, u) candidates ->
        exists n, nth_error nodes i = Some n
                  /\ In u (_extract_img_url_from urljoin noscript_soup n)
                  /\ forall j n', j < i -> nth_error nodes j = Some n' ->
                       ~ In u (_extract_img_url_from urljoin noscript_soup n')).
Proof.
  cbv zeta. unfold candidates_of. cbv zeta.
  destruct (harvest_loop_inv (_extract_img_url_from urljoin noscript_soup)
              (region_nodes soup title_el)) as ((_ & Hnd) & Hprov & Hall & Hsort & _).
  split; [exact Hnd|]. split; [exact Hsort|]. split; [exact Hall | exact Hprov].
Qed.

Lemma candidates_none_below (soup : node) (title_el : elt) :
  (forall n, In n (region_nodes soup title_el) ->
             forall d, In d (descendants n) -> is_tag (snd d) = false) ->
  candidates_of urljoin noscript_soup soup title_el = [].
Proof.
  intros H.
  destruct (candidates_of urljoin noscript_soup soup title_el) as [|[i u] cs] eqn:E;
    [reflexivity|]. exfalso.
  destruct (harvest_loop_inv (_extract_img_url_from urljoin noscript_soup)
              (region_nodes soup title_el)) as (_ & Hprov & _).
  unfold candidates_of in E. cbv zeta in E.
  destruct (Hprov i u) as (n & Hn & Hu & _); [rewrite E; left; reflexivity|].
  rewrite (extract_nothing_below n) in Hu; [destruct Hu|].
  apply H. apply nth_error_In with (n := i). exact Hn.
Qed.

(** X7.  The extractor looks below an element only, never at the element
    itself.  Hence, when no tag of the region of a title has a tag below it,
    as when the picture stands right beside the title in their container,
    there is no candidate and the resolver returns none. *)
Theorem unwrapped_image_is_never_found
    (soup : node) (title_el : elt) (title_text suit : str) :
  (forall n, In n (region_nodes soup title_el) ->
             forall d, In d (descendants n) -> is_tag (snd d) = false) ->
  (forall n, In n (region_nodes soup title_el) ->
             _extract_img_url_from urljoin noscript_soup n = [])
  /\ nearest_card_image_url urljoin noscript_soup soup title_el title_text suit = None.
Proof.
  intros H. split.
  - intros n Hn. apply extract_nothing_below, H, Hn.
  - unfold nearest_card_image_url. cbv zeta. rewrite (candidates_none_below _ _ H).
    reflexivity.
Qed.

Lemma nearest_some_spec (soup : node) (title_el : elt) (title_text suit u : str) :
  nearest_card_image_url urljoin noscript_soup soup title_el title_text suit = Some u ->
  exists i n,
    In (i, u) (candidates_of urljoin noscript_soup soup title_el)
    /\ nth_error (region_nodes soup title_el) i = Some n
    /\ In u (_extract_img_url_from urljoin noscript_soup n).
Proof.
  intros Hu.
  assert (Hne : candidates_of urljoin noscript_soup soup title_el <> []).
  { intros E. unfold nearest_card_image_url in Hu. cbv zeta in Hu. rewrite E in Hu.
    discriminate. }
  destruct (nearest_choice urljoin noscript_soup soup title_el title_text suit Hne)
    as (best & l1 & l2 & Hl & Hres & _).
  rewrite Hres in Hu. injection Hu as <-.
  assert (Hin : In best (candidates_of urljoin noscript_soup soup title_el))
    by (rewrite Hl; apply in_elt).
  destruct (harvest_loop_inv (_extract_img_url_from urljoin noscript_soup)
              (region_nodes soup title_el)) as (_ & Hprov & _).
  destruct best as [i u]. cbn [snd].
  destruct (Hprov i u) as (n & Hn & Hu & _); [exact Hin|].
  exists i, n. auto.
Qed.

(** X8.  The resolver returns none exactly when there is no candidate, and
    what it returns otherwise is the URL of a candidate: a URL the extractor
    yields for a tag of the region of the title. *)
Theorem nearest_result_is_a_candidate
    (soup : node) (title_el : elt) (title_text suit : str) :
  (nearest_card_image_url urljoin noscript_soup soup title_el title_text suit = None
   <-> candidates_of urljoin noscript_soup soup title_el = [])
  /\ forall u,
       nearest_card_image_url urljoin noscript_soup soup title_el title_text suit = Some u ->
       exists i n,
         In (i, u) (candidates_of urljoin noscript_soup soup title_el)
         /\ nth_error (region_nodes soup title_el) i = Some n
         /\ In u (_extract_img_url_from urljoin noscript_soup n).
Proof.
  split; [|apply nearest_some_spec].
  destruct (candidates_of urljoin noscript_soup soup title_el) as [|c cs] eqn:E.
  - split; [reflexivity|]. intros _.
    unfold nearest_card_image_url. cbv zeta. rewrite E. reflexivity.
  - assert (Hne : candidates_of urljoin noscript_soup soup title_el <> [])
      by (rewrite E; discriminate).
    destruct (nearest_choice urljoin noscript_soup soup title_el title_text suit Hne)
      as (best & l1 & l2 & Hl & Hres & _).
    split; [rewrite Hres; discriminate | discriminate].
Qed.

End ExtractorFacts.

Lemma flat_page_has_no_image :
  (forall n, In n (region_nodes flat_page flat_title) ->
             forall d, In d (descendants n) -> is_tag (snd d) = false)
  /\ nearest_card_image_url sample_urljoin sample_noscript flat_page flat_title
       (L "Ace of Wands") (L "Wands") = None.
Proof.
  assert (H : forall n, In n (region_nodes flat_page flat_title) ->
                forall d, In d (descendants n) -> is_tag (snd d) = false).
  { intros n Hn. vm_compute in Hn.
    destruct Hn as [<- | [<- | []]]; intros d Hd; vm_compute in Hd;
      [destruct Hd | destruct Hd as [<- | []]; reflexivity]. }
  split; [exact H|].
  exact (proj2 (unwrapped_image_is_never_found sample_urljoin sample_noscript
                  flat_page flat_title (L "Ace of Wands") (L "Wands") H)).
Defined.

Lemma query_with_logo_is_ignored :
  ~ In "?"%char (L "/images/AceOfWands.jpg")
  /\ clean_url sample_urljoin (L "/images/AceOfWands.jpg" ++ "?"%char :: L "ref=logo")
     = clean_url sample_urljoin (L "/images/AceOfWands.jpg").
Proof.
  assert (H : ~ In "?"%char (L "/images/AceOfWands.jpg"))
    by (vm_compute; intuition discriminate).
  split; [exact H|].
  exact (clean_url_ignores_query sample_urljoin (L "/images/AceOfWands.jpg")
           (L "ref=logo") H).
Defined.

(** *** Where an element is in its page *)

Lemma lookup_app (root : node) (q r : path) :
  lookup root (q ++ r)
  = match lookup root q with Some m => lookup m r | None => None end.
Proof.
  revert root. induction q as [|i q IH]; intros root; [reflexivity|].
  cbn [app lookup]. destruct root as [s|nm a cs]; [reflexivity|].
  destruct (nth_error cs i) as [c|]; [apply IH | reflexivity].
Qed.

Lemma kids_at_nth (p : path) (cs : list node) :
  forall k i c, nth_error cs i = Some c ->
    In (p ++ [k + i], c) (kids_at p k cs)
    /\ incl (descendants_at (p ++ [k + i]) c) (kids_at p k cs).
Proof.
  induction cs as [|c0 cs IH]; intros k [|i] c H; try discriminate; cbn [kids_at].
  - injection H as <-. rewrite Nat.add_0_r. split; [left; reflexivity|].
    intros e He. right. apply in_or_app. left. exact He.
  - cbn [nth_error] in H. destruct (IH (S k) i c H) as [H1 H2].
    replace (k + S i) with (S k + i) by lia. split.
    + right. apply in_or_app. right. exact H1.
    + intros e He. right. apply in_or_app. right. apply H2, He.
Qed.

(** The node found at a path below [n] is a descendant of [n]. *)
Lemma lookup_descendants (r : path) :
  forall n p m, r <> [] -> lookup n r = Some m -> In (p ++ r, m) (descendants_at p n).
Proof.
  induction r as [|i r IH]; intros n p m Hr H; [congruence|].
  cbn [lookup] in H. destruct n as [s|nm a cs]; [discriminate|].
  destruct (nth_error cs i) as [c|] eqn:Hc; [|discriminate].
  rewrite descendants_at_tag. destruct (kids_at_nth p cs 0 i c Hc) as [H1 H2].
  cbn [Nat.add] in H1, H2. destruct r as [|j r'].
  - cbn [lookup] in H. injection H as <-. exact H1.
  - apply H2. replace (p ++ i :: j :: r') with ((p ++ [i]) ++ j :: r')
      by (rewrite <- app_assoc; reflexivity).
    apply IH; [discriminate | exact H].
Qed.

Lemma kids_lookup (p : path) (cs : list node) :
  Forall (fun c => forall p e, In e (descendants_at p c) ->
                     exists r, r <> [] /\ fst e = p ++ r /\ lookup c r = Some (snd e)) cs ->
  forall k e, In e (kids_at p k cs) ->
    exists i c r, nth_error cs i = Some c /\ fst e = p ++ (k + i) :: r
                  /\ lookup c r = Some (snd e).
Proof.
  induction cs as [|c0 cs IH]; intros HF k e; [intros []|].
  inversion HF as [|? ? Hc Hcs]; subst. cbn [kids_at]. intros [<- | Hin].
  - exists 0, c0, []. rewrite Nat.add_0_r. repeat split.
  - apply in_app_or in Hin. destruct Hin as [Hin | Hin].
    + destruct (Hc _ _ Hin) as (r & _ & E & Hl). exists 0, c0, r.
      rewrite Nat.add_0_r. split; [reflexivity|]. split; [|exact Hl].
      rewrite E, <- app_assoc. reflexivity.
    + destruct (IH Hcs (S k) e Hin) as (i & c & r & Hn & E & Hl).
      exists (S i), c, r. split; [exact Hn|]. split; [|exact Hl].
      rewrite E. replace (k + S i) with (S k + i) by lia. reflexivity.
Qed.

(** A descendant of [n] is the node found at its path below [n]. *)
Lemma descendants_lookup (n : node) :
  forall p e, In e (descendants_at p n) ->
    exists r, r <> [] /\ fst e = p ++ r /\ lookup n r = Some (snd e).
Proof.
  induction n as [s|nm a cs IH] using node_induction; intros p e; [intros []|].
  rewrite descendants_at_tag. intros Hin.
  destruct (kids_lookup p cs IH 0 e Hin) as (i & c & r & Hn & E & Hl).
  exists (i :: r). split; [discriminate|]. split; [exact E|].
  cbn [lookup]. rewrite Hn. exact Hl.
Qed.

Lemma ancestors_spec (root : node) (p : path) (b : elt) :
  In b (ancestors root p) ->
  exists k, k < length p /\ fst b = firstn k p /\ lookup root (firstn k p) = Some (snd b).
Proof.
  unfold ancestors. rewrite in_flat_map. intros (k & Hk & Hb).
  apply in_rev, in_seq in Hk.
  destruct (lookup root (firstn k p)) as [n|] eqn:Hl; [|destruct Hb].
  destruct Hb as [<- | []]. exists k. split; [lia|]. split; [reflexivity | exact Hl].
Qed.

(** An element of a page is below each of its ancestors. *)
Lemma below_ancestors (soup : node) (t b : elt) :
  In t (descendants_at [] soup) -> In b (ancestors soup (fst t)) -> In t (descendants b).
Proof.
  intros Ht Hb. destruct (descendants_lookup _ _ _ Ht) as (r & _ & Er & Hl).
  cbn [app] in Er. destruct (ancestors_spec _ _ _ Hb) as (k & Hk & Eb & Hlb).
  destruct t as [p n], b as [q m]. cbn [fst snd] in *. subst r q.
  unfold descendants. cbn [fst snd].
  assert (Hne : skipn k p <> []).
  { intros E. apply (f_equal (@length nat)) in E. rewrite length_skipn in E.
    cbn [length] in E. lia. }
  assert (Hl' : lookup m (skipn k p) = Some n).
  { rewrite <- (firstn_skipn k p), lookup_app, Hlb in Hl. exact Hl. }
  pose proof (lookup_descendants (skipn k p) m (firstn k p) n Hne Hl') as H.
  rewrite firstn_skipn in H. exact H.
Qed.

(** A tag of a page is one of the tags of its own region. *)
Lemma in_own_region (soup : node) (t : elt) :
  In t (descendants_at [] soup) -> is_tag (snd t) = true -> In t (region_nodes soup t).
Proof.
  intros Ht Htag. unfold region_nodes. apply filter_In. split; [|exact Htag].
  unfold boundary_of.
  destruct (find_parent _ soup t) as [b|] eqn:Hf.
  - unfold find_parent in Hf. apply find_some in Hf.
    apply (below_ancestors soup t b Ht), Hf.
  - destruct (parent soup t) as [b|] eqn:Hp; [|exact Ht].
    unfold parent in Hp. apply (below_ancestors soup t b Ht).
    destruct (ancestors soup (fst t)); [discriminate|].
    injection Hp as <-. left. reflexivity.
Qed.

Lemma title_nodes_in_page (pat : regex) (soup : node) (t : elt) :
  In t (title_nodes pat soup) ->
  In t (descendants_at [] soup) /\ is_tag (snd t) = true
  /\ name_in TITLE_TAGS (snd t) = true.
Proof.
  intros Ht. unfold title_nodes in Ht. apply filter_In in Ht. destruct Ht as [Ht _].
  unfold find_all in Ht. apply filter_In in Ht. destruct Ht as [Ht Hn].
  apply andb_true_iff in Hn.
  split; [apply (descendants_trans soup _ _ (content_of_in_page soup)), Ht | exact Hn].
Qed.

(** *** Equality of elements *)

Lemma lookup_attr_in (a : list (str * str)) (k v : str) :
  NoDup (map fst a) -> In (k, v) a -> lookup_attr k a = Some v.
Proof.
  induction a as [|[k' v'] a IH]; intros Hnd Hin; [destruct Hin|].
  cbn [map fst] in Hnd. inversion Hnd as [|? ? Hk Hnd']; subst.
  cbn [lookup_attr]. destruct Hin as [[= -> ->] | Hin].
  - rewrite str_eqb_refl. reflexivity.
  - destruct (str_eqb k k') eqn:E; [|apply IH; assumption].
    apply str_eqb_eq in E. subst k'. exfalso. apply Hk.
    apply (in_map fst) in Hin. exact Hin.
Qed.

Lemma attrs_eqb_refl (a : list (str * str)) : NoDup (map fst a) -> attrs_eqb a a = true.
Proof.
  intros Hnd. unfold attrs_eqb.
  assert (H : forallb (fun kv => match lookup_attr (fst kv) a with
                                 | Some v => str_eqb v (snd kv)
                                 | None => false
                                 end) a = true).
  { apply forallb_forall. intros [k v] Hin. cbn [fst snd].
    rewrite (lookup_attr_in a k v Hnd Hin). apply str_eqb_refl. }
  rewrite H. reflexivity.
Qed.

Lemma node_eqb_refl (n : node) : distinct_keys n -> node_eqb n n = true.
Proof.
  induction n as [s|nm a cs IH] using node_induction; intros Hd.
  - apply str_eqb_refl.
  - cbn [distinct_keys] in Hd. destruct Hd as [Hnd Hcs].
    cbn [node_eqb]. rewrite str_eqb_refl, (attrs_eqb_refl a Hnd). cbn [andb].
    induction cs as [|c cs IHcs]; [reflexivity|].
    inversion IH as [|? ? Hc Hrest]; subst. destruct Hcs as [Hdc Hdcs].
    rewrite (Hc Hdc). cbn [andb]. apply IHcs; assumption.
Qed.

Lemma index_of_some (B : Type) (f : B -> bool) (l : list B) (x : B) :
  In x l -> f x = true ->
  exists l1 n l2, l = l1 ++ n :: l2 /\ f n = true /\ forall m, In m l1 -> f m = false.
Proof.
  induction l as [|y l IH]; intros Hin Hx; [destruct Hin|].
  destruct (f y) eqn:Hy.
  - exists [], y, l. split; [reflexivity|]. split; [exact Hy | intros m []].
  - destruct Hin as [-> | Hin]; [congruence|].
    destruct (IH Hin Hx) as (l1 & n & l2 & -> & Hn & Hl).
    exists (y :: l1), n, l2. split; [reflexivity|]. split; [exact Hn|].
    intros m [<- | Hm]; [exact Hy | apply Hl, Hm].
Qed.

(** X9.  The title element is always among the tags of its region, so the
    search for its index does not fail and the fallback to the middle of the
    region is never taken: the index is that of the first tag of the region
    equal to the title element, which is the title element or stands
    before it. *)
Theorem title_index_never_falls_back (pat : regex) (soup : node) (t : elt) :
  In t (title_nodes pat soup) ->
  distinct_keys (snd t) ->
  In t (region_nodes soup t)
  /\ exists l1 n l2,
       region_nodes soup t = l1 ++ n :: l2
       /\ title_index soup t = length l1
       /\ node_eqb (snd n) (snd t) = true
       /\ (forall m, In m l1 -> node_eqb (snd m) (snd t) = false)
       /\ In t (n :: l2).
Proof.
  intros Ht Hd. destruct (title_nodes_in_page _ _ _ Ht) as (Hin & Htag & _).
  pose proof (in_own_region soup t Hin Htag) as Hreg. split; [exact Hreg|].
  destruct (index_of_some _ (fun n => node_eqb (snd n) (snd t)) _ t Hreg
              (node_eqb_refl _ Hd)) as (l1 & n & l2 & E & Hn & Hl).
  exists l1, n, l2. split; [exact E|].
  split; [apply (title_index_first_equal soup t l1 n l2 E Hn Hl)|].
  split; [exact Hn|]. split; [exact Hl|].
  rewrite E in Hreg. apply in_app_or in Hreg. destruct Hreg as [Hreg | Hreg]; [|exact Hreg].
  exfalso. pose proof (Hl t Hreg) as F. cbv beta in F.
  rewrite (node_eqb_refl _ Hd) in F. discriminate.
Qed.

Lemma ace_title_index_found :
  In ace_title (title_nodes (title_regex_for (L "Wands")) wands_page)
  /\ distinct_keys (snd ace_title)
  /\ exists l1 n l2,
       region_nodes wands_page ace_title = l1 ++ n :: l2
       /\ title_index wands_page ace_title = length l1
       /\ node_eqb (snd n) (snd ace_title) = true
       /\ (forall m, In m l1 -> node_eqb (snd m) (snd ace_title) = false)
       /\ In ace_title (n :: l2).
Proof.
  assert (Ht : In ace_title (title_nodes (title_regex_for (L "Wands")) wands_page))
    by (vm_compute; left; reflexivity).
  assert (Hd : distinct_keys (snd ace_title))
    by (cbn; repeat split; constructor).
  split; [exact Ht|]. split; [exact Hd|].
  exact (proj2 (title_index_never_falls_back (title_regex_for (L "Wands")) wands_page
                  ace_title Ht Hd)).
Defined.

(** *** The title nodes *)

Lemma kids_paths_nodup (p : path) (cs : list node) :
  Forall (fun c => forall p, NoDup (map fst (descendants_at p c))) cs ->
  forall k, NoDup (map fst (kids_at p k cs)).
Proof.
  induction cs as [|c cs IH]; intros HF k; [constructor|].
  inversion HF as [|? ? Hc Hcs]; subst. cbn [kids_at map fst].
  rewrite map_app. constructor.
  - intros Hin. apply in_app_or in Hin. destruct Hin as [Hin | Hin];
      apply in_map_iff in Hin; destruct Hin as (e & E & He).
    + destruct (descendants_paths _ _ _ He) as (j & r & Ep). rewrite Ep in E.
      rewrite <- app_assoc in E. apply app_inv_head in E. discriminate.
    + destruct (kids_paths _ _ _ _ He) as (j & r & Hj & Ep). rewrite Ep in E.
      apply app_inv_head in E. injection E as E _. lia.
  - apply NoDup_app; [apply Hc | apply IH, Hcs|].
    intros q H1 H2. apply in_map_iff in H1, H2.
    destruct H1 as (e1 & E1 & He1), H2 as (e2 & E2 & He2).
    destruct (descendants_paths _ _ _ He1) as (j1 & r1 & Ep1).
    destruct (kids_paths _ _ _ _ He2) as (j2 & r2 & Hj & Ep2).
    rewrite <- E2, Ep2, Ep1, <- app_assoc in E1. apply app_inv_head in E1.
    injection E1 as E1 _. lia.
Qed.

(** No two elements of a page have the same path. *)
Lemma descendants_paths_nodup (n : node) : forall p, NoDup (map fst (descendants_at p n)).
Proof.
  induction n as [s|nm a cs IH] using node_induction; intros p; [constructor|].
  rewrite descendants_at_tag. apply kids_paths_nodup, IH.
Qed.

Lemma nodup_map_filter (B C : Type) (g : B -> C) (f : B -> bool) (l : list B) :
  NoDup (map g l) -> NoDup (map g (filter f l)).
Proof.
  induction l as [|x l IH]; intros H; [constructor|].
  cbn [map] in H. inversion H as [|? ? Hx Hl]; subst. cbn [filter].
  destruct (f x); [|apply IH, Hl]. cbn [map]. constructor; [|apply IH, Hl].
  intros Hin. apply Hx. apply in_map_iff in Hin. destruct Hin as (y & E & Hy).
  apply filter_In in Hy. rewrite <- E. apply in_map, Hy.
Qed.

(** X10.  The title nodes the scan retains are tags of the scanned content
    with one of the seven names; no two of them are the same element, and
    none of them lies inside another one. *)
Theorem title_nodes_are_not_nested (pat : regex) (soup : node) :
  NoDup (map fst (title_nodes pat soup))
  /\ (forall t, In t (title_nodes pat soup) ->
        In t (descendants (content_of soup)) /\ name_in TITLE_TAGS (snd t) = true
        /\ is_title pat (snd t) = true)
  /\ (forall t1 t2, In t1 (title_nodes pat soup) -> In t2 (title_nodes pat soup) ->
        ~ In t2 (descendants t1)).
Proof.
  split; [|split].
  - unfold title_nodes, find_all. do 2 apply nodup_map_filter.
    apply descendants_paths_nodup.
  - intros t Ht. pose proof (title_nodes_is_title _ _ _ Ht) as Hti.
    unfold title_nodes in Ht. apply filter_In in Ht. destruct Ht as [Ht _].
    unfold find_all in Ht. apply filter_In in Ht. destruct Ht as [Ht Hn].
    apply andb_true_iff in Hn. split; [exact Ht|]. split; [apply Hn | exact Hti].
  - intros t1 t2 H1 H2 Hin.
    pose proof (title_nodes_is_title _ _ _ H2) as Hti.
    destruct (title_nodes_in_page _ _ _ H2) as (_ & Htag & _).
    unfold title_nodes in H1. apply filter_In in H1. destruct H1 as [_ H1].
    apply andb_true_iff in H1. destruct H1 as [_ H1]. apply negb_true_iff in H1.
    assert (E : existsb (fun child => is_title pat (snd child))
                        (find_all (fun _ => true) t1) = true).
    { apply existsb_exists. exists t2. split; [|exact Hti].
      unfold find_all. apply filter_In. split; [exact Hin|]. rewrite Htag. reflexivity. }
    congruence.
Qed.

(** *** Searching for an anchored pattern *)

Lemma den_suffix (r : regex) :
  forall pos s pos' s', den r pos s pos' s' -> exists u, s = u ++ s'.
Proof.
  induction r as [| | |p|a IHa b IHb|a IHa b IHb|p|i a IHa]; intros pos s pos' s'; cbn [den].
  - intros [_ ->]. exists []. reflexivity.
  - intros (_ & _ & ->). exists []. reflexivity.
  - intros (_ & _ & ->). exists []. reflexivity.
  - intros (c & -> & _). exists [c]. reflexivity.
  - intros (pos1 & s1 & Ha & Hb). destruct (IHa _ _ _ _ Ha) as [u ->].
    destruct (IHb _ _ _ _ Hb) as [v ->]. exists (u ++ v). apply app_assoc.
  - intros [H | H]; [apply (IHa _ _ _ _ H) | apply (IHb _ _ _ _ H)].
  - intros (u & -> & _). exists u. reflexivity.
  - apply IHa.
Qed.

Lemma ends_eos_rest (r : regex) :
  ends_eos r -> forall pos s pos' s', den r pos s pos' s' -> s' = [] \/ s' = [nl].
Proof.
  induction r as [| | |p|a IHa b IHb|a IHa b IHb|p|i a IHa]; cbn [ends_eos];
    try contradiction; intros He pos s pos' s'; cbn [den].
  - intros (H & _ & ->). exact H.
  - intros (pos1 & s1 & _ & Hb). apply (IHb He _ _ _ _ Hb).
Qed.

Lemma match_at_iff (r : regex) (pos : nat) (s : str) :
  is_some (match_at r pos s) = true <-> exists pos' s', den r pos s pos' s'.
Proof.
  unfold match_at. split.
  - destruct (bt r pos s [] _) as [x|] eqn:H; [|discriminate]. intros _.
    apply bt_sound in H. destruct H as (pos' & s' & g' & Hd & _). exists pos', s'. exact Hd.
  - intros (pos' & s' & Hd).
    pose proof (bt_complete _ r pos s pos' s' [] (fun e _ g => Some (e, g)) Hd) as H.
    destruct (bt r pos s [] _); [reflexivity|]. exfalso. apply H; [discriminate | reflexivity].
Qed.

Lemma search_from_bos (r : regex) (s : str) :
  forall pos, search_from (Seq Bos r) (S pos) s = None.
Proof.
  induction s as [|c t IH]; intros pos; cbn [search_from]; unfold match_at; cbn [bt];
    cbn [Nat.eqb]; [reflexivity | apply IH].
Qed.

Lemma re_search_bos (r : regex) (s : str) :
  is_some (re_search (Seq Bos r) s) = is_some (match_at (Seq Bos r) 0 s).
Proof.
  unfold re_search. destruct s as [|c t]; cbn [search_from];
    destruct (match_at (Seq Bos r) 0 _); try reflexivity.
  rewrite search_from_bos. reflexivity.
Qed.

Lemma edge_ok_no_final_nl (s u : str) : edge_ok s = true -> s <> u ++ [nl].
Proof.
  intros He E. destruct (edge_ok_inv _ He) as (d & t & c & v & _ & Ev & _ & Hc).
  rewrite E in Ev. apply app_inj_tail in Ev. destruct Ev as [_ <-].
  rewrite isspace_nl in Hc. discriminate.
Qed.

(** On a text without white space at its end, searching for a pattern
    [^...$] is matching it in full. *)
Lemma search_is_fullmatch (r : regex) (s : str) :
  ends_eos r -> (s = [] \/ edge_ok s = true) ->
  is_some (re_search (Seq Bos r) s) = is_some (re_fullmatch (Seq Bos r) s).
Proof.
  intros He Hs. rewrite re_search_bos. apply eq_true_iff_eq.
  rewrite match_at_iff, re_fullmatch_iff. split.
  - intros (pos' & s' & Hd). exists pos'.
    assert (Hs' : s' = [] \/ s' = [nl]).
    { cbn [den] in Hd. destruct Hd as (pos1 & s1 & _ & Hr).
      apply (ends_eos_rest r He _ _ _ _ Hr). }
    destruct Hs' as [-> | ->]; [exact Hd|]. exfalso.
    destruct (den_suffix _ _ _ _ _ Hd) as [u Eu].
    destruct Hs as [-> | Hs]; [destruct u; discriminate|].
    apply (edge_ok_no_final_nl s u Hs Eu).
  - intros [e Hd]. exists e, []. exact Hd.
Qed.

Lemma title_regex_anchored (suit : str) :
  exists r, title_regex_for suit = Seq Bos r /\ ends_eos r.
Proof.
  unfold title_regex_for. destruct (str_eqb suit (L "Major Arcana"));
    eexists; (split; [reflexivity | exact I]).
Qed.

Lemma stops_is_title (suit : str) (n : node) :
  stops (title_regex_for suit) n = is_title (title_regex_for suit) n.
Proof.
  unfold stops, is_title. cbv zeta.
  destruct (title_regex_anchored suit) as (r & -> & He).
  destruct (nonempty (get_text (L " ") n)) eqn:Hn; [|reflexivity]. cbn [andb].
  apply search_is_fullmatch; [exact He|]. right. apply get_text_edge_ok, Hn.
Qed.

Lemma collect_from_step (pat : regex) (cur : elt) (l : list elt) :
  collect_from pat (cur :: l)
  = if is_tag (snd cur) then
      if stops pat (snd cur) then []
      else if name_in [L "p"] (snd cur) && nonempty (get_text (L " ") (snd cur))
           then get_text (L " ") (snd cur) :: collect_from pat l
           else collect_from pat l
    else collect_from pat l.
Proof.
  cbn [collect_from]. unfold stops. cbv zeta.
  destruct (is_tag (snd cur)); [|reflexivity].
  destruct (nonempty (get_text (L " ") (snd cur)) && _); [reflexivity|].
  destruct (name_in [L "p"] (snd cur)); [|reflexivity].
  destruct (nonempty (get_text (L " ") (snd cur))); reflexivity.
Qed.




(** X11.  The test that ends the collection of the description is the title
    test: a tag stops the loop exactly when its text, with strings stripped
    and joined by a space, is not empty and matches the title pattern in
    full, because on such a text searching for the anchored pattern and
    matching it in full agree. *)
Theorem stop_test_is_title_test (suit : str) (n : node) :
  (let txt := get_text (L " ") n in
   nonempty txt && is_some (re_search (title_regex_for suit) txt))
  = is_title (title_regex_for suit) n
  /\ forall cur l,
       collect_from (title_regex_for suit) (cur :: l)
       = if is_title (title_regex_for suit) (snd cur) then []
         else if name_in [L "p"] (snd cur) && nonempty (get_text (L " ") (snd cur))
              then get_text (L " ") (snd cur) :: collect_from (title_regex_for suit) l
              else collect_from (title_regex_for suit) l.
Proof.
  split; [apply (stops_is_title suit n)|].
  intros cur l. rewrite collect_from_step, stops_is_title.
  destruct (snd cur) as [s|nm a cs]; reflexivity.
Qed.



(** *** The subtitle comes from the title element *)

Lemma fullmatch_gives_search (suit : str) (s : str) :
  edge_ok s = true ->
  is_some (re_fullmatch (title_regex_for suit) s) = true ->
  is_some (re_search (title_regex_for suit) s) = true.
Proof.
  intros He Hf. destruct (title_regex_anchored suit) as (r & E & Hr). rewrite E in *.
  rewrite (search_is_fullmatch r s Hr (or_intror He)). exact Hf.
Qed.

Lemma find_nonblank_single (l : list str) (s x : str) :
  find (fun s => nonempty (strip s)) l = Some s ->
  filter nonempty (map strip l) = [x] -> x = strip s.
Proof.
  induction l as [|y l IH]; [discriminate|]. cbn [find map filter].
  destruct (nonempty (strip y)); [|exact IH].
  intros [= <-] [= <- _]. reflexivity.
Qed.

(** X13.  The string that decides the subtitle of a card is a string of the
    title element itself, the first one that is not blank, never text that
    follows the element: the subtitle is empty or that string, stripped.
    It is empty whenever the title element holds one string only, since
    that string is the title. *)
Theorem subtitle_comes_from_the_title_element (suit : str) (soup : node) (t : elt) :
  In t (title_nodes (title_regex_for suit) soup) ->
  exists s,
    find (fun s => nonempty (strip s)) (all_strings (snd t)) = Some s
    /\ (subtitle_of soup t (title_regex_for suit) = []
        \/ subtitle_of soup t (title_regex_for suit) = strip s)
    /\ (forall x, filter nonempty (map strip (all_strings (snd t))) = [x] ->
                  subtitle_of soup t (title_regex_for suit) = []).
Proof.
  intros Ht. destruct (title_next_text_is_own _ _ _ Ht) as (s & Hs & Hn).
  exists s. split; [exact Hs|]. unfold subtitle_of. rewrite Hn. cbv zeta. split.
  - destruct (looks_like_subtitle (strip s) (title_regex_for suit)); auto.
  - intros x Hx. pose proof (title_nodes_is_title _ _ _ Ht) as Hti.
    unfold is_title in Hti. cbv zeta in Hti. apply andb_true_iff in Hti.
    destruct Hti as [Hne Hfull].
    pose proof (get_text_edge_ok _ _ Hne) as Hedge.
    unfold get_text in Hfull, Hedge. rewrite Hx in Hfull, Hedge. cbn [join] in Hfull, Hedge.
    rewrite (find_nonblank_single _ _ _ Hs Hx) in Hfull, Hedge.
    unfold looks_like_subtitle.
    destruct (negb (nonempty (strip s))); [reflexivity|].
    rewrite (fullmatch_gives_search suit _ Hedge Hfull). reflexivity.
Qed.

Lemma ace_title_has_no_subtitle :
  In ace_title (title_nodes (title_regex_for (L "Wands")) wands_page)
  /\ subtitle_of wands_page ace_title (title_regex_for (L "Wands")) = [].
Proof.
  assert (Ht : In ace_title (title_nodes (title_regex_for (L "Wands")) wands_page))
    by (vm_compute; left; reflexivity).
  split; [exact Ht|].
  destruct (subtitle_comes_from_the_title_element (L "Wands") wands_page ace_title Ht)
    as (s & _ & _ & H).
  exact (H (L "Ace of Wands") eq_refl).
Defined.

(** *** The entries of a [srcset] *)

Lemma split_pieces (sep : ascii) (s : str) :
  forall x, In x (split sep s) -> ~ In sep x.
Proof.
  induction s as [|c t IH]; intros x; cbn [split].
  - intros [<- | []] [].
  - destruct (c =? sep)%char eqn:E.
    + intros [<- | Hx]; [intros [] | apply IH, Hx].
    + apply Ascii.eqb_neq in E. destruct (split sep t) as [|h r].
      * intros [<- | []] [H | []]. congruence.
      * intros [<- | Hx].
        -- intros [H | H]; [congruence|]. apply (IH h); [left; reflexivity | exact H].
        -- apply IH. right. exact Hx.
Qed.

Lemma split_head_prefix (sep : ascii) (u : str) : exists q, u = hd [] (split sep u) ++ q.
Proof.
  destruct (split_head_spec sep u) as [_ [H | (q & H)]]; cbn zeta in H.
  - exists []. rewrite app_nil_r. exact H.
  - exists (sep :: q). exact H.
Qed.

Lemma split_head_cons (sep c : ascii) (t : str) :
  c <> sep -> exists h, hd [] (split sep (c :: t)) = c :: h.
Proof.
  intros Hc. cbn [split]. apply Ascii.eqb_neq in Hc. rewrite Hc.
  destruct (split sep t) as [|h r]; eexists; reflexivity.
Qed.

(** X14.  Every URL taken from a [srcset] attribute is the start of one of
    its comma-separated entries, stripped, up to the first space character
    of the entry: it is not empty, begins with a character that is no white
    space, and contains neither a space nor a comma.  Only the space
    character ends the URL: a descriptor that a tab separates from the URL
    stays in it. *)
Theorem srcset_urls_end_at_the_first_space (n : node) (u : str) :
  In u (srcset_urls n) ->
  (u <> []
   /\ hd_is isspace u = false
   /\ ~ In " "%char u
   /\ ~ In ","%char u
   /\ exists v p q, attr (L "srcset") n = Some v /\ In p (split "," v)
                    /\ strip p = u ++ q /\ (q = [] \/ hd_is (Ascii.eqb " ") q = true))
  /\ srcset_urls (Tag (L "img")
                     [(L "srcset", L "/images/a.jpg 2x, /images/b.jpg" ++ tab :: L "3x")] [])
     = [L "/images/a.jpg"; L "/images/b.jpg" ++ tab :: L "3x"].
Proof.
  intros Hin. split; [|vm_compute; reflexivity]. revert Hin.
  unfold srcset_urls. destruct (attr (L "srcset") n) as [v|]; [|intros []].
  rewrite in_flat_map. intros (p & Hp & Hu).
  destruct (nonempty (strip p)) eqn:Hne; [|destruct Hu]. destruct Hu as [<- | []].
  pose proof (edge_ok_strip _ Hne) as He.
  destruct (edge_ok_inv _ He) as (d & t & _ & _ & Ed & _ & Hd & _).
  assert (Hdsp : d <> " "%char) by (intros ->; discriminate).
  destruct (split_head_cons " " d t Hdsp) as [h Eh]. rewrite <- Ed in Eh.
  destruct (split_head_spec " " (strip p)) as [Hns Hsp]. cbn zeta in Hns, Hsp.
  split; [rewrite Eh; discriminate|].
  split; [rewrite Eh; cbn [hd_is]; exact Hd|].
  split; [exact Hns|]. split.
  - intros Hin. apply (split_pieces "," v p Hp).
    destruct (strip_infix p) as (w & y & Ep). rewrite Ep.
    apply in_or_app. right. apply in_or_app. left.
    destruct (split_head_prefix " " (strip p)) as [q Eq]. rewrite Eq.
    apply in_or_app. left. exact Hin.
  - exists v, p. destruct Hsp as [E | (q & E)].
    + exists []. split; [reflexivity|]. split; [exact Hp|].
      split; [rewrite app_nil_r; exact E | left; reflexivity].
    + exists (" "%char :: q). split; [reflexivity|]. split; [exact Hp|].
      split; [exact E | right; reflexivity].
Qed.

Lemma srcset_sample :
  In (L "/images/a.jpg") (srcset_urls (Tag (L "img")
                            [(L "srcset", L "/images/a.jpg 1x, /images/b.jpg 2x")] []))
  /\ ~ In " "%char (L "/images/a.jpg").
Proof.
  assert (H : In (L "/images/a.jpg")
                (srcset_urls (Tag (L "img")
                   [(L "srcset", L "/images/a.jpg 1x, /images/b.jpg 2x")] [])))
    by (vm_compute; left; reflexivity).
  split; [exact H|].
  exact (proj1 (proj2 (proj2 (proj1 (srcset_urls_end_at_the_first_space _ _ H))))).
Defined.

(** *** The helper [is_image_href] *)

Lemma startswith_lower (p s : str) :
  startswith p s = true -> startswith (lower p) (lower s) = true.
Proof.
  revert s. induction p as [|a p IH]; intros [|b s]; cbn [startswith lower map];
    try discriminate; try reflexivity.
  intros H. apply andb_true_iff in H. destruct H as [H1 H2].
  apply Ascii.eqb_eq in H1. subst b. rewrite Ascii.eqb_refl. apply (IH _ H2).
Qed.

Lemma contains_lower (p s : str) :
  contains p s = true -> contains (lower p) (lower s) = true.
Proof.
  induction s as [|c s IH]; cbn [contains lower map]; intros H;
    apply orb_true_iff in H; apply orb_true_iff.
  - destruct H as [H | H]; [|discriminate]. left. apply (startswith_lower p [] H).
  - destruct H as [H | H]; [left; apply (startswith_lower p (c :: s) H) | right; apply IH, H].
Qed.

Section ImageHref.
Variable urljoin : str -> str -> str.

(** X15.  [is_image_href] rejects a missing or empty [href] and otherwise
    looks only at the part before the first question mark.  It accepts no
    more than the filter of the extractor does: an accepted [href] whose
    lower-cased form contains none of logo, header, favicon, sprite is kept
    by the extractor, cleaned.  It accepts less, since it looks for
    [/images/] without lowering the case. *)
Theorem is_image_href_is_narrower_than_the_filter :
  is_image_href None = false
  /\ is_image_href (Some []) = false
  /\ (forall b q, ~ In "?"%char b ->
        is_image_href (Some (b ++ "?"%char :: q)) = is_image_href (Some b))
  /\ (forall h, is_image_href (Some h) = true ->
        existsb (fun bad => contains bad (lower (hd [] (split "?" h)))) BAD_WORDS = false ->
        clean_url urljoin h = [urljoin BASE (hd [] (split "?" h))])
  /\ is_image_href (Some (L "/IMAGES/AceOfWands")) = false
  /\ clean_url urljoin (L "/IMAGES/AceOfWands") = [urljoin BASE (L "/IMAGES/AceOfWands")].
Proof.
  split; [reflexivity|]. split; [reflexivity|]. split; [|split; [|split; reflexivity]].
  - intros b q Hb. unfold is_image_href.
    destruct b as [|c b]; [reflexivity|].
    pose proof (split_head_app "?" (c :: b) q Hb) as E1. cbn [app] in E1.
    cbn [app nonempty negb]. cbv zeta.
    rewrite E1, (split_head_none "?" (c :: b) Hb). reflexivity.
  - intros h Hh Hbad. unfold is_image_href in Hh. unfold clean_url.
    destruct (negb (nonempty h)); [discriminate|]. cbv zeta in *. rewrite Hbad.
    apply orb_true_iff in Hh. destruct Hh as [Hh | Hh].
    + rewrite Hh. reflexivity.
    + apply contains_lower in Hh. change (lower (L "/images/")) with (L "/images/") in Hh.
      rewrite Hh, orb_true_r. reflexivity.
Qed.

End ImageHref.

(** *** The file of a download *)

Lemma rfind_spec (c : ascii) (s : str) :
  (rfind c s = (-1)%Z /\ ~ In c s)
  \/ exists pre post, s = pre ++ c :: post /\ ~ In c post
                      /\ rfind c s = Z.of_nat (length pre).
Proof.
  induction s as [|x t IH]; [left; split; [reflexivity | intros []]|].
  cbn [rfind]. cbv zeta. destruct IH as [[Hr Hn] | (pre & post & E & Hn & Hr)].
  - rewrite Hr. cbn [Z.leb Z.compare]. destruct (x =? c)%char eqn:Ex.
    + apply Ascii.eqb_eq in Ex. subst x. right. exists [], t. repeat split. exact Hn.
    + apply Ascii.eqb_neq in Ex. left. split; [reflexivity|].
      intros [H | H]; [congruence | exact (Hn H)].
  - right. exists (x :: pre), post. rewrite Hr.
    replace (0 <=? Z.of_nat (length pre))%Z with true by (symmetry; apply Z.leb_le; lia).
    split; [rewrite E; reflexivity|]. split; [exact Hn|]. cbn [length]. lia.
Qed.

(** An extension is empty, or what follows the last dot, the dot included;
    there is no slash in it. *)
Lemma splitext_ext_spec (p : str) :
  splitext_ext p = []
  \/ exists pre post, p = pre ++ "."%char :: post /\ splitext_ext p = "."%char :: post
                      /\ ~ In "."%char post /\ ~ In "/"%char post.
Proof.
  unfold splitext_ext. cbv zeta.
  destruct (rfind "/" p <? rfind "." p)%Z eqn:Hlt; [|left; reflexivity].
  apply Z.ltb_lt in Hlt.
  destruct (existsb _ _); [|left; reflexivity].
  destruct (rfind_spec "." p) as [[Hd _] | (pre & post & E & Hnd & Hd)].
  - exfalso. destruct (rfind_spec "/" p) as [[Hs _] | (pre' & post' & _ & _ & Hs)]; lia.
  - right. exists pre, post. split; [exact E|]. split; [|split; [exact Hnd|]].
    + rewrite Hd, Nat2Z.id. rewrite E at 1. rewrite skipn_app, Nat.sub_diag, skipn_all.
      reflexivity.
    + destruct (rfind_spec "/" p) as [[_ Hn] | (pre' & post' & E' & Hn' & Hs)].
      * intros H. apply Hn. rewrite E. apply in_or_app. right. right. exact H.
      * rewrite Hs, Hd in Hlt. assert (Hlen : length pre' < length pre) by lia.
        rewrite E in E'. apply app_eq_app in E'.
        destruct E' as [l [[E1 E2] | [E1 E2]]].
        -- destruct l as [|y l].
           ++ rewrite app_nil_r in E1. subst pre'. lia.
           ++ cbn [app] in E2. injection E2 as _ E2. rewrite E2 in Hn'.
              intros H. apply Hn'. apply in_or_app. right. right. exact H.
        -- exfalso. rewrite E1, length_app in Hlen. lia.
Qed.

Lemma download_ext_spec (url : str) :
  exists e, download_ext url = "."%char :: e /\ length e <= 5 /\ ~ In "/"%char e.
Proof.
  unfold download_ext. cbv zeta.
  destruct (splitext_ext_spec (hd [] (split "?" url)))
    as [-> | (pre & post & _ & -> & _ & Hs)].
  - exists (L "jpg"). cbn. split; [reflexivity|]. split; [lia|].
    intuition discriminate.
  - destruct (6 <? length ("."%char :: post)) eqn:Hl; cbn [orb nonempty negb].
    + exists (L "jpg"). cbn. split; [reflexivity|]. split; [lia|].
      intuition discriminate.
    + apply Nat.ltb_ge in Hl. cbn [length] in Hl. exists post.
      split; [reflexivity|]. split; [lia | exact Hs].
Qed.

Lemma sub_name_chars (s : str) :
  forallb name_char (re_sub (plus (fun c => negb (name_char c))) (L "_") s) = true.
Proof.
  induction s as [s IH] using str_len_ind. destruct s as [|c t]; [reflexivity|].
  rewrite re_sub_plus_cons. destruct (name_char c) eqn:Hc; cbn [negb].
  - cbn [forallb]. rewrite Hc. apply IH. cbn [length]. lia.
  - cbn [app L list_ascii_of_string forallb]. apply IH. cbn [length].
    pose proof (length_skipn_le (run (fun c => negb (name_char c)) t) t). lia.
Qed.

Lemma lstrip_chr_suffix (a : ascii) (s : str) : exists w, s = w ++ lstrip_chr a s.
Proof.
  induction s as [|c t IH]; [exists []; reflexivity|]. cbn [lstrip_chr].
  destruct (c =? a)%char; [|exists []; reflexivity].
  destruct IH as [w E]. exists (c :: w). cbn [app]. rewrite <- E. reflexivity.
Qed.

Lemma hd_lstrip_chr (a : ascii) (s : str) : hd_is (Ascii.eqb a) (lstrip_chr a s) = false.
Proof.
  induction s as [|c t IH]; [reflexivity|]. cbn [lstrip_chr].
  destruct (c =? a)%char eqn:E; [exact IH|]. cbn [hd_is]. rewrite Ascii.eqb_sym. exact E.
Qed.

Lemma strip_chr_infix (a : ascii) (s : str) : exists w y, s = w ++ strip_chr a s ++ y.
Proof.
  unfold strip_chr. destruct (lstrip_chr_suffix a s) as [w Ew].
  destruct (lstrip_chr_suffix a (rev (lstrip_chr a s))) as [y Ey].
  exists w, (rev y). rewrite <- rev_app_distr, <- Ey, rev_involutive. exact Ew.
Qed.

Lemma strip_chr_edges (a : ascii) (s : str) :
  hd_is (Ascii.eqb a) (strip_chr a s) = false
  /\ hd_is (Ascii.eqb a) (rev (strip_chr a s)) = false.
Proof.
  unfold strip_chr. split; [|rewrite rev_involutive; apply hd_lstrip_chr].
  destruct (lstrip_chr_suffix a (rev (lstrip_chr a s))) as [y Ey].
  apply hd_prefix with (y := rev y).
  rewrite <- rev_app_distr, <- Ey, rev_involutive. apply hd_lstrip_chr.
Qed.

Lemma download_base_spec (hint : str) :
  forallb name_char (download_base hint) = true
  /\ hd_is (Ascii.eqb "_") (download_base hint) = false
  /\ hd_is (Ascii.eqb "_") (rev (download_base hint)) = false.
Proof.
  unfold download_base. split; [|apply strip_chr_edges].
  destruct (strip_chr_infix "_" (re_sub (plus (fun c => negb (name_char c))) (L "_") hint))
    as (w & y & E).
  pose proof (sub_name_chars hint) as H. rewrite E in H.
  rewrite !forallb_app in H. apply andb_true_iff in H. destruct H as [_ H].
  apply andb_true_iff in H. apply H.
Qed.

Lemma name_chars_no_slash (s : str) : forallb name_char s = true -> ~ In "/"%char s.
Proof.
  intros H Hin. rewrite forallb_forall in H. specialize (H _ Hin). discriminate.
Qed.

Lemma download_name_no_slash (url hint : str) :
  ~ In "/"%char (download_base hint ++ download_ext url).
Proof.
  destruct (download_base_spec hint) as (Hb & _).
  destruct (download_ext_spec url) as (e & -> & _ & He).
  intros H. apply in_app_or in H. destruct H as [H | [H | H]];
    [exact (name_chars_no_slash _ Hb H) | discriminate | exact (He H)].
Qed.

Lemma path_join_images (name : str) :
  ~ In "/"%char name -> path_join IMG_DIR name = L "images/" ++ name.
Proof.
  intros Hn. unfold path_join. destruct name as [|c t]; [reflexivity|].
  cbn [L list_ascii_of_string startswith].
  destruct ("/" =? c)%char eqn:E; [|reflexivity].
  apply Ascii.eqb_eq in E. exfalso. apply Hn. left. symmetry. exact E.
Qed.

(** X16.  The file an image is written to lies directly in the image
    directory, whatever the URL and the hint are: its name is the hint
    with every run of characters outside [[a-zA-Z0-9_-]] replaced by one
    underscore and the underscores at both ends removed, followed by an
    extension of a dot and at most five characters ([.jpg] when the URL has
    none or a longer one), and there is no slash in it.  The driver starts
    a download for the rows with an image URL only. *)
Theorem download_file_is_inside_the_image_directory (url hint : str) :
  forallb name_char (download_base hint) = true
  /\ hd_is (Ascii.eqb "_") (download_base hint) = false
  /\ hd_is (Ascii.eqb "_") (rev (download_base hint)) = false
  /\ (exists e, download_ext url = "."%char :: e /\ length e <= 5 /\ ~ In "/"%char e)
  /\ ~ In "/"%char (download_base hint ++ download_ext url)
  /\ download_path url IMG_DIR hint
     = L "images/" ++ download_base hint ++ download_ext url
  /\ forall rows u p,
       In (u, p) (downloads rows) ->
       exists r name, In r rows /\ u = image_url r /\ u <> []
                      /\ p = L "images/" ++ name /\ ~ In "/"%char name.
Proof.
  destruct (download_base_spec hint) as (H1 & H2 & H3).
  split; [exact H1|]. split; [exact H2|]. split; [exact H3|].
  split; [apply download_ext_spec|]. split; [apply download_name_no_slash|].
  split; [apply path_join_images, download_name_no_slash|].
  intros rows u p Hin. unfold downloads in Hin. apply in_flat_map in Hin.
  destruct Hin as (r & Hr & Hin).
  destruct (nonempty (image_url r)) eqn:Hne; [|destruct Hin].
  destruct Hin as [[= <- <-] | []].
  exists r, (download_base (suit_arcana r ++ L "_" ++ card r) ++ download_ext (image_url r)).
  split; [exact Hr|]. split; [reflexivity|].
  split; [intros E; rewrite E in Hne; discriminate|].
  split; [apply path_join_images, download_name_no_slash | apply download_name_no_slash].
Qed.

(** *** Sorting blocks of rows *)

Section SortingBlocks.
Variables (B K : Type) (ltb : K -> K -> bool) (key : B -> K).

Lemma insert_stable_app (x : B) (s1 s2 : list B) :
  (forall b, In b s2 -> ltb (key b) (key x) = false) ->
  insert_stable ltb key false x (s1 ++ s2) = insert_stable ltb key false x s1 ++ s2.
Proof.
  intros H. induction s1 as [|y s1 IH]; cbn [app insert_stable].
  - destruct s2 as [|b s2]; [reflexivity|]. cbn [insert_stable].
    rewrite (H b (or_introl eq_refl)). reflexivity.
  - destruct (ltb (key y) (key x)); [rewrite IH|]; reflexivity.
Qed.

(** Rows that must not come before the rows in front of them are sorted on
    their own. *)
Lemma py_sorted_app (l1 l2 : list B) :
  (forall a b, In a l1 -> In b l2 -> ltb (key b) (key a) = false) ->
  py_sorted ltb key false (l1 ++ l2)
  = py_sorted ltb key false l1 ++ py_sorted ltb key false l2.
Proof.
  intros H. induction l1 as [|x l1 IH]; [reflexivity|].
  cbn [app py_sorted fold_right]. fold (py_sorted ltb key false (l1 ++ l2)).
  fold (py_sorted ltb key false l1).
  rewrite IH by (intros a b Ha Hb; apply H; [right; exact Ha | exact Hb]).
  apply insert_stable_app. intros b Hb. apply (H x b); [left; reflexivity|].
  apply (Permutation_in _ (Permutation_sym (py_sorted_perm _ _ ltb key false l2))), Hb.
Qed.

(** Sorting rows none of which must come before another leaves them as
    they are. *)
Lemma py_sorted_equal_keys (l : list B) :
  (forall a b, In a l -> In b l -> ltb (key b) (key a) = false) ->
  py_sorted ltb key false l = l.
Proof.
  intros H. induction l as [|x l IH]; [reflexivity|].
  cbn [py_sorted fold_right]. fold (py_sorted ltb key false l).
  rewrite IH by (intros a b Ha Hb; apply H; right; assumption).
  destruct l as [|y l]; [reflexivity|]. cbn [insert_stable].
  rewrite (H x y); [reflexivity | left; reflexivity | right; left; reflexivity].
Qed.

End SortingBlocks.

Lemma all_keys_app (l1 l2 : list CardRecord) :
  all_keys (l1 ++ l2)
  = match all_keys l1, all_keys l2 with
    | Some a, Some b => Some (a ++ b)
    | _, _ => None
    end.
Proof.
  induction l1 as [|r l1 IH]; cbn [app all_keys].
  - destruct (all_keys l2); reflexivity.
  - rewrite IH. destruct (sort_key r), (all_keys l1), (all_keys l2); reflexivity.
Qed.

Lemma all_keys_length (rows : list CardRecord) (ks : list (nat * nat)) :
  all_keys rows = Some ks -> length ks = length rows.
Proof.
  revert ks. induction rows as [|r rows IH]; intros ks; cbn [all_keys].
  - intros [= <-]. reflexivity.
  - destruct (sort_key r); [|discriminate]. destruct (all_keys rows); [|discriminate].
    intros [= <-]. cbn [length]. rewrite (IH _ eq_refl). reflexivity.
Qed.

Lemma combine_app_eq (B C : Type) (a b : list B) (c d : list C) :
  length a = length c -> combine (a ++ b) (c ++ d) = combine a c ++ combine b d.
Proof.
  revert c. induction a as [|x a IH]; intros [|y c] H; try discriminate; [reflexivity|].
  cbn [app combine]. rewrite IH by (cbn [length] in H; lia). reflexivity.
Qed.

(** Two blocks of rows, the sections of the first before those of the
    second in [order_key], are sorted apart. *)
Lemma sort_rows_app (l1 l2 o1 o2 : list CardRecord) :
  sort_rows l1 = Some o1 -> sort_rows l2 = Some o2 ->
  (forall a b ka kb, In a l1 -> In b l2 -> sort_key a = Some ka -> sort_key b = Some kb ->
                     fst ka < fst kb) ->
  sort_rows (l1 ++ l2) = Some (o1 ++ o2).
Proof.
  unfold sort_rows. rewrite all_keys_app.
  destruct (all_keys l1) as [k1|] eqn:H1; [|discriminate].
  destruct (all_keys l2) as [k2|] eqn:H2; [|discriminate].
  intros [= <-] [= <-] Hlt. f_equal.
  rewrite (combine_app_eq _ _ _ _ _ _ (all_keys_length _ _ H1)).
  rewrite py_sorted_app, map_app; [reflexivity|].
  intros a b Ha Hb. destruct (all_keys_spec _ _ H1) as [_ K1].
  destruct (all_keys_spec _ _ H2) as [_ K2].
  pose proof (in_combine_r _ _ _ _ (eq_ind _ (fun p => In p _) Ha _ (surjective_pairing a)))
    as Ra.
  pose proof (in_combine_r _ _ _ _ (eq_ind _ (fun p => In p _) Hb _ (surjective_pairing b)))
    as Rb.
  specialize (Hlt _ _ _ _ Ra Rb (K1 _ Ha) (K2 _ Hb)).
  destruct (pair_ltb (fst b) (fst a)) eqn:F; [|reflexivity].
  apply pair_ltb_spec in F. lia.
Qed.

Lemma sort_rows_majors (rows : list CardRecord) :
  (forall r, In r rows -> is_major r = true) -> sort_rows rows = Some rows.
Proof.
  intros H. unfold sort_rows.
  destruct (sort_rows_total rows) as [out Hout].
  { intros r Hr. specialize (H r Hr). unfold is_major in H. apply str_eqb_eq in H.
    rewrite H. left. reflexivity. }
  unfold sort_rows in Hout. destruct (all_keys rows) as [ks|] eqn:Hk; [|discriminate].
  destruct (all_keys_spec _ _ Hk) as [Hm Hkeys]. f_equal.
  rewrite py_sorted_equal_keys; [exact Hm|].
  intros a b Ha Hb.
  pose proof (Hkeys _ Ha) as Ka. pose proof (Hkeys _ Hb) as Kb.
  assert (Ra : In (snd a) rows)
    by (apply (in_combine_r ks rows (fst a)); rewrite <- surjective_pairing; exact Ha).
  assert (Rb : In (snd b) rows)
    by (apply (in_combine_r ks rows (fst b)); rewrite <- surjective_pairing; exact Hb).
  rewrite (sort_key_major _ (H _ Ra)) in Ka. rewrite (sort_key_major _ (H _ Rb)) in Kb.
  injection Ka as <-. injection Kb as <-. reflexivity.
Qed.

Lemma dict_get_some_in (B : Type) (k : str) (d : list (str * B)) (v : B) :
  dict_get k d = Some v -> In k (map fst d).
Proof.
  induction d as [|[k' v'] d IH]; cbn [dict_get map fst]; [discriminate|].
  destruct (str_eqb k k') eqn:E; [|intros H; right; apply IH, H].
  apply str_eqb_eq in E. intros _. left. symmetry. exact E.
Qed.

(** *** The driver *)

Section DriverFacts.
Variable urljoin : str -> str -> str.
Variable get_soup : str -> exn + node.
Variable noscript_soup : list node -> option node.

Lemma scrape_section_fold (pages : list (str * str)) :
  forall acc,
    fold_left (scrape_section urljoin get_soup noscript_soup) pages acc
    = (fst acc ++ flat_map (section_events urljoin get_soup noscript_soup) pages,
       snd acc ++ flat_map (section_rows urljoin get_soup noscript_soup) pages).
Proof.
  induction pages as [|[suit path_] pages IH]; intros [ev rows]; cbn [fold_left flat_map fst snd].
  - rewrite !app_nil_r. reflexivity.
  - rewrite IH. unfold scrape_section, section_events, section_rows. cbn [fst snd].
    destruct (parse_card_page urljoin get_soup noscript_soup suit path_) as [ev' [e|rs]];
      cbn [fst snd]; f_equal; norm_app; rewrite ?app_nil_r; reflexivity.
Qed.

Lemma section_rows_suit (page : str * str) (r : CardRecord) :
  In r (section_rows urljoin get_soup noscript_soup page) -> suit_arcana r = fst page.
Proof.
  unfold section_rows.
  destruct (parse_card_page urljoin get_soup noscript_soup (fst page) (snd page))
    as [ev [e|rs]] eqn:Hp; cbn [snd]; [intros []|].
  intros Hr. apply (parse_card_page_suit urljoin get_soup noscript_soup _ _ _ _ _ Hp Hr).
Qed.

Lemma section_key (page : str * str) (r : CardRecord) (k : nat * nat) :
  In r (section_rows urljoin get_soup noscript_soup page) ->
  sort_key r = Some k -> section_order page = Some (fst k).
Proof.
  intros Hr Hk. apply section_rows_suit in Hr. unfold section_order. rewrite <- Hr.
  unfold sort_key in Hk. cbv zeta in Hk.
  destruct (dict_get (suit_arcana r) order_key) as [o|]; [|discriminate].
  destruct (str_eqb (suit_arcana r) (L "Major Arcana")); injection Hk as <-; reflexivity.
Qed.

Lemma sort_rows_sections (pages : list (str * str)) :
  in_key_order pages ->
  exists outs,
    Forall2 (fun p out => sort_rows (section_rows urljoin get_soup noscript_soup p) = Some out)
            pages outs
    /\ sort_rows (flat_map (section_rows urljoin get_soup noscript_soup) pages)
       = Some (concat outs).
Proof.
  intros [Hs Hk]. induction pages as [|p pages IH].
  - exists []. split; [constructor | reflexivity].
  - inversion Hs as [|? ? Hs' Hlt]; subst. inversion Hk as [|? ? [a Ha] Hk']; subst.
    destruct (IH Hs' Hk') as (outs & HF & Hrest).
    destruct (sort_rows_total (section_rows urljoin get_soup noscript_soup p)) as [out Hout].
    { intros r Hr. apply section_rows_suit in Hr. rewrite Hr.
      change (map fst PAGES) with (map fst order_key).
      apply (dict_get_some_in _ _ _ _ Ha). }
    exists (out :: outs). split; [constructor; assumption|].
    cbn [flat_map concat]. apply sort_rows_app; [exact Hout | exact Hrest|].
    intros x y kx ky Hx Hy Kx Ky. apply in_flat_map in Hy. destruct Hy as (q & Hq & Hy).
    rewrite Forall_forall in Hlt. destruct (Hlt q Hq) as (a' & b & Ea & Eb & Hab).
    rewrite (section_key _ _ _ Hx Kx) in Ea. rewrite (section_key _ _ _ Hy Ky) in Eb.
    injection Ea as <-. injection Eb as <-. exact Hab.
Qed.

Lemma pages_in_key_order : in_key_order PAGES.
Proof.
  split.
  - repeat (constructor;
            [|repeat (constructor; [do 2 eexists; split; [reflexivity|];
                                    split; [reflexivity | lia]|]); try constructor]).
    constructor.
  - repeat (constructor; [eexists; reflexivity|]). constructor.
Qed.

(** X18.  The sort of the driver never moves a row out of its section: the
    sorted rows are the rows of the five sections in the order of [PAGES],
    each section sorted on its own, and the rows of the Major Arcana are
    left as the page gave them. *)
Theorem sort_keeps_sections_apart :
  exists outs,
    Forall2 (fun p out => sort_rows (section_rows urljoin get_soup noscript_soup p) = Some out)
            PAGES outs
    /\ main_rows urljoin get_soup noscript_soup = Some (concat outs)
    /\ hd_error outs
       = Some (section_rows urljoin get_soup noscript_soup
                            (L "Major Arcana", L "/majorarcana")).
Proof.
  destruct (sort_rows_sections PAGES pages_in_key_order) as (outs & HF & Hs).
  exists outs. split; [exact HF|]. split.
  - unfold main_rows, scrape_all. rewrite scrape_section_fold. exact Hs.
  - unfold PAGES in HF. inversion HF as [|? out ? outs' Hout _]; subst. cbn [hd_error].
    rewrite sort_rows_majors in Hout; [exact (eq_sym Hout)|].
    intros r Hr. apply section_rows_suit in Hr. unfold is_major. rewrite Hr. reflexivity.
Qed.

End DriverFacts.

(** *** The key of a row *)

Lemma ci_match_exact (u w : str) : ci_match false u w -> u = w.
Proof.
  induction 1 as [|c a u w Hc _ IH]; [reflexivity|].
  unfold chr in Hc. apply Ascii.eqb_eq in Hc. subst. reflexivity.
Qed.

Lemma startswith_app (w rest : str) : startswith w (w ++ rest) = true.
Proof.
  induction w as [|a w IH]; [destruct rest; reflexivity|].
  cbn [app startswith]. rewrite Ascii.eqb_refl. exact IH.
Qed.

Lemma no_rank_no_match (n : str) :
  (forall w, In w RANK_WORDS -> startswith w n = false) ->
  re_match (Seq Bos (RANKS false)) n = None.
Proof.
  intros H. unfold re_match.
  destruct (match_at (Seq Bos (RANKS false)) 0 n) as [m|] eqn:E; [|reflexivity]. exfalso.
  assert (Hs : is_some (match_at (Seq Bos (RANKS false)) 0 n) = true) by (rewrite E; reflexivity).
  apply match_at_iff in Hs. destruct Hs as (pos' & s' & Hd). cbn [den] in Hd.
  destruct Hd as (pos1 & s1 & (_ & -> & ->) & Hr).
  change (den (RANKS false) 0 n pos' s') in Hr. apply den_ranks in Hr.
  destruct Hr as (rank & r & Hin & -> & Hr & _). apply ci_match_exact in Hr. subst r.
  specialize (H rank Hin). rewrite (startswith_app rank s') in H. discriminate.
Qed.

Lemma lower_start_no_rank (c : ascii) (t : str) :
  isupper c = false -> forall w, In w RANK_WORDS -> startswith w (c :: t) = false.
Proof.
  intros Hc w Hw. cbn in Hw.
  repeat (destruct Hw as [<- | Hw];
          [cbn [L list_ascii_of_string startswith];
           match goal with
           | |- (?a =? c)%char && _ = false =>
               destruct (a =? c)%char eqn:E; [|reflexivity];
               apply Ascii.eqb_eq in E; subst c; discriminate
           end|]).
  destruct Hw.
Qed.

(** X19.  The sort key looks for the rank at the head of a title in exact
    case, although the title pattern accepts every case: a row of a suit
    whose title begins with none of the fourteen rank words as they are
    spelled gets the rank number 99, as every title does that does not
    begin with a capital letter. *)
Theorem sort_key_is_case_sensitive (r : CardRecord) (o : nat) :
  dict_get (suit_arcana r) order_key = Some o ->
  is_major r = false ->
  ((forall w, In w RANK_WORDS -> startswith w (card r) = false) ->
   sort_key r = Some (o, 99))
  /\ (hd_is isupper (card r) = false -> sort_key r = Some (o, 99)).
Proof.
  intros Ho Hm.
  assert (H : (forall w, In w RANK_WORDS -> startswith w (card r) = false) ->
              sort_key r = Some (o, 99)).
  { intros Hno. unfold sort_key. cbv zeta. unfold is_major in Hm. rewrite Ho, Hm.
    rewrite (no_rank_no_match _ Hno). reflexivity. }
  split; [exact H|]. intros Hc. apply H. destruct (card r) as [|c t].
  - intros w Hw. cbn in Hw.
    repeat (destruct Hw as [<- | Hw]; [reflexivity|]). destruct Hw.
  - apply lower_start_no_rank. exact Hc.
Qed.

Lemma lower_case_ace_sorts_last :
  dict_get (suit_arcana lower_case_ace) order_key = Some 1
  /\ is_major lower_case_ace = false
  /\ is_some (re_fullmatch (title_regex_for (L "Wands")) (card lower_case_ace)) = true
  /\ sort_key lower_case_ace = Some (1, 99)
  /\ sort_key king_of_wands = Some (1, 14).
Proof.
  split; [reflexivity|]. split; [reflexivity|]. split; [vm_compute; reflexivity|].
  split; [|reflexivity].
  exact (proj2 (sort_key_is_case_sensitive lower_case_ace 1 eq_refl eq_refl) eq_refl).
Defined.

Lemma all_keys_none (rows : list CardRecord) :
  all_keys rows = None <-> exists r, In r rows /\ sort_key r = None.
Proof.
  induction rows as [|r rows IH]; cbn [all_keys].
  - split; [discriminate | intros (r & [] & _)].
  - destruct (sort_key r) as [k|] eqn:Hk.
    + destruct (all_keys rows) as [ks|].
      * split; [discriminate|]. intros (r' & [<- | Hr'] & Hn); [congruence|].
        destruct IH as [_ IH]. discriminate IH. exists r'. auto.
      * split; [|reflexivity]. intros _. destruct IH as [IH _].
        destruct (IH eq_refl) as (r' & Hr' & Hn). exists r'. split; [right; exact Hr' | exact Hn].
    + split; [|reflexivity]. intros _. exists r. split; [left; reflexivity | exact Hk].
Qed.

Lemma dict_get_none (B : Type) (k : str) (d : list (str * B)) :
  dict_get k d = None <-> ~ In k (map fst d).
Proof.
  induction d as [|[k' v] d IH]; cbn [dict_get map fst].
  - split; [intros _ [] | reflexivity].
  - destruct (str_eqb k k') eqn:E.
    + apply str_eqb_eq in E. subst k'. split; [discriminate | intros H; exfalso; apply H; left; reflexivity].
    + rewrite IH. split.
      * intros H [H1 | H1]; [subst k'; rewrite str_eqb_refl in E; discriminate | exact (H H1)].
      * intros H H1. apply H. right. exact H1.
Qed.

(** X20.  Sorting the rows fails, with the [KeyError] of [order_key[s]],
    exactly when the section of some row is none of the five sections; the
    key of a row with one of these sections is always defined. *)
Theorem sort_fails_on_unknown_sections_only (rows : list CardRecord) :
  (forall r, sort_key r = None <-> ~ In (suit_arcana r) (map fst PAGES))
  /\ (sort_rows rows = None
      <-> exists r, In r rows /\ ~ In (suit_arcana r) (map fst PAGES)).
Proof.
  assert (H : forall r, sort_key r = None <-> ~ In (suit_arcana r) (map fst PAGES)).
  { intros r. change (map fst PAGES) with (map fst order_key).
    rewrite <- dict_get_none. unfold sort_key. cbv zeta.
    destruct (dict_get (suit_arcana r) order_key) as [o|].
    - destruct (str_eqb (suit_arcana r) (L "Major Arcana")); split; discriminate.
    - split; reflexivity. }
  split; [exact H|]. unfold sort_rows.
  destruct (all_keys rows) as [ks|] eqn:Hk.
  - split; [discriminate|]. intros (r & Hr & Hn). exfalso.
    assert (F : all_keys rows = None) by (apply all_keys_none; exists r; split; [exact Hr | apply H, Hn]).
    congruence.
  - split; [|reflexivity]. intros _. apply all_keys_none in Hk.
    destruct Hk as (r & Hr & Hn). exists r. split; [exact Hr | apply H, Hn].
Qed.

(** *** The driver when a section fails *)

Lemma mapM_total (A B : Type) (f : A -> exn + B) (g : A -> B) (l : list A) :
  (forall x, f x = inr (g x)) -> Raising.mapM f l = inr (map g l).
Proof.
  intros H. induction l as [|x l IH]; [reflexivity|].
  cbn [Raising.mapM map]. rewrite H, IH. reflexivity.
Qed.

Section RaisingAgrees.
Variable urljoin : str -> str -> exn + str.
Variable get_soup : str -> exn + node.
Variable noscript_soup : list node -> option node.
Variable total_urljoin : str -> str -> str.
Hypothesis never_raises : forall b u, urljoin b u = inr (total_urljoin b u).

Lemma clean_url_agrees (u : str) :
  Raising.clean_url urljoin u = inr (clean_url total_urljoin u).
Proof.
  unfold Raising.clean_url, clean_url. cbv zeta. destruct (negb (nonempty u)); [reflexivity|].
  destruct (existsb _ BAD_WORDS); [reflexivity|].
  destruct (_ || _); [|reflexivity]. rewrite never_raises. reflexivity.
Qed.

Lemma extract_agrees (el : elt) :
  Raising._extract_img_url_from urljoin noscript_soup el
  = inr (_extract_img_url_from total_urljoin noscript_soup el).
Proof.
  unfold Raising._extract_img_url_from, _extract_img_url_from.
  rewrite (mapM_total _ _ _ (clean_url total_urljoin) _ clean_url_agrees).
  cbn [Raising.bind]. rewrite flat_map_concat_map. reflexivity.
Qed.

Lemma harvest_fold_agrees (l : list (nat * elt)) :
  forall st,
    fold_left
      (fun st idx_n =>
         Raising.bind st (fun st' =>
         Raising.bind (Raising._extract_img_url_from urljoin noscript_soup (snd idx_n))
           (fun urls => inr (fold_left (add_candidate (fst idx_n)) urls st'))))
      l (inr st)
    = inr (fold_left
             (fun st idx_n =>
                fold_left (add_candidate (fst idx_n))
                          (_extract_img_url_from total_urljoin noscript_soup (snd idx_n)) st)
             l st).
Proof.
  induction l as [|x l IH]; intros st; [reflexivity|].
  cbn [fold_left Raising.bind]. rewrite extract_agrees. cbn [Raising.bind]. apply IH.
Qed.

Lemma candidates_agree (soup : node) (title_el : elt) :
  Raising.candidates_of urljoin noscript_soup soup title_el
  = inr (candidates_of total_urljoin noscript_soup soup title_el).
Proof.
  unfold Raising.candidates_of, candidates_of. cbv zeta.
  rewrite harvest_fold_agrees. reflexivity.
Qed.

Lemma card_of_agrees (suit url : str) (soup : node) (pat : regex) (t : elt) :
  Raising.card_of urljoin noscript_soup suit url soup pat t
  = inr (card_of total_urljoin noscript_soup suit url soup pat t).
Proof.
  unfold Raising.card_of, card_of, Raising.nearest_card_image_url, nearest_card_image_url.
  cbv zeta. rewrite candidates_agree. reflexivity.
Qed.

Lemma parse_card_page_agrees (suit url_path : str) :
  Raising.parse_card_page urljoin get_soup noscript_soup suit url_path
  = parse_card_page total_urljoin get_soup noscript_soup suit url_path.
Proof.
  unfold Raising.parse_card_page, parse_card_page. cbv zeta. rewrite never_raises.
  destruct (get_soup (total_urljoin BASE url_path)) as [e|soup]; [reflexivity|].
  rewrite (mapM_total _ _ _ (card_of total_urljoin noscript_soup suit
                                     (total_urljoin BASE url_path) soup
                                     (title_regex_for suit)) _
             (card_of_agrees suit _ soup _)).
  reflexivity.
Qed.

Lemma scrape_all_agrees :
  Raising.scrape_all urljoin get_soup noscript_soup
  = scrape_all total_urljoin get_soup noscript_soup.
Proof.
  unfold Raising.scrape_all, scrape_all. generalize (@nil event, @nil CardRecord) as acc.
  generalize PAGES as pages. induction pages as [|[suit path_] pages IH]; intros acc;
    [reflexivity|].
  cbn [fold_left]. rewrite <- IH. f_equal.
  unfold Raising.scrape_section, scrape_section. rewrite parse_card_page_agrees. reflexivity.
Qed.

End RaisingAgrees.

Section RaisingDriver.
Variable urljoin : str -> str -> exn + str.
Variable get_soup : str -> exn + node.
Variable noscript_soup : list node -> option node.

(** A section that fails has neither printed the warning nor paused. *)
Lemma failed_parse_is_silent (suit url_path : str) (e : exn) :
  snd (Raising.parse_card_page urljoin get_soup noscript_soup suit url_path) = inl e ->
  fst (Raising.parse_card_page urljoin get_soup noscript_soup suit url_path) = [].
Proof.
  unfold Raising.parse_card_page. cbv zeta.
  destruct (urljoin BASE url_path) as [e1|url]; [reflexivity|].
  destruct (get_soup url) as [e2|soup]; [reflexivity|].
  destruct (Raising.mapM _ _) as [e3|rs]; [reflexivity | discriminate].
Qed.

Lemma completed_parse_pauses_once (suit url_path : str) (rs : list CardRecord) :
  snd (Raising.parse_card_page urljoin get_soup noscript_soup suit url_path) = inr rs ->
  length (filter is_sleep
            (fst (Raising.parse_card_page urljoin get_soup noscript_soup suit url_path))) = 1.
Proof.
  unfold Raising.parse_card_page. cbv zeta.
  destruct (urljoin BASE url_path) as [e1|url]; [discriminate|].
  destruct (get_soup url) as [e2|soup]; [discriminate|].
  destruct (Raising.mapM _ _) as [e3|[|r rs']]; [discriminate | reflexivity | reflexivity].
Qed.

Lemma raising_scrape_fold (pages : list (str * str)) :
  forall acc,
    fold_left (Raising.scrape_section urljoin get_soup noscript_soup) pages acc
    = (fst acc ++ flat_map (raising_section_events urljoin get_soup noscript_soup) pages,
       snd acc ++ flat_map (raising_section_rows urljoin get_soup noscript_soup) pages).
Proof.
  induction pages as [|[suit path_] pages IH]; intros [ev rows];
    cbn [fold_left flat_map fst snd].
  - rewrite !app_nil_r. reflexivity.
  - rewrite IH. unfold Raising.scrape_section, raising_section_events, raising_section_rows.
    cbn [fst snd].
    destruct (Raising.parse_card_page urljoin get_soup noscript_soup suit path_)
      as [ev' [e|rs]];
      cbn [fst snd]; f_equal; norm_app; rewrite ?app_nil_r; reflexivity.
Qed.

Lemma raising_section_sleeps (page : str * str) :
  length (filter is_sleep (raising_section_events urljoin get_soup noscript_soup page))
  = if completed urljoin get_soup noscript_soup page then 1 else 0.
Proof.
  unfold raising_section_events, completed. cbn [filter is_sleep].
  rewrite filter_app, length_app.
  destruct (snd (Raising.parse_card_page urljoin get_soup noscript_soup (fst page) (snd page)))
    as [e|rs] eqn:E.
  - rewrite (failed_parse_is_silent _ _ _ E). reflexivity.
  - rewrite (completed_parse_pauses_once _ _ _ E). reflexivity.
Qed.

(** X17.  The driver goes through the five sections in the order of
    [PAGES], whatever happens in one of them, be it that the page cannot be
    fetched or that [urljoin] raises on a URL of the page: its rows are the
    records of the sections that came to their end, section after section; a
    section that failed adds no row and prints, after its announcement, the
    error line only.  The program pauses once for every section that came
    to its end and not at all in a section that failed, even if its page
    was fetched, as on [bad_link_page].  When [urljoin] raises on no URL the
    driver does what the scraper with a total [urljoin] does. *)
Theorem driver_outlives_a_failing_section :
  Raising.scrape_all urljoin get_soup noscript_soup
  = (flat_map (raising_section_events urljoin get_soup noscript_soup) PAGES,
     flat_map (raising_section_rows urljoin get_soup noscript_soup) PAGES)
  /\ length (filter is_sleep (fst (Raising.scrape_all urljoin get_soup noscript_soup)))
     = length (filter (completed urljoin get_soup noscript_soup) PAGES)
  /\ (forall page e,
        snd (Raising.parse_card_page urljoin get_soup noscript_soup (fst page) (snd page))
        = inl e ->
        raising_section_rows urljoin get_soup noscript_soup page = []
        /\ raising_section_events urljoin get_soup noscript_soup page
           = [EPrint (L "Scraping " ++ fst page ++ L " … " ++ snd page);
              EPrint (L "[error] " ++ fst page ++ L ": " ++ e)])
  /\ Raising.parse_card_page raising_urljoin bad_link_get_soup sample_noscript
       (L "Wands") (L "/wands")
     = ([], inl (L "Invalid IPv6 URL"))
  /\ (forall total_urljoin,
        (forall b u, urljoin b u = inr (total_urljoin b u)) ->
        Raising.scrape_all urljoin get_soup noscript_soup
        = scrape_all total_urljoin get_soup noscript_soup).
Proof.
  assert (E : Raising.scrape_all urljoin get_soup noscript_soup
              = (flat_map (raising_section_events urljoin get_soup noscript_soup) PAGES,
                 flat_map (raising_section_rows urljoin get_soup noscript_soup) PAGES))
    by (unfold Raising.scrape_all; rewrite raising_scrape_fold; reflexivity).
  split; [exact E|]. split; [|split; [|split]].
  - rewrite E. cbn [fst]. clear E. generalize PAGES as pages.
    induction pages as [|p pages IH]; [reflexivity|].
    cbn [flat_map filter]. rewrite filter_app, length_app, IH, raising_section_sleeps.
    destruct (completed urljoin get_soup noscript_soup p); reflexivity.
  - intros page e He. unfold raising_section_rows, raising_section_events.
    rewrite (failed_parse_is_silent _ _ _ He), He. split; reflexivity.
  - vm_compute. reflexivity.
  - intros total_urljoin H. apply scrape_all_agrees, H.
Qed.

End RaisingDriver.

(** *** The picture of a record *)



Section RecordImage.
Variable urljoin : str -> str -> str.
Variable get_soup : str -> exn + node.
Variable noscript_soup : list node -> option node.



End RecordImage.


(** *** What the groups of a pattern capture *)

Lemma bt_caps (A : Type) (P : nat -> str -> Prop) (r : regex) :
  groups_sat P r ->
  forall pos s g (k : nat -> str -> caps -> option A) x,
    caps_sat P g ->
    bt r pos s g k = Some x ->
    exists pos' s' g', den r pos s pos' s' /\ caps_sat P g' /\ k pos' s' g' = Some x.
Proof.
  induction r as [| | |p|a IHa b IHb|a IHa b IHb|p|i a IHa];
    intros Hr pos s g k x Hg; cbn [bt den].
  - intros H. exists pos, s, g. auto.
  - destruct (pos =? 0) eqn:E; [|discriminate]. apply Nat.eqb_eq in E.
    intros H. exists pos, s, g. auto.
  - destruct s as [|c [|d t]].
    + intros H. exists pos, [], g. auto.
    + destruct (c =? nl)%char eqn:E; [|discriminate]. apply Ascii.eqb_eq in E. subst c.
      intros H. exists pos, [nl], g. auto.
    + discriminate.
  - destruct s as [|c t]; [discriminate|]. destruct (p c) eqn:Hc; [|discriminate].
    intros H. exists (S pos), t, g. split; [exists c; auto | auto].
  - destruct Hr as [Ha Hb]. intros H.
    apply (IHa Ha _ _ _ _ _ Hg) in H. destruct H as (pos1 & s1 & g1 & Da & Hg1 & H).
    apply (IHb Hb _ _ _ _ _ Hg1) in H. destruct H as (pos2 & s2 & g2 & Db & Hg2 & H).
    exists pos2, s2, g2. split; [exists pos1, s1; auto | auto].
  - destruct Hr as [Ha Hb]. destruct (bt a pos s g k) as [y|] eqn:Ea.
    + intros [= ->]. apply (IHa Ha _ _ _ _ _ Hg) in Ea.
      destruct Ea as (pos' & s' & g' & D & Hg' & H). exists pos', s', g'. auto.
    + intros H. apply (IHb Hb _ _ _ _ _ Hg) in H.
      destruct H as (pos' & s' & g' & D & Hg' & H). exists pos', s', g'. auto.
  - intros H. apply star_bt_sound in H. destruct H as (u & s' & -> & Hu & H).
    exists (pos + length u), s', g. split; [exists u; auto | auto].
  - destruct Hr as [Ha HP]. intros H.
    apply (IHa Ha _ _ _ _ _ Hg) in H. destruct H as (pos' & s' & g' & D & Hg' & H).
    exists pos', s', ((i, firstn (pos' - pos) s) :: g'). split; [exact D|]. split; [|exact H].
    intros j w [[= <- <-] | Hin]; [apply (HP _ _ _ _ D) | apply Hg', Hin].
Qed.

Lemma search_from_caps (P : nat -> str -> Prop) (r : regex) (s : str) :
  groups_sat P r ->
  forall pos e g, search_from r pos s = Some (e, g) -> caps_sat P g.
Proof.
  intros Hr. induction s as [|c t IH]; intros pos e g; cbn [search_from].
  - destruct (match_at r pos []) as [m|] eqn:E; [|discriminate]. intros [= ->].
    unfold match_at in E. apply (bt_caps _ P r Hr) in E; [|intros i w []].
    destruct E as (pos' & s' & g' & _ & Hg' & [= _ <-]). exact Hg'.
  - destruct (match_at r pos (c :: t)) as [m|] eqn:E; [|apply IH]. intros [= ->].
    unfold match_at in E. apply (bt_caps _ P r Hr) in E; [|intros i w []].
    destruct E as (pos' & s' & g' & _ & Hg' & [= _ <-]). exact Hg'.
Qed.

Lemma group_in (i : nat) (g : caps) (w : str) : group i g = Some w -> In (i, w) g.
Proof.
  induction g as [|[j v] g IH]; cbn [group]; [discriminate|].
  destruct (i =? j) eqn:E; [|intros H; right; apply IH, H].
  apply Nat.eqb_eq in E. subst j. intros [= <-]. left. reflexivity.
Qed.

Lemma css_background_groups : groups_sat (fun _ w => css_url_ok w) CSS_BACKGROUND.
Proof.
  assert (Hlit : forall w, groups_sat (fun _ w => css_url_ok w) (lit true w))
    by (induction w; cbn [lit groups_sat]; auto).
  assert (Hgrp : forall pos s pos' s',
             den (plus (fun c => negb ((c =? ")")%char || quote_chr c))) pos s pos' s' ->
             css_url_ok (firstn (pos' - pos) s)).
  { intros pos s pos' s' Hd. apply den_plus in Hd.
    destruct Hd as (c & u & -> & Hc & Hu & ->).
    replace (S (pos + length u) - pos) with (S (length u)) by lia.
    cbn [firstn app]. rewrite firstn_app, Nat.sub_diag, firstn_all. cbn [firstn].
    rewrite app_nil_r. split; [discriminate|]. cbn [forallb]. rewrite Hc, Hu. reflexivity. }
  unfold CSS_BACKGROUND, opt, plus. cbn [groups_sat].
  repeat (split; try apply Hlit; try exact I; try exact Hgrp).
Qed.

Lemma style_url_ok (n : node) (u : str) : In u (style_url n) -> css_url_ok u.
Proof.
  unfold style_url. cbv zeta.
  destruct (re_search CSS_BACKGROUND _) as [[e g]|] eqn:E; [|intros []].
  destruct (group 1 g) as [w|] eqn:Hg; [|intros []]. intros [<- | []].
  unfold re_search in E.
  apply (search_from_caps (fun _ w => css_url_ok w) _ _ css_background_groups) in E.
  apply (E 1 w), group_in, Hg.
Qed.

Lemma attr_values_nonempty (names : list str) (n : node) (u : str) :
  In u (attr_values names n) -> u <> [].
Proof.
  unfold attr_values. rewrite in_flat_map. intros (a & _ & H).
  destruct (attr a n) as [v|]; [|destruct H].
  destruct v as [|c v]; [destruct H|]. destruct H as [<- | []]. discriminate.
Qed.

Lemma srcset_urls_nonempty (n : node) (u : str) : In u (srcset_urls n) -> u <> [].
Proof.
  unfold srcset_urls. destruct (attr (L "srcset") n) as [v|]; [|intros []].
  rewrite in_flat_map. intros (p & _ & Hu).
  destruct (nonempty (strip p)) eqn:Hne; [|destruct Hu]. destruct Hu as [<- | []].
  destruct (edge_ok_inv _ (edge_ok_strip _ Hne)) as (d & t & _ & _ & Ed & _ & Hd & _).
  assert (Hdsp : d <> " "%char) by (intros ->; discriminate).
  destruct (split_head_cons " " d t Hdsp) as [h Eh]. rewrite <- Ed in Eh.
  rewrite Eh. discriminate.
Qed.

Section RawUrls.
Variable noscript_soup : list node -> option node.

(** X22.  A URL taken from an inline style is not empty and holds no
    closing parenthesis and no quote.  Of the raw URLs the extractor
    harvests below an element only the [href] of a link can be empty: the
    values of the attributes of the pictures, the entries of a [srcset],
    the URLs of the styles and those of the [noscript] blocks never are, so
    the test for an empty URL in the filter drops empty links only. *)
Theorem only_a_link_gives_an_empty_url (el : elt) :
  (forall n u, In u (style_url n) -> css_url_ok u)
  /\ (In [] (harvest_urls noscript_soup el) ->
      exists a, In a (find_all (fun n => name_in [L "a"] n && is_some (attr (L "href") n)) el)
                /\ attr (L "href") (snd a) = Some []).
Proof.
  split; [exact style_url_ok|]. unfold harvest_urls. intros H.
  apply in_app_or in H. destruct H as [H | H].
  - apply in_flat_map in H. destruct H as (a & Ha & Hu). exists a. split; [exact Ha|].
    destruct (attr (L "href") (snd a)) as [v|]; [|destruct Hu].
    destruct Hu as [<- | []]. reflexivity.
  - exfalso. apply in_app_or in H. destruct H as [H | H].
    + apply in_flat_map in H. destruct H as (i & _ & Hu). apply in_app_or in Hu.
      destruct Hu as [Hu | Hu];
        [exact (attr_values_nonempty _ _ _ Hu eq_refl)
        | exact (srcset_urls_nonempty _ _ Hu eq_refl)].
    + apply in_app_or in H. destruct H as [H | H].
      * apply in_flat_map in H. destruct H as (n & _ & Hu).
        destruct (style_url_ok _ _ Hu) as [Hne _]. exact (Hne eq_refl).
      * apply in_flat_map in H. destruct H as (ns & _ & Hu).
        destruct (snd ns) as [s|nm a cs]; [destruct Hu|].
        destruct (noscript_soup cs) as [ns_soup|]; [|destruct Hu].
        apply in_flat_map in Hu. destruct Hu as (i & _ & Hu).
        exact (attr_values_nonempty _ _ _ Hu eq_refl).
Qed.

End RawUrls.

(** *** A picture in one block with the title *)

Lemma nodup_fst_before (l1 : list elt) (t : elt) (l2 : list elt) :
  NoDup (map fst (l1 ++ t :: l2)) -> forall m, In m l1 -> fst m <> fst t.
Proof.
  rewrite map_app. cbn [map]. intros H m Hm E.
  apply NoDup_remove_2 in H. apply H. apply in_or_app. left.
  rewrite <- E. apply in_map, Hm.
Qed.

Lemma region_paths_nodup (soup : node) (t : elt) : NoDup (map fst (region_nodes soup t)).
Proof. unfold region_nodes. apply nodup_map_filter, descendants_paths_nodup. Qed.

(** In the list of the tags of a region a tag stands before the tags
    below it. *)
Lemma region_tag_before_its_descendants (soup : node) (t n d : elt) (i : nat) :
  nth_error (region_nodes soup t) i = Some n ->
  In d (descendants n) -> is_tag (snd d) = true ->
  exists l1 l2, region_nodes soup t = l1 ++ d :: l2 /\ i < length l1.
Proof.
  intros Hi Hd Htag.
  assert (Hn : In n (region_nodes soup t)) by (apply nth_error_In with (n := i); exact Hi).
  pose proof (region_paths_nodup soup t) as Hnd.
  unfold region_nodes in *. apply filter_In in Hn. destruct Hn as [Hn Hntag].
  destruct (descendants_split _ _ _ Hn) as (pre & post & E & _).
  unfold descendants in Hd, E. fold (descendants_at (fst n) (snd n)) in E.
  set (f := fun x : elt => is_tag (snd x)) in *.
  assert (Hd' : In d (filter f (descendants_at (fst n) (snd n))))
    by (apply filter_In; split; assumption).
  destruct (in_split _ _ Hd') as (m1 & m2 & Em).
  assert (Er : filter f (descendants_at (fst (boundary_of soup t)) (snd (boundary_of soup t)))
               = (filter f pre ++ n :: m1) ++ d :: m2 ++ filter f post).
  { unfold descendants in E. rewrite E, filter_app. cbn [filter].
    replace (f n) with true by (symmetry; exact Hntag).
    rewrite filter_app, Em. norm_app. reflexivity. }
  set (D := descendants_at (fst (boundary_of soup t)) (snd (boundary_of soup t))) in *.
  change (nth_error (filter f D) i = Some n) in Hi.
  change (NoDup (map fst (filter f D))) in Hnd.
  change (exists l1 l2, filter f D = l1 ++ d :: l2 /\ i < length l1).
  rewrite Er in Hi, Hnd.
  exists (filter f pre ++ n :: m1), (m2 ++ filter f post). split; [exact Er|].
  assert (Hi' : nth_error ((filter f pre ++ n :: m1) ++ d :: m2 ++ filter f post)
                          (length (filter f pre)) = Some n).
  { rewrite <- app_assoc. rewrite nth_error_app2, Nat.sub_diag by lia. reflexivity. }
  apply NoDup_map_inv in Hnd.
  assert (Hlt : i < length ((filter f pre ++ n :: m1) ++ d :: m2 ++ filter f post))
    by (apply nth_error_Some; congruence).
  rewrite (proj1 (NoDup_nth_error _) Hnd i (length (filter f pre)) Hlt (eq_trans Hi (eq_sym Hi'))).
  rewrite length_app. cbn [length]. lia.
Qed.

(** X23.  A candidate carries the index of the first tag of the region
    below which its URL is found, not that of the picture.  When that tag
    holds the title element too, as a block of one card does, the candidate
    has a smaller index than the title and is scored as standing before the
    title, wherever its picture stands in the block.  (The title element is
    taken to be the only tag of its region equal to it.) *)
Theorem picture_in_the_block_of_the_title_counts_as_before
    (pat : regex) (soup : node) (t n : elt) (i : nat) (tokens : list str) (u : str) :
  In t (title_nodes pat soup) ->
  distinct_keys (snd t) ->
  (forall m, In m (region_nodes soup t) -> node_eqb (snd m) (snd t) = true -> fst m = fst t) ->
  nth_error (region_nodes soup t) i = Some n ->
  In t (descendants n) ->
  i < title_index soup t
  /\ fst (fst (score tokens (title_index soup t) (i, u))) = 10%Z.
Proof.
  intros Ht Hd Huniq Hi Hin.
  destruct (title_nodes_in_page _ _ _ Ht) as (_ & Htag & _).
  destruct (region_tag_before_its_descendants soup t n t i Hi Hin Htag)
    as (l1 & l2 & E & Hlt).
  assert (Hidx : title_index soup t = length l1).
  { apply (title_index_first_equal soup t l1 t l2 E (node_eqb_refl _ Hd)).
    intros m Hm. destruct (node_eqb (snd m) (snd t)) eqn:F; [|reflexivity]. exfalso.
    pose proof (region_paths_nodup soup t) as Hnd. rewrite E in Hnd.
    apply (nodup_fst_before l1 t l2 Hnd m Hm).
    apply Huniq; [rewrite E; apply in_or_app; left; exact Hm | exact F]. }
  rewrite score_before, Hidx. cbn [fst]. split; [exact Hlt|].
  replace (i <? length l1) with true by (symmetry; apply Nat.ltb_lt; exact Hlt).
  reflexivity.
Qed.

Lemma block_picture_counts_as_before :
  In (0, L "https://www.thismighthurttarot.com/images/AceOfWands.jpg")
     (candidates_of sample_urljoin sample_noscript card_block_page block_title)
  /\ nth_error (region_nodes card_block_page block_title) 0 = Some block_div
  /\ In block_title (descendants block_div)
  /\ 0 < title_index card_block_page block_title.
Proof.
  assert (Ht : In block_title (title_nodes (title_regex_for (L "Wands")) card_block_page))
    by (vm_compute; left; reflexivity).
  assert (Hd : distinct_keys (snd block_title)) by (cbn; repeat split; constructor).
  assert (Hu : forall m, In m (region_nodes card_block_page block_title) ->
                 node_eqb (snd m) (snd block_title) = true -> fst m = fst block_title).
  { intros m Hm. vm_compute in Hm.
    destruct Hm as [<- | [<- | [<- | []]]]; intros F; vm_compute in F;
      first [discriminate | reflexivity]. }
  assert (Hi : nth_error (region_nodes card_block_page block_title) 0 = Some block_div)
    by reflexivity.
  assert (Hin : In block_title (descendants block_div)) by (vm_compute; left; reflexivity).
  split; [vm_compute; left; reflexivity|]. split; [exact Hi|]. split; [exact Hin|].
  exact (proj1 (picture_in_the_block_of_the_title_counts_as_before
                  (title_regex_for (L "Wands")) card_block_page block_title block_div 0 []
                  [] Ht Hd Hu Hi Hin)).
Defined.

(** *** The tokens of a Major Arcana title *)

Lemma sub_from_bos_later (r : regex) (repl s : str) :
  forall pos, sub_from (Seq Bos r) repl 0 (S pos) s = s.
Proof.
  induction s as [|c t IH]; intros pos; [reflexivity|].
  rewrite sub_from_step. unfold match_at. cbn [bt Nat.eqb]. rewrite IH. reflexivity.
Qed.

(** Removing a pattern [^...] removes what it matches at the start, if it
    matches there. *)
Lemma re_sub_bos (r : regex) (s : str) :
  re_sub (Seq Bos r) [] s
  = match match_at (Seq Bos r) 0 s with
    | Some (e, _) => if 0 <? e then skipn e s else s
    | None => s
    end.
Proof.
  unfold re_sub. destruct s as [|c t].
  - cbn [sub_from]. destruct (match_at (Seq Bos r) 0 []) as [[e g]|]; [|reflexivity].
    destruct (0 <? e); [rewrite skipn_nil|]; reflexivity.
  - rewrite sub_from_step. destruct (match_at (Seq Bos r) 0 (c :: t)) as [[e g]|].
    + destruct e as [|e]; cbn [Nat.ltb Nat.leb].
      * rewrite sub_from_bos_later. reflexivity.
      * rewrite sub_from_bos_later. cbn [app skipn].
        replace (S e - 0 - 1) with e by lia. reflexivity.
    + rewrite sub_from_bos_later. reflexivity.
Qed.

Lemma leading_the_match (s : str) (e : nat) (g : caps) :
  match_at LEADING_THE 0 s = Some (e, g) ->
  exists the ws rest,
    s = the ++ ws ++ rest /\ ci_match true the (L "The") /\ blank ws
    /\ e = length the + length ws.
Proof.
  unfold match_at. intros H. apply bt_sound in H.
  destruct H as (pos' & s' & g' & Hd & [= <- _]).
  unfold LEADING_THE in Hd. cbn [den] in Hd.
  destruct Hd as (pos1 & s1 & (_ & -> & ->) & pos2 & s2 & Hl & Hb).
  apply den_lit in Hl. destruct Hl as (the & -> & Hthe & ->).
  change (den (plus isspace) (0 + length the) s2 pos' s') in Hb.
  apply den_blank in Hb. destruct Hb as (ws & -> & Hws & ->).
  exists the, ws, s'. repeat split; try assumption; apply Hws.
Qed.

Lemma startswith_suffix (p a s : str) :
  startswith (p ++ a) s = true -> contains a s = true.
Proof.
  revert s. induction p as [|c p IH]; intros s; cbn [app].
  - intros H. destruct s; cbn [contains]; rewrite H; reflexivity.
  - destruct s as [|d s]; cbn [startswith]; [discriminate|].
    intros H. apply andb_true_iff in H. destruct H as [_ H].
    cbn [contains]. rewrite (IH _ H). apply orb_true_r.
Qed.

(** A string that contains [p ++ a] contains [a]. *)
Lemma contains_suffix (p a s : str) :
  contains (p ++ a) s = true -> contains a s = true.
Proof.
  induction s as [|c s IH]; cbn [contains]; intros H; apply orb_true_iff in H.
  - destruct H as [H | H]; [|discriminate]. apply (startswith_suffix p a [] H).
  - destruct H as [H | H]; [apply (startswith_suffix p a (c :: s) H)|].
    change (contains a (c :: s)) with (startswith a (c :: s) || contains a s).
    rewrite (IH H). apply orb_true_r.
Qed.

Lemma remove_space_blank (ws : str) :
  forallb isspace ws = true ->
  forallb isspace (lower (remove_char " " ws)) = true
  /\ ~ In " "%char (lower (remove_char " " ws)).
Proof.
  intros H. split.
  - apply forallb_forall. intros c Hc. unfold lower in Hc. apply in_map_iff in Hc.
    destruct Hc as (d & <- & Hd). unfold remove_char in Hd. apply filter_In in Hd.
    rewrite isspace_lower. rewrite forallb_forall in H. apply H, Hd.
  - intros Hin. unfold lower in Hin. apply in_map_iff in Hin.
    destruct Hin as (d & Ed & Hd). unfold remove_char in Hd. apply filter_In in Hd.
    destruct Hd as [_ Hd]. apply lower_char_is_space in Ed. subst d. discriminate.
Qed.

(** X24.  For a Major Arcana title there are always two tokens: the title,
    stripped, without its spaces and in lower case, and the same without a
    leading "the".  They are one and the same token when the title has no
    leading "The" followed by white space.  A URL that contains the second
    token contains the first one too, and so gets 20 for each of them. *)
Theorem major_tokens_differ_by_a_leading_the (title_text : str) :
  exists a p,
    card_filename_tokens title_text (L "Major Arcana") = [a; p ++ a]
    /\ p ++ a = lower (remove_char " " (strip title_text))
    /\ (p = [] \/ exists w, p = L "the" ++ w /\ forallb isspace w = true /\ ~ In " "%char w)
    /\ forall T idx u,
         contains (p ++ a) (lower u) = true ->
         (40 <= snd (score [a; p ++ a] T (idx, u)))%Z.
Proof.
  assert (Hscore : forall a p T idx u,
             contains (p ++ a) (lower u) = true ->
             (40 <= snd (score [a; p ++ a] T (idx, u)))%Z).
  { intros a p T idx u H. unfold score. cbv zeta. cbn [fold_left snd].
    rewrite (contains_suffix p a _ H), H.
    destruct (existsb _ SCORE_MARKERS), (endswith_any IMAGE_EXTS (lower u)); lia. }
  unfold card_filename_tokens. cbv zeta. cbn [str_eqb]. rewrite str_eqb_refl.
  set (s := strip title_text). cbn [map].
  pose proof (re_sub_bos (Seq (lit true (L "The")) (plus isspace)) s) as Ebase.
  change (Seq Bos (Seq (lit true (L "The")) (plus isspace))) with LEADING_THE in Ebase.
  set (base := re_sub LEADING_THE [] s) in *. clearbody base.
  destruct (match_at LEADING_THE 0 s) as [[e g]|] eqn:Hm.
  - destruct (0 <? e) eqn:He.
    + destruct (leading_the_match _ _ _ Hm) as (the & ws & rest & Es & Hthe & [_ Hws] & ->).
      assert (Hsk : skipn (length the + length ws) s = rest).
      { rewrite Es, app_assoc, <- length_app, skipn_app, Nat.sub_diag, skipn_all.
        reflexivity. }
      rewrite Hsk in Ebase. subst base.
      destruct (remove_space_blank ws Hws) as [W1 W2].
      exists (lower (remove_char " " rest)), (L "the" ++ lower (remove_char " " ws)).
      assert (Eb : (L "the" ++ lower (remove_char " " ws)) ++ lower (remove_char " " rest)
                   = lower (remove_char " " s)).
      { rewrite Es. unfold remove_char. rewrite !filter_app. unfold lower.
        rewrite !map_app. fold (remove_char " " the). fold (lower (remove_char " " the)).
        rewrite (remove_space_ci the (L "The") (ci_match_lower _ _ Hthe)).
        rewrite <- app_assoc. reflexivity. }
      split; [rewrite Eb; reflexivity|]. split; [exact Eb|].
      split; [|apply Hscore]. right. exists (lower (remove_char " " ws)). auto.
    + subst base. exists (lower (remove_char " " s)), []. cbn [app].
      split; [reflexivity|]. split; [reflexivity|]. split; [left; reflexivity|].
      apply (Hscore _ []).
  - subst base. exists (lower (remove_char " " s)), []. cbn [app].
    split; [reflexivity|]. split; [reflexivity|]. split; [left; reflexivity|].
    apply (Hscore _ []).
Qed.

(** *** The description between two cards and after the last one *)






(** X26.  Nothing but a title ends the collection: when no element after
    the title of a card has a title as its text, as for the last card of a
    page, the description takes the text of every [p] tag up to the end of
    the page, whatever it belongs to. *)
Theorem last_description_runs_to_the_end_of_the_page (suit : str) (soup : node) (t : elt) :
  (forall cur, In cur (next_elements soup t) ->
               is_title (title_regex_for suit) (snd cur) = false) ->
  collect_paragraphs soup t (title_regex_for suit)
  = flat_map (fun cur => if name_in [L "p"] (snd cur)
                            && nonempty (get_text (L " ") (snd cur))
                         then [get_text (L " ") (snd cur)] else [])
             (next_elements soup t).
Proof.
  unfold collect_paragraphs. generalize (next_elements soup t) as l.
  induction l as [|cur l IH]; intros H; [reflexivity|].
  rewrite collect_from_step, stops_is_title, (H cur (or_introl eq_refl)).
  rewrite IH by (intros c Hc; apply H; right; exact Hc). cbn [flat_map].
  destruct (snd cur) as [s|nm a cs]; cbn [is_tag name_in andb app]; [reflexivity|].
  destruct (existsb (str_eqb nm) [L "p"] && nonempty (get_text (L " ") (Tag nm a cs)));
    reflexivity.
Qed.

Lemma two_description_runs_to_the_end :
  (forall cur, In cur (next_elements wands_page two_title) ->
               is_title (title_regex_for (L "Wands")) (snd cur) = false)
  /\ collect_paragraphs wands_page two_title (title_regex_for (L "Wands")) = [L "Planning."].
Proof.
  assert (H : forall cur, In cur (next_elements wands_page two_title) ->
                is_title (title_regex_for (L "Wands")) (snd cur) = false).
  { intros cur Hc. vm_compute in Hc.
    repeat (destruct Hc as [<- | Hc]; [vm_compute; reflexivity|]). destruct Hc. }
  split; [exact H|].
  rewrite (last_description_runs_to_the_end_of_the_page (L "Wands") wands_page two_title H).
  vm_compute. reflexivity.
Defined.
